(** * A verified model of the explicit and implicit free-list allocators

    The development embeds [explicit.c] and the implicit allocator in Rocq:
    a byte-addressed memory with little-endian 64-bit loads and stores, the
    allocator's global variables as a record, and every C function as a
    function in a small state-and-fault monad.  Size arithmetic ([size_t])
    wraps modulo [2^64]; pointer arithmetic is performed on mathematical
    integers (it never leaves the segment in a consistent heap).
    The allocator owns the heap segment handed to it and nothing else: a
    load or store outside the segment (through the null pointer, or through
    a corrupted link) is a fault, and the run stops in the state reached. *)

From Stdlib Require Import ZArith List Lia Bool.
Import ListNotations.
Open Scope Z_scope.

Ltac zlia := Z.div_mod_to_equations; lia.

(* ================================================================= *)
(** ** Machine words *)

Definition two64 : Z := 2 ^ 64.

(** [size_t] arithmetic: unsigned, modulo [2^64]. *)
Definition wrap (x : Z) : Z := x mod two64.
Definition wadd (x y : Z) : Z := wrap (x + y).
Definition wsub (x y : Z) : Z := wrap (x - y).
(** [~x] on a 64-bit word. *)
Definition wnot (x : Z) : Z := wrap (Z.lnot x).

(* ================================================================= *)
(** ** Byte memory *)

Definition memory := Z -> Z.

Definition byte_of (v i : Z) : Z := (v / 2 ^ (8 * i)) mod 256.

Definition load8 (m : memory) (a : Z) : Z := m a mod 256.

(** Little-endian 64-bit load, as [*(size_t * )a] or [*(void ** )a]. *)
Definition load64 (m : memory) (a : Z) : Z :=
  load8 m a
  + 2 ^ 8 * load8 m (a + 1)
  + 2 ^ 16 * load8 m (a + 2)
  + 2 ^ 24 * load8 m (a + 3)
  + 2 ^ 32 * load8 m (a + 4)
  + 2 ^ 40 * load8 m (a + 5)
  + 2 ^ 48 * load8 m (a + 6)
  + 2 ^ 56 * load8 m (a + 7).

Definition store64 (m : memory) (a v : Z) : memory :=
  fun x => if (a <=? x) && (x <? a + 8) then byte_of v (x - a) else m x.

(** [memcpy dst src n]: the [n] bytes at [src] are copied to [dst]. *)
Definition copy_bytes (m : memory) (dst src n : Z) : memory :=
  fun x => if (dst <=? x) && (x <? dst + n) then m (src + (x - dst)) else m x.

(* ================================================================= *)
(** ** The state-and-fault monad *)

(** [heap_lo] and [heap_hi] bound the segment the caller reserved for the
    allocator; only the bytes [[heap_lo, heap_hi)] may be accessed. *)
Record machine (G : Type) : Type := Machine {
  mem : memory;
  heap_lo : Z;
  heap_hi : Z;
  glob : G
}.
Arguments Machine {G} _ _ _ _.
Arguments mem {G} _.
Arguments heap_lo {G} _.
Arguments heap_hi {G} _.
Arguments glob {G} _.

Inductive result (G A : Type) : Type :=
| Ok (a : A) (s : machine G)
| Fault (s : machine G)
| OutOfFuel.
Arguments Ok {G A} _ _.
Arguments Fault {G A} _.
Arguments OutOfFuel {G A}.

Definition M (G A : Type) : Type := machine G -> result G A.

Definition ret {G A} (a : A) : M G A := fun s => Ok a s.

Definition bind {G A B} (c : M G A) (k : A -> M G B) : M G B :=
  fun s => match c s with
           | Ok a s' => k a s'
           | Fault s' => Fault s'
           | OutOfFuel => OutOfFuel
           end.

Declare Scope monad_scope.
Delimit Scope monad_scope with monad.
Notation "x <- c ;; k" := (bind c (fun x => k))
  (at level 61, c at next level, right associativity) : monad_scope.
Notation "c ;; k" := (bind c (fun _ => k))
  (at level 61, right associativity) : monad_scope.
Open Scope monad_scope.

Definition out_of_fuel {G A} : M G A := fun _ => OutOfFuel.

(** The [n] bytes at [a] lie in the segment (and [a] is not null). *)
Definition accessible {G} (s : machine G) (a n : Z) : bool :=
  negb (a =? 0) && (heap_lo s <=? a) && (a + n <=? heap_hi s).

(** [*(size_t * )a] as an rvalue. *)
Definition read {G} (a : Z) : M G Z :=
  fun s => if accessible s a 8 then Ok (load64 (mem s) a) s else Fault s.

(** [*(size_t * )a = v]. *)
Definition write {G} (a v : Z) : M G unit :=
  fun s => if accessible s a 8
           then Ok tt (Machine (store64 (mem s) a v)
                         (heap_lo s) (heap_hi s) (glob s))
           else Fault s.

(** [memcpy(dst, src, n)]. *)
Definition memcpy {G} (dst src n : Z) : M G unit :=
  fun s => if accessible s dst n && accessible s src n
           then Ok tt (Machine (copy_bytes (mem s) dst src n)
                         (heap_lo s) (heap_hi s) (glob s))
           else Fault s.

Definition get {G A} (f : G -> A) : M G A := fun s => Ok (f (glob s)) s.

Definition modify {G} (f : G -> G) : M G unit :=
  fun s => Ok tt (Machine (mem s) (heap_lo s) (heap_hi s) (f (glob s))).

Definition when {G} (b : bool) (c : M G unit) : M G unit :=
  if b then c else ret tt.

(** Modelled from the spec: [allocator.h], which defines [ALIGNMENT], is not
    among the sources; the spec fixes the word alignment at 8 bytes. *)
Definition ALIGNMENT : Z := 8.

(* ================================================================= *)
(** ** The explicit free-list allocator ([explicit.c]) *)

Module Explicit.

Definition MIN_BLOCK_SIZE : Z := 16.
Definition HEADER_LENGTH : Z := 8.

Definition FREE : Z := 7.
Definition USED : Z := 0.
Definition NON_EXISTENT : Z := 1.

Record globals : Type := Globals {
  segment_start : Z;
  segment_end : Z;
  list_head : Z;
  list_end : Z;
  free_blocks_num : Z
}.

Definition state := machine globals.

Definition set_list_head (v : Z) (g : globals) : globals :=
  Globals (segment_start g) (segment_end g) v (list_end g) (free_blocks_num g).
Definition set_list_end (v : Z) (g : globals) : globals :=
  Globals (segment_start g) (segment_end g) (list_head g) v (free_blocks_num g).
Definition set_free_blocks_num (v : Z) (g : globals) : globals :=
  Globals (segment_start g) (segment_end g) (list_head g) (list_end g) v.

Definition St := M globals.

(** The loops of the allocator walk the heap or the free list; the number of
    bytes of the segment bounds the number of blocks, hence of iterations. *)
Definition heap_fuel (s : state) : nat :=
  S (Z.to_nat (segment_end (glob s) - segment_start (glob s))).

Definition current_fuel : St nat := fun s => Ok (heap_fuel s) s.

Definition get_curr_prev (curr : Z) : Z := curr + HEADER_LENGTH.
Definition get_curr_next (curr : Z) : Z := curr + HEADER_LENGTH + 8.

Definition get_prev_free_block (curr : Z) : St Z := read (get_curr_prev curr).
Definition get_next_free_block (curr : Z) : St Z := read (get_curr_next curr).

Definition roundup (sz mult : Z) : Z :=
  if sz <=? MIN_BLOCK_SIZE then MIN_BLOCK_SIZE
  else Z.land (wsub (wadd sz mult) 1) (wnot (wsub mult 1)).

(** The search loop of [insert_block_into_freelist]:
    [while (list_next < curr) list_next = get_next_free_block(list_next);] *)
Fixpoint insert_scan (fuel : nat) (curr list_next : Z) : St Z :=
  match fuel with
  | O => out_of_fuel
  | S fuel' =>
      if list_next <? curr then
        n <- get_next_free_block list_next ;;
        insert_scan fuel' curr n
      else ret list_next
  end.

Definition insert_block_into_freelist (curr : Z) : St unit :=
  n <- get free_blocks_num ;;
  modify (set_free_blocks_num (wadd n 1)) ;;
  let prev := get_curr_prev curr in
  let next := get_curr_next curr in
  head <- get list_head ;;
  if head =? 0 then
    write prev 0 ;;
    write next 0 ;;
    modify (set_list_head curr) ;;
    modify (set_list_end curr)
  else if curr <? head then
    write prev 0 ;;
    write next head ;;
    write (get_curr_prev head) curr ;;
    modify (set_list_head curr)
  else
    tail <- get list_end ;;
    if tail <? curr then
      write prev tail ;;
      write next 0 ;;
      write (get_curr_next tail) curr ;;
      modify (set_list_end curr)
    else
      fuel <- current_fuel ;;
      list_next <- insert_scan fuel curr head ;;
      list_prev <- get_prev_free_block list_next ;;
      write (get_curr_next list_prev) curr ;;
      write (get_curr_prev list_next) curr ;;
      write prev list_prev ;;
      write next list_next.

Definition remove_block_from_freelist (curr : Z) : St unit :=
  n <- get free_blocks_num ;;
  modify (set_free_blocks_num (wsub n 1)) ;;
  prev <- get_prev_free_block curr ;;
  next <- get_next_free_block curr ;;
  when (negb (prev =? 0)) (write (get_curr_next prev) next) ;;
  when (negb (next =? 0)) (write (get_curr_prev next) prev) ;;
  head <- get list_head ;;
  when (curr =? head) (modify (set_list_head next)) ;;
  tail <- get list_end ;;
  when (curr =? tail) (modify (set_list_end prev)).

Definition set_segment_start (v : Z) (g : globals) : globals :=
  Globals v (segment_end g) (list_head g) (list_end g) (free_blocks_num g).
Definition set_segment_end (v : Z) (g : globals) : globals :=
  Globals (segment_start g) v (list_head g) (list_end g) (free_blocks_num g).

Definition myinit (heap_start heap_size : Z) : St bool :=
  if (heap_start =? 0) || (heap_size <? wadd HEADER_LENGTH MIN_BLOCK_SIZE) then
    ret false
  else
    modify (set_segment_start heap_start) ;;
    modify (set_segment_end (heap_start + heap_size)) ;;
    modify (set_list_head heap_start) ;;
    modify (set_list_end heap_start) ;;
    head <- get list_head ;;
    write head (Z.lor (wsub heap_size HEADER_LENGTH) FREE) ;;
    write (get_curr_prev head) 0 ;;
    write (get_curr_next head) 0 ;;
    modify (set_free_blocks_num 1) ;;
    ret true.

(** The body of the [while ((char * )curr <= (char * )list_end)] loop of
    [mymalloc], statement by statement.  When [needed < 16], which only a
    request that [roundup] wraps to 0 brings about, [new_header] falls on the
    link words of [curr]: the header of the remainder is stored as a
    [size_t] where [prev] is then loaded as a pointer, and what follows
    depends on the order in which these two accesses are carried out, here
    the order of the statements.  Of a call that splits a block with
    [needed < 16], the claims below state only what is stored before these
    two accesses. *)
Fixpoint mymalloc_loop (fuel : nat) (needed curr : Z) : St Z :=
  match fuel with
  | O => out_of_fuel
  | S fuel' =>
      tail <- get list_end ;;
      if curr <=? tail then
        h <- read curr ;;
        let curr_size := Z.land h (wnot FREE) in
        if curr_size >=? needed then
          (if wsub curr_size needed <? wadd HEADER_LENGTH MIN_BLOCK_SIZE then
             write curr (Z.land curr_size (wnot FREE)) ;;
             remove_block_from_freelist curr
           else
             write curr (Z.land needed (wnot FREE)) ;;
             let new_header := curr + needed + HEADER_LENGTH in
             write new_header
               (Z.lor (wsub (wsub curr_size needed) HEADER_LENGTH) FREE) ;;
             prev <- get_prev_free_block curr ;;
             next <- get_next_free_block curr ;;
             when (negb (prev =? 0)) (write (get_curr_next prev) new_header) ;;
             when (negb (next =? 0)) (write (get_curr_prev next) new_header) ;;
             write (get_curr_prev new_header) prev ;;
             write (get_curr_next new_header) next ;;
             head <- get list_head ;;
             when (curr =? head) (modify (set_list_head new_header)) ;;
             tail' <- get list_end ;;
             when (curr =? tail') (modify (set_list_end new_header))) ;;
          ret (curr + HEADER_LENGTH)
        else
          n <- get_next_free_block curr ;;
          mymalloc_loop fuel' needed n
      else
        (* printf("Not enough heap space for this allocation!"); *)
        ret 0
  end.

Definition mymalloc (requested_size : Z) : St Z :=
  let needed := roundup requested_size ALIGNMENT in
  curr <- get list_head ;;
  fuel <- current_fuel ;;
  mymalloc_loop fuel needed curr.

(** [(right == segment_end) ? NON_EXISTENT : *(size_t * )right & FREE] *)
Definition status_of_right (right : Z) : St Z :=
  e <- get segment_end ;;
  if right =? e then ret NON_EXISTENT
  else h <- read right ;; ret (Z.land h FREE).

Definition myfree (ptr : Z) : St unit :=
  if ptr =? 0 then ret tt
  else
    let curr := ptr - HEADER_LENGTH in
    h <- read curr ;;
    let curr_size := Z.land h (wnot FREE) in
    let right := curr + HEADER_LENGTH + curr_size in
    right_status <- status_of_right right ;;
    if right_status =? FREE then
      right_size <- read right ;;
      write right (Z.land right_size (wnot FREE)) ;;
      write curr (Z.lor (wadd (wadd curr_size HEADER_LENGTH) right_size) FREE) ;;
      right_prev <- get_prev_free_block right ;;
      right_next <- get_next_free_block right ;;
      when (negb (right_prev =? 0)) (write (get_curr_next right_prev) curr) ;;
      when (negb (right_next =? 0)) (write (get_curr_prev right_next) curr) ;;
      write (get_curr_prev curr) right_prev ;;
      write (get_curr_next curr) right_next ;;
      head <- get list_head ;;
      when (right =? head) (modify (set_list_head curr)) ;;
      tail <- get list_end ;;
      when (right =? tail) (modify (set_list_end curr))
    else
      write curr (Z.lor curr_size FREE) ;;
      insert_block_into_freelist curr.

(** The absorption loop of [myrealloc]; it returns the final [curr_size]. *)
Fixpoint absorb_loop (fuel : nat) (curr curr_size right right_status : Z)
  : St Z :=
  match fuel with
  | O => out_of_fuel
  | S fuel' =>
      if right_status =? FREE then
        h <- read right ;;
        let right_size := Z.land h (wnot FREE) in
        write right (Z.land right_size (wnot FREE)) ;;
        remove_block_from_freelist right ;;
        let curr_size' := wadd curr_size (wadd HEADER_LENGTH right_size) in
        let right' := curr + HEADER_LENGTH + curr_size' in
        right_status' <- status_of_right right' ;;
        absorb_loop fuel' curr curr_size' right' right_status'
      else ret curr_size
  end.

(** The fallback of [myrealloc] once [mymalloc] has returned [new_ptr]. *)
Definition myrealloc_move (new_ptr old_ptr old_size curr curr_size : Z)
  : St Z :=
  memcpy new_ptr old_ptr old_size ;;
  write curr (Z.lor curr_size FREE) ;;
  myfree old_ptr ;;
  ret new_ptr.

Definition myrealloc (old_ptr new_size : Z) : St Z :=
  if old_ptr =? 0 then mymalloc new_size
  else
    let needed := roundup new_size ALIGNMENT in
    let curr := old_ptr - HEADER_LENGTH in
    h <- read curr ;;
    let old_size := Z.land h (wnot FREE) in
    let right := curr + HEADER_LENGTH + old_size in
    right_status <- status_of_right right ;;
    fuel <- current_fuel ;;
    curr_size <- absorb_loop fuel curr old_size right right_status ;;
    if curr_size >=? needed then
      (if wsub curr_size needed <? wadd HEADER_LENGTH MIN_BLOCK_SIZE then
         write curr (Z.land curr_size (wnot FREE))
       else
         write curr (Z.land needed (wnot FREE)) ;;
         let new_pointer := curr + HEADER_LENGTH + needed in
         write new_pointer
           (Z.lor (wsub (wsub curr_size needed) HEADER_LENGTH) FREE) ;;
         insert_block_into_freelist new_pointer) ;;
      ret old_ptr
    else
      new_ptr <- mymalloc new_size ;;
      myrealloc_move new_ptr old_ptr old_size curr curr_size.

(** The [while ((char * )ptr < (char * )segment_end)] loop of
    [traverse_heap]; [None] stands for an early [return false]. *)
Fixpoint traverse_heap_loop (fuel : nat) (ptr count : Z) : St (option (Z * Z)) :=
  match fuel with
  | O => out_of_fuel
  | S fuel' =>
      e <- get segment_end ;;
      if ptr <? e then
        h <- read ptr ;;
        let curr_size := Z.land h (wnot FREE) in
        let curr_status := Z.land h FREE in
        if curr_size <? MIN_BLOCK_SIZE then ret None
        else if negb (curr_status =? FREE) && negb (curr_status =? USED)
        then ret None
        else
          let count' := if curr_status =? FREE then wadd count 1 else count in
          traverse_heap_loop fuel' (ptr + HEADER_LENGTH + curr_size) count'
      else ret (Some (ptr, count))
  end.

Definition traverse_heap : St bool :=
  start <- get segment_start ;;
  fuel <- current_fuel ;;
  r <- traverse_heap_loop fuel start 0 ;;
  match r with
  | None => ret false
  | Some (ptr, count) =>
      e <- get segment_end ;;
      if negb (ptr =? e) then ret false
      else
        n <- get free_blocks_num ;;
        if negb (count =? n) then ret false else ret true
  end.

Definition within_heap_range (ptr : Z) : St bool :=
  if ptr =? 0 then ret false
  else
    start <- get segment_start ;;
    e <- get segment_end ;;
    ret ((start <=? ptr) && (ptr <=? e)).

(** The [while (count <= free_blocks_num)] loop of [traverse_freelist]. *)
Fixpoint traverse_freelist_loop (fuel : nat) (reverse : bool) (ptr count : Z)
  : St bool :=
  match fuel with
  | O => out_of_fuel
  | S fuel' =>
      n <- get free_blocks_num ;;
      if count <=? n then
        h <- read ptr ;;
        let curr_status := Z.land h FREE in
        if negb (curr_status =? FREE) then ret false
        else
          prev <- get_prev_free_block ptr ;;
          next <- get_next_free_block ptr ;;
          test_prev <-
            (if negb reverse then
               if count =? 1 then ret (prev =? 0) else within_heap_range prev
             else
               if count =? n then ret (prev =? 0) else within_heap_range prev) ;;
          test_next <-
            (if negb reverse then
               if count =? n then ret (next =? 0) else within_heap_range next
             else
               if count =? 1 then ret (next =? 0) else within_heap_range next) ;;
          if negb test_prev || negb test_next then ret false
          else if (negb (prev =? 0) && (prev >=? ptr))
                  || (negb (next =? 0) && (ptr >=? next)) then ret false
          else
            traverse_freelist_loop fuel' reverse
              (if reverse then prev else next) (wadd count 1)
      else ret true
  end.

Definition traverse_freelist (reverse : bool) : St bool :=
  n <- get free_blocks_num ;;
  if n =? 0 then
    head <- get list_head ;;
    tail <- get list_end ;;
    ret ((head =? 0) && (tail =? 0))
  else
    head <- get list_head ;;
    tail <- get list_end ;;
    let ptr := if reverse then tail else head in
    traverse_freelist_loop (S (Z.to_nat n)) reverse ptr 1.

Definition validate_heap : St bool :=
  a <- traverse_heap ;;
  if negb a then ret false
  else
    b <- traverse_freelist true ;;
    if negb b then ret false
    else
      c <- traverse_freelist false ;;
      if negb c then ret false else ret true.

(** Before [myinit]: the caller has reserved the segment [[lo, hi)], and
    the static variables of [explicit.c] are zero. *)
Definition boot (m : memory) (lo hi : Z) : state :=
  Machine m lo hi (Globals 0 0 0 0 0).

End Explicit.

(* ================================================================= *)
(** ** The implicit allocator *)

Module Implicit.

Definition FREE : Z := 7.
Definition USED : Z := 0.
Definition HEADER_LENGTH : Z := 8.

Record globals : Type := Globals {
  segment_start : Z;
  segment_end : Z
}.

Definition state := machine globals.
Definition St := M globals.

Definition set_segment_start (v : Z) (g : globals) : globals :=
  Globals v (segment_end g).
Definition set_segment_end (v : Z) (g : globals) : globals :=
  Globals (segment_start g) v.

Definition heap_fuel (s : state) : nat :=
  S (Z.to_nat (segment_end (glob s) - segment_start (glob s))).
Definition current_fuel : St nat := fun s => Ok (heap_fuel s) s.

Definition roundup (sz mult : Z) : Z :=
  if sz <=? ALIGNMENT then ALIGNMENT
  else Z.land (wsub (wadd sz mult) 1) (wnot (wsub mult 1)).

Definition myinit (heap_start heap_size : Z) : St bool :=
  if (heap_start =? 0) || (heap_size <=? HEADER_LENGTH) then ret false
  else
    modify (set_segment_start heap_start) ;;
    start <- get segment_start ;;
    write start (Z.lor (wsub heap_size HEADER_LENGTH) FREE) ;;
    modify (set_segment_end (heap_start + heap_size)) ;;
    ret true.

Fixpoint mymalloc_loop (fuel : nat) (needed ptr : Z) : St Z :=
  match fuel with
  | O => out_of_fuel
  | S fuel' =>
      e <- get segment_end ;;
      if ptr <? e then
        h <- read ptr ;;
        let curr_size := Z.land h (wnot FREE) in
        let curr_status := Z.land h FREE in
        if (curr_size >=? needed) && (curr_status =? FREE) then
          (if wsub curr_size needed <=? HEADER_LENGTH then
             write ptr (Z.land curr_size (wnot FREE))
           else
             write ptr (Z.land needed (wnot FREE)) ;;
             let next_header := ptr + HEADER_LENGTH + needed in
             write next_header
               (Z.lor (wsub (wsub curr_size needed) HEADER_LENGTH) FREE)) ;;
          ret (ptr + HEADER_LENGTH)
        else mymalloc_loop fuel' needed (ptr + curr_size + HEADER_LENGTH)
      else
        (* printf("Not enough heap space for this allocation!\n"); *)
        ret 0
  end.

Definition mymalloc (requested_size : Z) : St Z :=
  let needed := roundup requested_size ALIGNMENT in
  ptr <- get segment_start ;;
  fuel <- current_fuel ;;
  mymalloc_loop fuel needed ptr.

Definition myfree (ptr : Z) : St unit :=
  if negb (ptr =? 0) then
    let header := ptr - HEADER_LENGTH in
    h <- read header ;;
    write header (Z.lor h FREE)
  else ret tt.

Definition myrealloc (old_ptr new_size : Z) : St Z :=
  if old_ptr =? 0 then mymalloc new_size
  else
    old_size <- read (old_ptr - HEADER_LENGTH) ;;
    let needed := roundup new_size ALIGNMENT in
    if old_size >=? needed then
      when (wsub old_size needed >? HEADER_LENGTH)
        (let new_header := old_ptr + needed in
         write new_header
           (Z.lor (wsub (wsub old_size needed) HEADER_LENGTH) FREE)) ;;
      ret old_ptr
    else
      new_ptr <- mymalloc new_size ;;
      if new_ptr =? 0 then ret 0
      else
        memcpy new_ptr old_ptr old_size ;;
        myfree old_ptr ;;
        ret new_ptr.

Fixpoint validate_heap_loop (fuel : nat) (ptr : Z) : St (option Z) :=
  match fuel with
  | O => out_of_fuel
  | S fuel' =>
      e <- get segment_end ;;
      if ptr <? e then
        h <- read ptr ;;
        let curr_size := Z.land h (wnot FREE) in
        let curr_status := Z.land h FREE in
        if negb (curr_status =? FREE) && negb (curr_status =? USED)
        then ret None
        else validate_heap_loop fuel' (ptr + HEADER_LENGTH + curr_size)
      else ret (Some ptr)
  end.

Definition validate_heap : St bool :=
  start <- get segment_start ;;
  fuel <- current_fuel ;;
  r <- validate_heap_loop fuel start ;;
  match r with
  | None => ret false
  | Some ptr =>
      e <- get segment_end ;;
      if negb (ptr =? e) then ret false else ret true
  end.

Definition boot (m : memory) (lo hi : Z) : state :=
  Machine m lo hi (Globals 0 0).

End Implicit.

(* ================================================================= *)
(** ** The heap as a list of blocks *)

(** A block is its payload size and whether it is FREE. *)
Definition block : Type := (Z * bool)%type.

Definition bsize (b : block) : Z := fst b.
Definition bfree (b : block) : bool := snd b.

(** The header word of a block: [size | FREE] or [size | USED], for a size
    that is a multiple of 8. *)
Definition header_word (b : block) : Z :=
  if bfree b then bsize b + 7 else bsize b.

(** Bytes occupied by a run of blocks, headers included. *)
Fixpoint total (bl : list block) : Z :=
  match bl with
  | [] => 0
  | b :: bl' => 8 + bsize b + total bl'
  end.

(** The heap walk: the blocks [bl] are laid out from address [a]. *)
Fixpoint heap_at (m : memory) (a : Z) (bl : list block) : Prop :=
  match bl with
  | [] => True
  | b :: bl' => load64 m a = header_word b /\ heap_at m (a + 8 + bsize b) bl'
  end.

(** Addresses of the FREE blocks of the walk, in address order. *)
Fixpoint free_addrs (a : Z) (bl : list block) : list Z :=
  match bl with
  | [] => []
  | b :: bl' =>
      if bfree b then a :: free_addrs (a + 8 + bsize b) bl'
      else free_addrs (a + 8 + bsize b) bl'
  end.

(** [block_at a bl x b]: in the walk of [bl] from [a], block [b] sits at
    address [x]. *)
Definition block_at (a : Z) (bl : list block) (x : Z) (b : block) : Prop :=
  exists pre post, bl = pre ++ b :: post /\ x = a + total pre.

(** The doubly linked list threaded through [l]: each node's [prev] word
    (at offset 8) names its predecessor ([prev] for the first), each [next]
    word (offset 16) its successor ([nxt] for the last). *)
Fixpoint dll (m : memory) (prev : Z) (l : list Z) (nxt : Z) : Prop :=
  match l with
  | [] => True
  | x :: l' =>
      load64 m (x + 8) = prev /\ load64 m (x + 16) = hd nxt l' /\ dll m x l' nxt
  end.

(** Every block has a payload of at least 16 bytes, a multiple of 8. *)
Definition block_ok (b : block) : Prop := 16 <= bsize b /\ bsize b mod 8 = 0.

(** The segment and its bounds are the same in [s] and [s']. *)
Definition same_segment (s s' : Explicit.state) : Prop :=
  heap_lo s' = heap_lo s /\ heap_hi s' = heap_hi s
  /\ Explicit.segment_start (glob s') = Explicit.segment_start (glob s)
  /\ Explicit.segment_end (glob s') = Explicit.segment_end (glob s).

(** The free-list variables describe the list [l]. *)
Record flist (s : Explicit.state) (l : list Z) : Prop := {
  fl_links : dll (mem s) 0 l 0;
  fl_head : Explicit.list_head (glob s) = hd 0 l;
  fl_tail : Explicit.list_end (glob s) = last l 0;
  fl_num : Explicit.free_blocks_num (glob s) = Z.of_nat (length l)
}.

(** Memory and globals of [s] represent the block list [bl]: headers along
    the walk, the walk ends at [segment_end], and the free list is the list
    of FREE blocks in address order. *)
Record shape (s : Explicit.state) (bl : list block) : Prop := {
  shape_heap : heap_at (mem s) (Explicit.segment_start (glob s)) bl;
  shape_end :
    Explicit.segment_end (glob s) = Explicit.segment_start (glob s) + total bl;
  shape_flist : flist s (free_addrs (Explicit.segment_start (glob s)) bl)
}.

(** The heap invariant between public calls. *)
Record heap_inv (s : Explicit.state) (bl : list block) : Prop := {
  inv_shape : shape s bl;
  inv_start : 0 < Explicit.segment_start (glob s);
  inv_bound : Explicit.segment_end (glob s) < two64;
  inv_lo : heap_lo s = Explicit.segment_start (glob s);
  inv_hi : heap_hi s = Explicit.segment_end (glob s);
  inv_blocks : Forall block_ok bl
}.

(** Bytes of [m] and [m'] agree outside the intervals [[lo, hi)] of [R]. *)
Definition same_outside (m m' : memory) (R : list (Z * Z)) : Prop :=
  forall x, (forall lo hi, In (lo, hi) R -> x < lo \/ hi <= x) -> m' x = m x.

(** The bytes [[lo, hi)] are the same in [m] and [m']. *)
Definition untouched (m m' : memory) (lo hi : Z) : Prop :=
  forall x, lo <= x < hi -> m' x = m x.

(** The two link words of each node of [l]. *)
Definition link_ranges (l : list Z) : list (Z * Z) :=
  map (fun y => (y + 8, y + 24)) l.

(** [l] is ascending inside [[lo, hi]], each node 24 bytes before the
    next one (and before [hi]). *)
Fixpoint chain (lo : Z) (l : list Z) (hi : Z) : Prop :=
  match l with
  | [] => lo <= hi
  | x :: l' => lo <= x /\ chain (x + 24) l' hi
  end.

(** Extents of the FREE blocks of a walk. *)
Fixpoint free_extents (a : Z) (bl : list block) : list (Z * Z) :=
  match bl with
  | [] => []
  | b :: bl' =>
      if bfree b then (a, a + 8 + bsize b) :: free_extents (a + 8 + bsize b) bl'
      else free_extents (a + 8 + bsize b) bl'
  end.

(** No two blocks adjacent in the walk are both FREE. *)
Fixpoint no_adj_free (bl : list block) : Prop :=
  match bl with
  | [] => True
  | b :: bl' =>
      match bl' with
      | [] => True
      | b' :: _ => ~ (bfree b = true /\ bfree b' = true)
      end /\ no_adj_free bl'
  end.

(** The state has the blocks [pre] from [segment_start], then a gap up to
    [hi] whose bytes are unconstrained and which holds no free-list node,
    then the blocks [post] up to [segment_end]. *)
Record hole (s : Explicit.state) (pre post : list block) (hi : Z) : Prop := {
  hole_pre : heap_at (mem s) (Explicit.segment_start (glob s)) pre;
  hole_post : heap_at (mem s) hi post;
  hole_end : Explicit.segment_end (glob s) = hi + total post;
  hole_flist :
    flist s (free_addrs (Explicit.segment_start (glob s)) pre
             ++ free_addrs hi post);
  hole_start : 0 < Explicit.segment_start (glob s);
  hole_bound : Explicit.segment_end (glob s) < two64;
  hole_lo : heap_lo s = Explicit.segment_start (glob s);
  hole_hi : heap_hi s = Explicit.segment_end (glob s);
  hole_ok_pre : Forall block_ok pre;
  hole_ok_post : Forall block_ok post;
  hole_size : Explicit.segment_start (glob s) + total pre <= hi
}.

(** The statements by which [mymalloc] (when it splits) and [myfree] (when
    it coalesces) put node [x'] in the free-list position of node [x]. *)
Definition replace_node (x x' : Z) : Explicit.St unit :=
  prev <- Explicit.get_prev_free_block x ;;
  next <- Explicit.get_next_free_block x ;;
  when (negb (prev =? 0)) (write (Explicit.get_curr_next prev) x') ;;
  when (negb (next =? 0)) (write (Explicit.get_curr_prev next) x') ;;
  write (Explicit.get_curr_prev x') prev ;;
  write (Explicit.get_curr_next x') next ;;
  head <- get Explicit.list_head ;;
  when (x =? head) (modify (Explicit.set_list_head x')) ;;
  tail <- get Explicit.list_end ;;
  when (x =? tail) (modify (Explicit.set_list_end x')).

(** All blocks of [bl] are USED. *)
Definition all_used (bl : list block) : Prop :=
  Forall (fun b => bfree b = false) bl.

(** [bl] does not begin with a FREE block. *)
Definition starts_used (bl : list block) : Prop :=
  match bl with
  | [] => True
  | b :: _ => bfree b = false
  end.

(** No FREE block of [bl] has a payload of [needed] bytes. *)
Definition too_small (needed : Z) (bl : list block) : Prop :=
  Forall (fun b => bfree b = true -> bsize b < needed) bl.

(** What a FREE block of payload [sz] becomes when [needed] bytes are placed
    in it: split when the leftover can hold a header and a minimum block. *)
Definition placed (needed sz : Z) : list block :=
  if sz - needed <? 24 then [(sz, false)]
  else [(needed, false); (sz - needed - 8, true)].

(** What freeing a USED block of payload [sz] leaves in place of it and of
    the blocks [post] to its right: one block merged with a FREE right
    neighbour, or the block marked FREE. *)
Definition freed (sz : Z) (post : list block) : list block :=
  match post with
  | (rs, true) :: post' => (sz + 8 + rs, true) :: post'
  | _ => (sz, true) :: post
  end.

(** The status [myfree] and [myrealloc] find to the right of a block when
    the blocks [post] follow it. *)
Definition status_val (post : list block) : Z :=
  match post with
  | [] => Explicit.NON_EXISTENT
  | b :: _ => if bfree b then Explicit.FREE else Explicit.USED
  end.

(** All blocks of [bl] are FREE. *)
Definition all_free (bl : list block) : Prop :=
  Forall (fun b => bfree b = true) bl.

(** The blocks of [bl], marked USED. *)
Definition mark_used (bl : list block) : list block :=
  map (fun b => (bsize b, false)) bl.

(** [myrealloc] after its absorption loop has produced [curr_size]. *)
Definition realloc_finish (old_ptr new_size old_size curr_size : Z)
  : Explicit.St Z :=
  let needed := Explicit.roundup new_size ALIGNMENT in
  let curr := old_ptr - Explicit.HEADER_LENGTH in
  if curr_size >=? needed then
    (if wsub curr_size needed
        <? wadd Explicit.HEADER_LENGTH Explicit.MIN_BLOCK_SIZE then
       write curr (Z.land curr_size (wnot Explicit.FREE))
     else
       write curr (Z.land needed (wnot Explicit.FREE)) ;;
       let new_pointer := curr + Explicit.HEADER_LENGTH + needed in
       write new_pointer
         (Z.lor (wsub (wsub curr_size needed) Explicit.HEADER_LENGTH)
            Explicit.FREE) ;;
       Explicit.insert_block_into_freelist new_pointer) ;;
    ret old_ptr
  else
    new_ptr <- Explicit.mymalloc new_size ;;
    Explicit.myrealloc_move new_ptr old_ptr old_size curr curr_size.

(** The state [myrealloc] reaches after absorbing the FREE blocks [fs] that
    follow the block of payload [sz] at the end of [pre]. *)
Record absorbed (s : Explicit.state) (pre : list block) (sz : Z)
  (fs post : list block) : Prop := {
  abs_hole :
    hole s pre post
      (Explicit.segment_start (glob s) + total pre + 8 + sz + total fs);
  abs_header :
    load64 (mem s) (Explicit.segment_start (glob s) + total pre) = sz;
  abs_marked :
    heap_at (mem s) (Explicit.segment_start (glob s) + total pre + 8 + sz)
      (mark_used fs);
  abs_ok : block_ok (sz, false);
  abs_ok_fs : Forall block_ok fs;
  abs_used : starts_used post
}.

(* ================================================================= *)
(** ** Heap walks and call sequences *)

(** The blocks met by stepping from header to header from [a] up to [e],
    the way [traverse_heap] does: payload size [h & ~FREE], FREE when
    [h & FREE] is [FREE]. *)
Fixpoint walk (fuel : nat) (m : memory) (a e : Z) : list block :=
  match fuel with
  | O => []
  | S fuel' =>
      if a <? e then
        let h := load64 m a in
        let sz := Z.land h (wnot Explicit.FREE) in
        (sz, Z.land h Explicit.FREE =? Explicit.FREE)
          :: walk fuel' m (a + Explicit.HEADER_LENGTH + sz) e
      else []
  end.

Definition blocks (s : Explicit.state) : list block :=
  walk (Explicit.heap_fuel s) (mem s)
    (Explicit.segment_start (glob s)) (Explicit.segment_end (glob s)).

(** [p] is the payload address of a USED block of [sz] bytes; [pre] are the
    blocks before it in the walk. *)
Definition live_after (s : Explicit.state) (pre : list block) (p sz : Z)
  : Prop :=
  exists post,
    blocks s = pre ++ (sz, false) :: post
    /\ p = Explicit.segment_start (glob s) + total pre + Explicit.HEADER_LENGTH.

Definition live (s : Explicit.state) (p sz : Z) : Prop :=
  exists pre, live_after s pre p sz.

(** [bl] does not end with a FREE block. *)
Definition ends_used (bl : list block) : Prop := starts_used (rev bl).

(** [p] is live and the block before it, if there is one, is not FREE. *)
Definition live_left_used (s : Explicit.state) (p sz : Z) : Prop :=
  exists pre, live_after s pre p sz /\ ends_used pre.

(** The caller stores byte [v] at address [x]. *)
Definition poke (x v : Z) (s : Explicit.state) : Explicit.state :=
  Machine (fun y => if y =? x then v else mem s y)
    (heap_lo s) (heap_hi s) (glob s).

(** One step of a client that respects the interface: a request of at most
    [2^64 - 8] bytes that returns, a release or a resize of a live block, a
    store into a live payload.  [usable] is the condition on the blocks that
    are released, by [myfree] or by a [myrealloc] that moves the block. *)
Inductive call (usable : Explicit.state -> Z -> Z -> Prop)
  : Explicit.state -> Explicit.state -> Prop :=
| call_malloc s r p s' :
    0 <= r <= two64 - 8 ->
    Explicit.mymalloc r s = Ok p s' ->
    call usable s s'
| call_free s p sz s' :
    usable s p sz ->
    Explicit.myfree p s = Ok tt s' ->
    call usable s s'
| call_realloc s p sz r q s' :
    live s p sz -> (q <> p -> usable s p sz) ->
    0 <= r <= two64 - 8 ->
    Explicit.myrealloc p r s = Ok q s' ->
    call usable s s'
| call_store s p sz x v :
    live s p sz -> p <= x < p + sz ->
    call usable s (poke x v s).

(** States between public calls: after a successful [myinit] on a segment
    of a multiple of 8 bytes, and any number of client steps. *)
Inductive reach (usable : Explicit.state -> Z -> Z -> Prop)
  : Explicit.state -> Prop :=
| reach_init s0 start size s :
    0 < start -> size mod 8 = 0 -> start + size < two64 ->
    heap_lo s0 = start -> heap_hi s0 = start + size ->
    Explicit.myinit start size s0 = Ok true s ->
    reach usable s
| reach_call s s' :
    reach usable s -> call usable s s' -> reach usable s'.

(** What a call returned, if it returned. *)
Definition returned {G A} (r : result G A) : option A :=
  match r with
  | Ok a _ => Some a
  | _ => None
  end.

(** The state a call left, also when it faulted. *)
Definition final {G A} (r : result G A) : option (machine G) :=
  match r with
  | Ok _ s => Some s
  | Fault s => Some s
  | OutOfFuel => None
  end.

(** The call stopped at an access outside the segment or at the null
    address. *)
Definition faulted {G A} (r : result G A) : bool :=
  match r with
  | Fault _ => true
  | _ => false
  end.

(** A segment of [size] zero bytes at [start], before [myinit]. *)
Definition zeroed (start size : Z) : Explicit.state :=
  Explicit.boot (fun _ => 0) start (start + size).

(** The state a call leaves ([s] itself if it ran out of fuel). *)
Definition after {G A} (c : M G A) (s : machine G) : machine G :=
  match final (c s) with
  | Some s' => s'
  | None => s
  end.

(* ================================================================= *)
(** ** Sample heaps of the explicit allocator *)

Module Sample.

(** [myinit(4096, 1024)] on zeroed memory. *)
Definition fresh : Explicit.state :=
  after (Explicit.myinit 4096 1024) (zeroed 4096 1024).

(** Then [mymalloc(24)], which returns 4104. *)
Definition one24 : Explicit.state := after (Explicit.mymalloc 24) fresh.

(** [mymalloc(984)] on the fresh heap. *)
Definition took984 : Explicit.state := after (Explicit.mymalloc 984) fresh.

(** [mymalloc(1016)] on the fresh heap: no FREE block is left. *)
Definition packed : Explicit.state := after (Explicit.mymalloc 1016) fresh.

(** Two and three blocks of 16 bytes, at 4104, 4128 and 4152. *)
Definition two16 : Explicit.state :=
  after (Explicit.mymalloc 16) (after (Explicit.mymalloc 16) fresh).
Definition three16 : Explicit.state := after (Explicit.mymalloc 16) two16.

(** The first of two blocks released, then the second. *)
Definition freed_first : Explicit.state := after (Explicit.myfree 4104) two16.
Definition freed_both : Explicit.state :=
  after (Explicit.myfree 4128) freed_first.

(** The middle one of three blocks released. *)
Definition freed_middle : Explicit.state :=
  after (Explicit.myfree 4128) three16.


End Sample.

(* ================================================================= *)
(** ** The implicit variant *)

(** In the implicit variant a payload has at least 8 bytes. *)
Definition iblock_ok (b : block) : Prop := 8 <= bsize b /\ bsize b mod 8 = 0.

(** The headers of the implicit heap of [s] are those of [bl]. *)
Record iheap (s : Implicit.state) (bl : list block) : Prop := {
  ih_heap : heap_at (mem s) (Implicit.segment_start (glob s)) bl;
  ih_end :
    Implicit.segment_end (glob s) = Implicit.segment_start (glob s) + total bl;
  ih_start : 0 < Implicit.segment_start (glob s);
  ih_bound : Implicit.segment_end (glob s) < two64;
  ih_lo : heap_lo s = Implicit.segment_start (glob s);
  ih_hi : heap_hi s = Implicit.segment_end (glob s);
  ih_blocks : Forall iblock_ok bl
}.

Module ISample.

(** A segment of [size] zero bytes at [start], before [myinit]. *)
Definition zeroed (start size : Z) : Implicit.state :=
  Implicit.boot (fun _ => 0) start (start + size).

(** [myinit(4096, 1024)], then [mymalloc(200)], which returns 4104. *)
Definition fresh : Implicit.state :=
  after (Implicit.myinit 4096 1024) (zeroed 4096 1024).
Definition one200 : Implicit.state := after (Implicit.mymalloc 200) fresh.

End ISample.

(** The blocks of the implicit heap, met the same way. *)
Definition iblocks (s : Implicit.state) : list block :=
  walk (Implicit.heap_fuel s) (mem s)
    (Implicit.segment_start (glob s)) (Implicit.segment_end (glob s)).

(* ================================================================= *)
(** ** Further notions *)

(** What a FREE block of payload [sz] becomes when the implicit [mymalloc]
    places [needed] bytes in it: split when more than a header is left. *)
Definition iplaced (needed sz : Z) : list block :=
  if sz - needed <=? 8 then [(sz, false)]
  else [(needed, false); (sz - needed - 8, true)].

(** The number of FREE blocks of a walk. *)
Definition nfree (bl : list block) : Z :=
  Z.of_nat (length (filter bfree bl)).

(* ================================================================= *)
(** ** Words and bytes *)

Lemma two64_eq : two64 = 18446744073709551616.
Proof. reflexivity. Qed.

Ltac w64 := rewrite ?two64_eq in *.

Lemma wrap_small (x : Z) : 0 <= x < two64 -> wrap x = x.
Proof. intros H. unfold wrap. apply Z.mod_small. exact H. Qed.

Lemma wrap_range (x : Z) : 0 <= wrap x < two64.
Proof. unfold wrap. apply Z.mod_pos_bound. reflexivity. Qed.

Lemma wadd_small (x y : Z) : 0 <= x + y < two64 -> wadd x y = x + y.
Proof. apply wrap_small. Qed.

Lemma wsub_small (x y : Z) : 0 <= x - y < two64 -> wsub x y = x - y.
Proof. apply wrap_small. Qed.

Lemma wnot_7 : wnot 7 = two64 - 8.
Proof. reflexivity. Qed.

Lemma land_7 (x : Z) : Z.land x 7 = x mod 8.
Proof. change 7 with (Z.ones 3). rewrite Z.land_ones by lia. reflexivity. Qed.

Lemma land_not7 (x : Z) :
  0 <= x < two64 -> Z.land x (two64 - 8) = x - x mod 8.
Proof.
  intros Hx.
  pose proof (Z.add_lor_land (Z.land x (two64 - 8)) (Z.land x 7)) as H.
  rewrite <- Z.land_lor_distr_r in H.
  replace (Z.land (Z.land x (two64 - 8)) (Z.land x 7)) with 0 in H.
  - change (Z.lor (two64 - 8) 7) with (Z.ones 64) in H.
    rewrite Z.land_ones in H by lia.
    rewrite land_7 in H. change (2 ^ 64) with two64 in H.
    rewrite Z.mod_small in H by exact Hx. lia.
  - rewrite (Z.land_comm x 7), Z.land_assoc, <- (Z.land_assoc x).
    change (Z.land (two64 - 8) 7) with 0. now rewrite Z.land_0_r, Z.land_0_l.
Qed.

Lemma lor_7 (x : Z) : Z.lor x 7 = x - x mod 8 + 7.
Proof.
  pose proof (Z.add_lor_land x 7) as H. rewrite land_7 in H. lia.
Qed.

Lemma bytes_sum (v : Z) :
  v mod 2 ^ 64 =
  byte_of v 0 + 2 ^ 8 * byte_of v 1 + 2 ^ 16 * byte_of v 2
  + 2 ^ 24 * byte_of v 3 + 2 ^ 32 * byte_of v 4 + 2 ^ 40 * byte_of v 5
  + 2 ^ 48 * byte_of v 6 + 2 ^ 56 * byte_of v 7.
Proof.
  unfold byte_of.
  change (2 ^ 64) with (256 * (256 * (256 * (256 * (256 * (256 * (256 * 256))))))).
  rewrite !Z.rem_mul_r by lia.
  rewrite !Z.div_div by lia.
  change (8 * 0) with 0. rewrite Z.pow_0_r, Z.div_1_r.
  simpl (8 * _). simpl (256 * 256). simpl (_ * 256).
  change (2 ^ 8) with 256. change (2 ^ 16) with 65536.
  change (2 ^ 24) with 16777216.
  change (2 ^ 32) with 4294967296.
  change (2 ^ 40) with 1099511627776.
  change (2 ^ 48) with 281474976710656.
  change (2 ^ 56) with 72057594037927936.
  lia.
Qed.

Lemma byte_of_range (v i : Z) : 0 <= byte_of v i < 256.
Proof. unfold byte_of. apply Z.mod_pos_bound. lia. Qed.

Lemma load8_range (m : memory) (a : Z) : 0 <= load8 m a < 256.
Proof. unfold load8. apply Z.mod_pos_bound. lia. Qed.

Lemma load64_range (m : memory) (a : Z) : 0 <= load64 m a < two64.
Proof.
  unfold load64. rewrite two64_eq.
  pose proof (load8_range m a). pose proof (load8_range m (a + 1)).
  pose proof (load8_range m (a + 2)). pose proof (load8_range m (a + 3)).
  pose proof (load8_range m (a + 4)). pose proof (load8_range m (a + 5)).
  pose proof (load8_range m (a + 6)). pose proof (load8_range m (a + 7)).
  lia.
Qed.

Lemma store64_in (m : memory) (a v i : Z) :
  0 <= i < 8 -> store64 m a v (a + i) = byte_of v i.
Proof.
  intros H. unfold store64.
  replace ((a <=? a + i) && (a + i <? a + 8)) with true.
  - f_equal. lia.
  - symmetry. apply andb_true_iff. split; [apply Z.leb_le | apply Z.ltb_lt]; lia.
Qed.

Lemma store64_out (m : memory) (a v x : Z) :
  x < a \/ a + 8 <= x -> store64 m a v x = m x.
Proof.
  intros H. unfold store64.
  destruct (Z.leb_spec a x); destruct (Z.ltb_spec x (a + 8)); simpl;
    try reflexivity; lia.
Qed.

Lemma load64_ext (m m' : memory) (a : Z) :
  (forall i, 0 <= i < 8 -> m' (a + i) = m (a + i)) ->
  load64 m' a = load64 m a.
Proof.
  intros H. unfold load64, load8.
  rewrite <- (Z.add_0_r a) at 1 9.
  rewrite !H by lia. rewrite Z.add_0_r. reflexivity.
Qed.

Lemma load64_store64_same (m : memory) (a v : Z) :
  0 <= v < two64 -> load64 (store64 m a v) a = v.
Proof.
  intros Hv. unfold load64, load8.
  rewrite <- (Z.add_0_r a) at 2.
  rewrite !store64_in by lia.
  rewrite !Z.mod_small by apply byte_of_range.
  rewrite <- bytes_sum. apply Z.mod_small. exact Hv.
Qed.

Lemma load64_store64_other (m : memory) (a v x : Z) :
  x + 8 <= a \/ a + 8 <= x -> load64 (store64 m a v) x = load64 m x.
Proof.
  intros H. apply load64_ext. intros i Hi. apply store64_out. lia.
Qed.

Lemma copy_bytes_in (m : memory) (dst src n i : Z) :
  0 <= i < n -> copy_bytes m dst src n (dst + i) = m (src + i).
Proof.
  intros H. unfold copy_bytes.
  destruct (Z.leb_spec dst (dst + i)); destruct (Z.ltb_spec (dst + i) (dst + n));
    simpl; try lia.
  f_equal. lia.
Qed.

Lemma copy_bytes_out (m : memory) (dst src n x : Z) :
  x < dst \/ dst + n <= x -> copy_bytes m dst src n x = m x.
Proof.
  intros H. unfold copy_bytes.
  destruct (Z.leb_spec dst x); destruct (Z.ltb_spec x (dst + n)); simpl;
    try reflexivity; lia.
Qed.

(* ================================================================= *)
(** ** Frames *)

Lemma same_outside_refl (m : memory) (R : list (Z * Z)) : same_outside m m R.
Proof. intros x _. reflexivity. Qed.

Lemma same_outside_trans (m1 m2 m3 : memory) (R1 R2 : list (Z * Z)) :
  same_outside m1 m2 R1 -> same_outside m2 m3 R2 ->
  same_outside m1 m3 (R1 ++ R2).
Proof.
  intros H1 H2 x Hx. rewrite H2, H1; try reflexivity.
  - intros lo hi Hin. apply Hx. apply in_or_app. now left.
  - intros lo hi Hin. apply Hx. apply in_or_app. now right.
Qed.

Lemma same_outside_weaken (m m' : memory) (R R' : list (Z * Z)) :
  same_outside m m' R ->
  (forall lo hi, In (lo, hi) R ->
     exists lo' hi', In (lo', hi') R' /\ lo' <= lo /\ hi <= hi') ->
  same_outside m m' R'.
Proof.
  intros H Hc x Hx. apply H. intros lo hi Hin.
  destruct (Hc lo hi Hin) as (lo' & hi' & Hin' & Hlo & Hhi).
  specialize (Hx lo' hi' Hin'). lia.
Qed.

Lemma same_outside_store (m : memory) (a v : Z) :
  same_outside m (store64 m a v) [(a, a + 8)].
Proof.
  intros x Hx. apply store64_out. apply (Hx a (a + 8)). now left.
Qed.

Lemma same_outside_load (m m' : memory) (R : list (Z * Z)) (x : Z) :
  same_outside m m' R ->
  (forall lo hi, In (lo, hi) R -> x + 8 <= lo \/ hi <= x) ->
  load64 m' x = load64 m x.
Proof.
  intros H Hx. apply load64_ext. intros i Hi. apply H.
  intros lo hi Hin. specialize (Hx lo hi Hin). lia.
Qed.

Lemma same_outside_untouched (m m' : memory) (R : list (Z * Z)) (lo hi : Z) :
  same_outside m m' R ->
  (forall l h, In (l, h) R -> hi <= l \/ h <= lo) ->
  untouched m m' lo hi.
Proof.
  intros H Hd x Hx. apply H. intros l h Hin. specialize (Hd l h Hin). lia.
Qed.

(* ================================================================= *)
(** ** Running monadic code *)

Lemma bind_ok {G A B} (c : M G A) (k : A -> M G B) (s s' : machine G) (a : A) :
  c s = Ok a s' -> bind c k s = k a s'.
Proof. intros H. unfold bind. now rewrite H. Qed.

Lemma bind_fault {G A B} (c : M G A) (k : A -> M G B) (s s' : machine G) :
  c s = Fault s' -> bind c k s = Fault s'.
Proof. intros H. unfold bind. now rewrite H. Qed.

Lemma accessible_true {G} (s : machine G) (a n : Z) :
  0 < a /\ heap_lo s <= a /\ a + n <= heap_hi s -> accessible s a n = true.
Proof.
  intros H. unfold accessible.
  rewrite (proj2 (Z.eqb_neq a 0)) by lia.
  rewrite (proj2 (Z.leb_le _ _)) by lia.
  rewrite (proj2 (Z.leb_le _ _)) by lia. reflexivity.
Qed.

Lemma accessible_null {G} (s : machine G) (n : Z) : accessible s 0 n = false.
Proof. reflexivity. Qed.

Lemma read_ok {G} (a : Z) (s : machine G) :
  0 < a /\ heap_lo s <= a /\ a + 8 <= heap_hi s ->
  read a s = Ok (load64 (mem s) a) s.
Proof. intros H. unfold read. now rewrite accessible_true. Qed.

Lemma write_ok {G} (a v : Z) (s : machine G) :
  0 < a /\ heap_lo s <= a /\ a + 8 <= heap_hi s ->
  write a v s
  = Ok tt (Machine (store64 (mem s) a v) (heap_lo s) (heap_hi s) (glob s)).
Proof. intros H. unfold write. now rewrite accessible_true. Qed.

Lemma bind_read {G B} (a : Z) (k : Z -> M G B) (s : machine G) :
  0 < a /\ heap_lo s <= a /\ a + 8 <= heap_hi s ->
  bind (read a) k s = k (load64 (mem s) a) s.
Proof. intros H. apply bind_ok. now apply read_ok. Qed.

Lemma bind_write {G B} (a v : Z) (k : unit -> M G B) (s : machine G) :
  0 < a /\ heap_lo s <= a /\ a + 8 <= heap_hi s ->
  bind (write a v) k s
  = k tt (Machine (store64 (mem s) a v) (heap_lo s) (heap_hi s) (glob s)).
Proof. intros H. apply bind_ok. now apply write_ok. Qed.

Lemma bind_get {G A B} (f : G -> A) (k : A -> M G B) (s : machine G) :
  bind (get f) k s = k (f (glob s)) s.
Proof. reflexivity. Qed.

Lemma bind_modify {G B} (f : G -> G) (k : unit -> M G B) (s : machine G) :
  bind (modify f) k s
  = k tt (Machine (mem s) (heap_lo s) (heap_hi s) (f (glob s))).
Proof. reflexivity. Qed.

Lemma bind_ret {G A B} (a : A) (k : A -> M G B) (s : machine G) :
  bind (ret a) k s = k a s.
Proof. reflexivity. Qed.

Lemma bind_assoc {G A B C} (c : M G A) (k1 : A -> M G B) (k2 : B -> M G C)
  (s : machine G) :
  bind (bind c k1) k2 s = bind c (fun x => bind (k1 x) k2) s.
Proof. unfold bind. destruct (c s); reflexivity. Qed.

Lemma add_8_8 (x : Z) : x + 8 + 8 = x + 16.
Proof. lia. Qed.

Lemma memcpy_ok {G} (dst src n : Z) (s : machine G) :
  0 < dst /\ heap_lo s <= dst /\ dst + n <= heap_hi s ->
  0 < src /\ heap_lo s <= src /\ src + n <= heap_hi s ->
  memcpy dst src n s
  = Ok tt (Machine (copy_bytes (mem s) dst src n) (heap_lo s) (heap_hi s)
             (glob s)).
Proof.
  intros H1 H2. unfold memcpy. now rewrite !accessible_true.
Qed.

Lemma same_outside_copy (m : memory) (dst src n : Z) :
  same_outside m (copy_bytes m dst src n) [(dst, dst + n)].
Proof.
  intros x Hx. apply copy_bytes_out. apply (Hx dst (dst + n)). now left.
Qed.

#[local] Arguments Z.add _ _ : simpl never.
#[local] Arguments Z.sub _ _ : simpl never.
#[local] Arguments Z.mul _ _ : simpl never.

(* ================================================================= *)
(** ** Block lists *)

Lemma total_app (l1 l2 : list block) : total (l1 ++ l2) = total l1 + total l2.
Proof. induction l1 as [|b l1 IH]; simpl; lia. Qed.

Lemma total_nonneg (bl : list block) : Forall block_ok bl -> 0 <= total bl.
Proof.
  induction 1 as [|b bl [Hb _] _ IH]; simpl; lia.
Qed.

Lemma total_length (bl : list block) :
  Forall block_ok bl -> 24 * Z.of_nat (length bl) <= total bl.
Proof.
  induction 1 as [|b bl [Hb _] _ IH]; simpl length; simpl total; lia.
Qed.

Lemma heap_at_app (m : memory) (a : Z) (l1 l2 : list block) :
  heap_at m a (l1 ++ l2) <-> heap_at m a l1 /\ heap_at m (a + total l1) l2.
Proof.
  revert a. induction l1 as [|b l1 IH]; intros a; simpl.
  - rewrite Z.add_0_r. tauto.
  - rewrite IH. replace (a + 8 + bsize b + total l1)
      with (a + (8 + bsize b + total l1)) by lia. tauto.
Qed.

Lemma free_addrs_app (a : Z) (l1 l2 : list block) :
  free_addrs a (l1 ++ l2) = free_addrs a l1 ++ free_addrs (a + total l1) l2.
Proof.
  revert a. induction l1 as [|b l1 IH]; intros a; simpl.
  - now rewrite Z.add_0_r.
  - rewrite IH. replace (a + 8 + bsize b + total l1)
      with (a + (8 + bsize b + total l1)) by lia.
    destruct (bfree b); reflexivity.
Qed.

Lemma free_extents_app (a : Z) (l1 l2 : list block) :
  free_extents a (l1 ++ l2)
  = free_extents a l1 ++ free_extents (a + total l1) l2.
Proof.
  revert a. induction l1 as [|b l1 IH]; intros a; simpl.
  - now rewrite Z.add_0_r.
  - rewrite IH. replace (a + 8 + bsize b + total l1)
      with (a + (8 + bsize b + total l1)) by lia.
    destruct (bfree b); reflexivity.
Qed.

Lemma free_addrs_length (a : Z) (bl : list block) :
  (length (free_addrs a bl) <= length bl)%nat.
Proof.
  revert a. induction bl as [|b bl IH]; intros a; simpl; [lia|].
  specialize (IH (a + 8 + bsize b)). destruct (bfree b); simpl; lia.
Qed.

Lemma Forall_app_l {A} (P : A -> Prop) (l1 l2 : list A) :
  Forall P (l1 ++ l2) -> Forall P l1.
Proof. intros H. apply Forall_app in H. tauto. Qed.

Lemma Forall_app_r {A} (P : A -> Prop) (l1 l2 : list A) :
  Forall P (l1 ++ l2) -> Forall P l2.
Proof. intros H. apply Forall_app in H. tauto. Qed.

(** *** Blocks and their addresses *)

Lemma block_at_bounds (a : Z) (bl : list block) (x : Z) (b : block) :
  Forall block_ok bl -> block_at a bl x b ->
  a <= x /\ x + 8 + bsize b <= a + total bl /\ block_ok b.
Proof.
  intros Hok (pre & post & -> & ->).
  pose proof (total_nonneg _ (Forall_app_l _ _ _ Hok)) as H1.
  pose proof (Forall_app_r _ _ _ Hok) as H2.
  pose proof (total_nonneg _ H2) as H3.
  inversion H2 as [|? ? Hb Hpost]; subst.
  pose proof (total_nonneg _ Hpost).
  rewrite total_app. simpl in *. repeat split; try lia; apply Hb.
Qed.

Lemma block_at_here (a : Z) (b : block) (bl : list block) :
  block_at a (b :: bl) a b.
Proof. exists [], bl. simpl. split; [reflexivity | lia]. Qed.

Lemma block_at_cons (a : Z) (b b' : block) (bl : list block) (x : Z) :
  block_at (a + 8 + bsize b) bl x b' -> block_at a (b :: bl) x b'.
Proof.
  intros (pre & post & -> & ->). exists (b :: pre), post. simpl.
  split; [reflexivity | lia].
Qed.

Lemma block_at_inv (a : Z) (b b' : block) (bl : list block) (x : Z) :
  block_at a (b :: bl) x b' ->
  (x = a /\ b' = b) \/ block_at (a + 8 + bsize b) bl x b'.
Proof.
  intros (pre & post & Heq & ->). destruct pre as [|p pre]; simpl in *.
  - inversion Heq; subst. left. split; [lia | reflexivity].
  - inversion Heq; subst. right. exists pre, post.
    split; [reflexivity | lia].
Qed.

Lemma block_at_app_l (a : Z) (l1 l2 : list block) (x : Z) (b : block) :
  block_at a l1 x b -> block_at a (l1 ++ l2) x b.
Proof.
  intros (pre & post & -> & ->). exists pre, (post ++ l2).
  now rewrite <- app_assoc.
Qed.

Lemma block_at_app_r (a : Z) (l1 l2 : list block) (x : Z) (b : block) :
  block_at (a + total l1) l2 x b -> block_at a (l1 ++ l2) x b.
Proof.
  intros (pre & post & -> & ->). exists (l1 ++ pre), post.
  rewrite <- app_assoc, total_app. split; [reflexivity | lia].
Qed.

Lemma block_at_app_inv (a : Z) (l1 l2 : list block) (x : Z) (b : block) :
  block_at a (l1 ++ l2) x b ->
  block_at a l1 x b \/ block_at (a + total l1) l2 x b.
Proof.
  revert a. induction l1 as [|c l1 IH]; intros a H; simpl in *.
  - right. now rewrite Z.add_0_r.
  - apply block_at_inv in H. destruct H as [[-> ->] | H].
    + left. apply block_at_here.
    + apply IH in H. destruct H as [H | H].
      * left. now apply block_at_cons.
      * right. replace (a + (8 + bsize c + total l1))
          with (a + 8 + bsize c + total l1) by lia. exact H.
Qed.

(** Distinct blocks of a walk have disjoint extents. *)
Lemma block_at_disjoint (a : Z) (bl : list block) (x y : Z) (bx by_ : block) :
  Forall block_ok bl ->
  block_at a bl x bx -> block_at a bl y by_ ->
  (x = y /\ bx = by_) \/ x + 8 + bsize bx <= y \/ y + 8 + bsize by_ <= x.
Proof.
  revert a. induction bl as [|c bl IH]; intros a Hok Hx Hy.
  - destruct Hx as (pre & post & Heq & _). now destruct pre.
  - inversion Hok as [|? ? Hc Hbl]; subst.
    apply block_at_inv in Hx. apply block_at_inv in Hy.
    destruct Hx as [[-> ->] | Hx]; destruct Hy as [[-> ->] | Hy].
    + left. split; reflexivity.
    + pose proof (block_at_bounds _ _ _ _ Hbl Hy). right. left. lia.
    + pose proof (block_at_bounds _ _ _ _ Hbl Hx). right. right. lia.
    + exact (IH _ Hbl Hx Hy).
Qed.

Lemma heap_at_load (m : memory) (a : Z) (bl : list block) (x : Z) (b : block) :
  heap_at m a bl -> block_at a bl x b -> load64 m x = header_word b.
Proof.
  intros H (pre & post & -> & ->). apply heap_at_app in H.
  destruct H as [_ [H _]]. exact H.
Qed.

Lemma heap_at_frame (m m' : memory) (a : Z) (bl : list block) :
  heap_at m a bl ->
  (forall x b, block_at a bl x b -> load64 m' x = load64 m x) ->
  heap_at m' a bl.
Proof.
  revert a. induction bl as [|c bl IH]; intros a H Hf; simpl in *; [exact I|].
  destruct H as [H1 H2]. split.
  - rewrite (Hf a c); [exact H1 | apply block_at_here].
  - apply IH; [exact H2|]. intros x b Hx. apply (Hf x b). now apply block_at_cons.
Qed.

Lemma free_addrs_In (a : Z) (bl : list block) (y : Z) :
  In y (free_addrs a bl) <-> exists sz, block_at a bl y (sz, true).
Proof.
  revert a. induction bl as [|c bl IH]; intros a; simpl.
  - split; [tauto|]. intros (sz & pre & post & Heq & _). now destruct pre.
  - destruct c as [csz [|]]; simpl.
    + split.
      * intros [<- | H].
        -- exists csz. apply block_at_here.
        -- apply IH in H. destruct H as (sz & H). exists sz.
           now apply (block_at_cons a (csz, true)).
      * intros (sz & H). apply block_at_inv in H.
        destruct H as [[-> _] | H]; [now left|].
        right. apply IH. now exists sz.
    + split.
      * intros H. apply IH in H. destruct H as (sz & H). exists sz.
        now apply (block_at_cons a (csz, false)).
      * intros (sz & H). apply block_at_inv in H.
        destruct H as [[_ Heq] | H]; [discriminate|].
        apply IH. now exists sz.
Qed.

Lemma free_addrs_bounds (a : Z) (bl : list block) (y : Z) :
  Forall block_ok bl -> In y (free_addrs a bl) ->
  a <= y /\ y + 24 <= a + total bl.
Proof.
  intros Hok Hin. apply free_addrs_In in Hin. destruct Hin as (sz & H).
  destruct (block_at_bounds _ _ _ _ Hok H) as (H1 & H2 & H3 & _).
  unfold bsize in *. simpl in *. lia.
Qed.

(** Two nodes of the free list are the same or 24 bytes apart. *)
Lemma free_addrs_sep (a : Z) (bl : list block) (x y : Z) :
  Forall block_ok bl ->
  In x (free_addrs a bl) -> In y (free_addrs a bl) ->
  x = y \/ x + 24 <= y \/ y + 24 <= x.
Proof.
  intros Hok Hx Hy. apply free_addrs_In in Hx, Hy.
  destruct Hx as (sx & Hx), Hy as (sy & Hy).
  destruct (block_at_bounds _ _ _ _ Hok Hx) as (_ & _ & Hbx & _).
  destruct (block_at_bounds _ _ _ _ Hok Hy) as (_ & _ & Hby & _).
  destruct (block_at_disjoint _ _ _ _ _ _ Hok Hx Hy) as [[-> _] | [H | H]];
    unfold bsize in *; simpl in *; lia.
Qed.

(** A block and a free-list node are the same or do not overlap. *)
Lemma block_free_sep (a : Z) (bl : list block) (x y : Z) (b : block) :
  Forall block_ok bl ->
  block_at a bl x b -> In y (free_addrs a bl) ->
  x = y \/ x + 8 + bsize b <= y \/ y + 24 <= x.
Proof.
  intros Hok Hx Hy. apply free_addrs_In in Hy. destruct Hy as (sy & Hy).
  destruct (block_at_bounds _ _ _ _ Hok Hy) as (_ & _ & Hby & _).
  destruct (block_at_disjoint _ _ _ _ _ _ Hok Hx Hy) as [[-> _] | [H | H]];
    unfold bsize in *; simpl in *; lia.
Qed.

Lemma free_extents_bounds (a : Z) (bl : list block) (lo hi : Z) :
  Forall block_ok bl -> In (lo, hi) (free_extents a bl) ->
  a <= lo /\ lo + 24 <= hi /\ hi <= a + total bl.
Proof.
  revert a. induction bl as [|c bl IH]; intros a Hok Hin; simpl in *; [tauto|].
  inversion Hok as [|? ? [Hc _] Hbl]; subst.
  pose proof (total_nonneg _ Hbl).
  destruct (bfree c).
  - destruct Hin as [Heq | Hin].
    + inversion Heq; subst. lia.
    + specialize (IH _ Hbl Hin). lia.
  - specialize (IH _ Hbl Hin). lia.
Qed.

Lemma free_extents_nodes (a : Z) (bl : list block) (y : Z) :
  Forall block_ok bl -> In y (free_addrs a bl) ->
  exists hi, In (y, hi) (free_extents a bl) /\ y + 24 <= hi.
Proof.
  revert a. induction bl as [|c bl IH]; intros a Hok Hin; simpl in *; [tauto|].
  inversion Hok as [|? ? [Hc _] Hbl]; subst.
  destruct (bfree c).
  - destruct Hin as [<- | Hin].
    + exists (a + 8 + bsize c). split; [now left | lia].
    + destruct (IH _ Hbl Hin) as (hi & H1 & H2). exists hi. split; [now right | lia].
  - exact (IH _ Hbl Hin).
Qed.

(* ================================================================= *)
(** ** Doubly linked lists *)

Lemma last_cons_shift {A} (l : list A) (x d : A) : last (x :: l) d = last l x.
Proof.
  revert x d. induction l as [|y l IH]; intros x d; [reflexivity|].
  change (last (x :: y :: l) d) with (last (y :: l) d).
  rewrite (IH y d), (IH y x). reflexivity.
Qed.

Lemma dll_app (m : memory) (p : Z) (l1 l2 : list Z) (n : Z) :
  dll m p (l1 ++ l2) n <-> dll m p l1 (hd n l2) /\ dll m (last l1 p) l2 n.
Proof.
  revert p. induction l1 as [|x l1 IH]; intros p.
  - simpl. tauto.
  - change ((x :: l1) ++ l2) with (x :: (l1 ++ l2)).
    cbn [dll]. rewrite IH, last_cons_shift.
    destruct l1 as [|y l1]; simpl; tauto.
Qed.

Lemma dll_frame (m m' : memory) (p : Z) (l : list Z) (n : Z) :
  dll m p l n ->
  (forall x, In x l -> load64 m' (x + 8) = load64 m (x + 8)
                       /\ load64 m' (x + 16) = load64 m (x + 16)) ->
  dll m' p l n.
Proof.
  revert p. induction l as [|x l IH]; intros p H Hf; simpl in *; [exact I|].
  destruct H as (H1 & H2 & H3).
  destruct (Hf x (or_introl eq_refl)) as [E1 E2].
  rewrite E1, E2. repeat split; try assumption.
  apply IH; [exact H3|]. intros y Hy. apply Hf. now right.
Qed.

(** Redirecting the [next] word of the last node. *)
Lemma dll_set_next (m m' : memory) (p : Z) (l : list Z) (n n' : Z) :
  dll m p l n ->
  (forall x, In x l -> load64 m' (x + 8) = load64 m (x + 8)) ->
  (forall x, In x (removelast l) -> load64 m' (x + 16) = load64 m (x + 16)) ->
  (l <> [] -> load64 m' (last l 0 + 16) = n') ->
  dll m' p l n'.
Proof.
  revert p. induction l as [|x l IH]; intros p H H8 H16 Hl; [exact I|].
  destruct H as (H1 & H2 & H3). cbn [dll]. split; [|split].
  - rewrite H8; [exact H1 | now left].
  - destruct l as [|y l].
    + simpl in *. apply Hl. discriminate.
    + simpl hd in *. rewrite H16; [exact H2 | now left].
  - apply IH; [exact H3 | | |].
    + intros y Hy. apply H8. now right.
    + intros y Hy. apply H16. destruct l; [contradiction | now right].
    + intros Hne. destruct l; [contradiction|]. apply Hl. discriminate.
Qed.

(** Redirecting the [prev] word of the first node. *)
Lemma dll_set_prev (m m' : memory) (p p' : Z) (l : list Z) (n : Z) :
  dll m p l n ->
  (forall x, In x l -> load64 m' (x + 16) = load64 m (x + 16)) ->
  (forall x, In x (tl l) -> load64 m' (x + 8) = load64 m (x + 8)) ->
  (l <> [] -> load64 m' (hd 0 l + 8) = p') ->
  dll m' p' l n.
Proof.
  intros H H16 H8 Hl. destruct l as [|x l]; [exact I|].
  destruct H as (H1 & H2 & H3). cbn [dll]. split; [|split].
  - apply Hl. discriminate.
  - rewrite H16; [exact H2 | now left].
  - apply dll_frame with (m := m); [exact H3|]. intros y Hy. split.
    + apply H8. exact Hy.
    + apply H16. now right.
Qed.

Lemma last_snoc {A} (l : list A) (x d : A) : last (l ++ [x]) d = x.
Proof. apply last_last. Qed.

Lemma last_app_cons {A} (l1 l2 : list A) (x d : A) :
  last (l1 ++ x :: l2) d = last (x :: l2) d.
Proof.
  induction l1 as [|y l1 IH]; [reflexivity|].
  change ((y :: l1) ++ x :: l2) with (y :: (l1 ++ x :: l2)).
  destruct (l1 ++ x :: l2) eqn:E; [now destruct l1 | exact IH].
Qed.

Lemma last_cons_default {A} (l : list A) (x d d' : A) :
  last (x :: l) d = last (x :: l) d'.
Proof.
  revert x. induction l as [|y l IH]; intros x; [reflexivity|].
  change (last (x :: y :: l) d) with (last (y :: l) d).
  change (last (x :: y :: l) d') with (last (y :: l) d'). apply IH.
Qed.

Lemma last_In {A} (l : list A) (d : A) : l <> [] -> In (last l d) l.
Proof.
  induction l as [|x l IH]; intros H; [contradiction|].
  destruct l as [|y l]; [now left|]. right. apply IH. discriminate.
Qed.

Lemma cons_nonnil {A} (x : A) (l : list A) : x :: l <> [].
Proof. discriminate. Qed.

Lemma snoc_cases {A} (l : list A) : l = [] \/ exists l' x, l = l' ++ [x].
Proof.
  destruct l as [|a l]; [now left | right].
  destruct (exists_last (cons_nonnil a l)) as (l' & x & ->). now exists l', x.
Qed.

(* ================================================================= *)
(** ** Ascending chains of nodes *)

Lemma chain_le (lo : Z) (l : list Z) (hi : Z) : chain lo l hi -> lo <= hi.
Proof.
  revert lo. induction l as [|x l IH]; intros lo H; simpl in *; [exact H|].
  destruct H as [H1 H2]. specialize (IH _ H2). lia.
Qed.

Lemma chain_weaken (lo lo' : Z) (l : list Z) (hi hi' : Z) :
  chain lo l hi -> lo' <= lo -> hi <= hi' -> chain lo' l hi'.
Proof.
  revert lo lo'. induction l as [|x l IH]; intros lo lo' H Hlo Hhi; simpl in *.
  - lia.
  - destruct H as [H1 H2]. split; [lia|]. apply (IH (x + 24)); [exact H2 | lia | exact Hhi].
Qed.

Lemma chain_In (lo : Z) (l : list Z) (hi x : Z) :
  chain lo l hi -> In x l -> lo <= x /\ x + 24 <= hi.
Proof.
  revert lo. induction l as [|y l IH]; intros lo H Hin; [contradiction|].
  destruct H as [H1 H2]. destruct Hin as [-> | Hin].
  - apply chain_le in H2. lia.
  - specialize (IH _ H2 Hin). lia.
Qed.

Lemma chain_app_cons (lo : Z) (l1 : list Z) (x : Z) (l2 : list Z) (hi : Z) :
  chain lo (l1 ++ x :: l2) hi <->
  chain lo l1 x /\ chain (x + 24) l2 hi.
Proof.
  revert lo. induction l1 as [|y l1 IH]; intros lo.
  - simpl. tauto.
  - change ((y :: l1) ++ x :: l2) with (y :: (l1 ++ x :: l2)).
    cbn [chain]. rewrite IH. tauto.
Qed.

Lemma chain_app (lo : Z) (l1 l2 : list Z) (mid hi : Z) :
  chain lo l1 mid -> chain mid l2 hi -> chain lo (l1 ++ l2) hi.
Proof.
  revert lo. induction l1 as [|y l1 IH]; intros lo H1 H2.
  - simpl in *. apply chain_weaken with (lo := mid) (hi := hi); [exact H2 | exact H1 | lia].
  - destruct H1 as [Hy H1]. simpl. split; [exact Hy|]. now apply IH.
Qed.

Lemma chain_length (lo : Z) (l : list Z) (hi : Z) :
  chain lo l hi -> lo + 24 * Z.of_nat (length l) <= hi.
Proof.
  revert lo. induction l as [|x l IH]; intros lo H.
  - simpl in *. lia.
  - destruct H as [H1 H2]. specialize (IH _ H2).
    change (length (x :: l)) with (S (length l)). lia.
Qed.

Lemma chain_notin (lo : Z) (l : list Z) (hi x : Z) :
  chain lo l hi -> x < lo \/ hi < x + 24 -> ~ In x l.
Proof.
  intros H Hx Hin. pose proof (chain_In _ _ _ _ H Hin). lia.
Qed.

Lemma free_addrs_chain (a : Z) (bl : list block) :
  Forall block_ok bl -> chain a (free_addrs a bl) (a + total bl).
Proof.
  revert a. induction bl as [|c bl IH]; intros a Hok.
  - simpl. lia.
  - inversion Hok as [|? ? [Hc _] Hbl]; subst.
    specialize (IH (a + 8 + bsize c) Hbl).
    cbn [free_addrs total]. destruct (bfree c).
    + split; [lia|].
      apply chain_weaken with (lo := a + 8 + bsize c)
                              (hi := a + 8 + bsize c + total bl);
        [exact IH | lia | lia].
    + apply chain_weaken with (lo := a + 8 + bsize c)
                              (hi := a + 8 + bsize c + total bl);
        [exact IH | lia | lia].
Qed.

Lemma chain_removelast (lo : Z) (l : list Z) (hi x : Z) :
  chain lo l hi -> In x (removelast l) -> lo <= x /\ x + 24 <= last l 0.
Proof.
  revert lo. induction l as [|y l IH]; intros lo H Hin; [contradiction|].
  destruct H as [H1 H2]. destruct l as [|z l]; [contradiction|].
  change (removelast (y :: z :: l)) with (y :: removelast (z :: l)) in Hin.
  change (last (y :: z :: l) 0) with (last (z :: l) 0).
  destruct Hin as [-> | Hin].
  - pose proof (chain_In _ _ _ (last (z :: l) 0) H2
                  (last_In _ _ (cons_nonnil _ _))). lia.
  - specialize (IH _ H2 Hin). lia.
Qed.

Lemma chain_tl (lo : Z) (l : list Z) (hi x : Z) :
  chain lo l hi -> In x (tl l) -> hd 0 l + 24 <= x /\ x + 24 <= hi.
Proof.
  destruct l as [|y l]; intros H Hin; [contradiction|].
  destruct H as [H1 H2]. simpl in *. exact (chain_In _ _ _ _ H2 Hin).
Qed.

Lemma last_facts (lo : Z) (l : list Z) (hi : Z) :
  chain lo l hi ->
  (l = [] /\ last l 0 = 0)
  \/ (l <> [] /\ In (last l 0) l /\ lo <= last l 0 /\ last l 0 + 24 <= hi).
Proof.
  intros H. destruct l as [|x l]; [left; split; reflexivity|].
  right. split; [discriminate|].
  pose proof (last_In (x :: l) 0 (cons_nonnil _ _)) as Hin.
  split; [exact Hin|]. exact (chain_In _ _ _ _ H Hin).
Qed.

Lemma hd_facts (lo : Z) (l : list Z) (hi : Z) :
  chain lo l hi ->
  (l = [] /\ hd 0 l = 0)
  \/ (l <> [] /\ In (hd 0 l) l /\ lo <= hd 0 l /\ hd 0 l + 24 <= hi).
Proof.
  intros H. destruct l as [|x l]; [left; split; reflexivity|].
  right. split; [discriminate|]. split; [now left|].
  exact (chain_In _ _ _ _ H (or_introl eq_refl)).
Qed.

Lemma hd_app_ne {A} (l1 l2 : list A) (d : A) :
  l1 <> [] -> hd d (l1 ++ l2) = hd d l1.
Proof. destruct l1; [contradiction | reflexivity]. Qed.

Lemma last_app_ne {A} (l1 l2 : list A) (d : A) :
  l2 <> [] -> last (l1 ++ l2) d = last l2 d.
Proof.
  intros H. destruct l2 as [|x l2]; [contradiction|].
  rewrite last_app_cons. reflexivity.
Qed.

Lemma last_cons_ne {A} (l : list A) (x d : A) :
  l <> [] -> last (x :: l) d = last l d.
Proof. destruct l; [contradiction | reflexivity]. Qed.

Lemma same_outside_step (m m1 : memory) (R : list (Z * Z)) (a v : Z) :
  same_outside m m1 R ->
  (exists lo hi, In (lo, hi) R /\ lo <= a /\ a + 8 <= hi) ->
  same_outside m (store64 m1 a v) R.
Proof.
  intros H (lo & hi & Hin & Hlo & Hhi) x Hx.
  rewrite store64_out; [now apply H|].
  specialize (Hx lo hi Hin). lia.
Qed.

Lemma link_ranges_cover (l : list Z) (y a : Z) :
  In y l -> y + 8 <= a -> a + 8 <= y + 24 ->
  exists lo hi, In (lo, hi) (link_ranges l) /\ lo <= a /\ a + 8 <= hi.
Proof.
  intros Hin H1 H2. exists (y + 8), (y + 24). split; [|lia].
  unfold link_ranges. apply in_map_iff. exists y. split; [reflexivity | exact Hin].
Qed.

Lemma chain_In_hd (lo : Z) (l : list Z) (hi x : Z) :
  chain lo l hi -> In x l -> x = hd 0 l \/ hd 0 l + 24 <= x.
Proof.
  destruct l as [|y l]; intros H Hin; [contradiction|].
  destruct Hin as [-> | Hin]; [now left | right].
  destruct H as [_ H]. simpl. exact (proj1 (chain_In _ _ _ _ H Hin)).
Qed.

Lemma chain_In_last (lo : Z) (l : list Z) (hi x : Z) :
  chain lo l hi -> In x l -> x = last l 0 \/ x + 24 <= last l 0.
Proof.
  intros H Hin. destruct (snoc_cases l) as [-> | (l' & z & ->)]; [contradiction|].
  rewrite last_snoc. apply in_app_or in Hin. destruct Hin as [Hin | [-> | []]].
  - right. apply chain_app_cons in H. destruct H as [H _].
    exact (proj2 (chain_In _ _ _ _ H Hin)).
  - now left.
Qed.

Lemma chain_sep (lo : Z) (l : list Z) (hi x y : Z) :
  chain lo l hi -> In x l -> In y l -> x = y \/ x + 24 <= y \/ y + 24 <= x.
Proof.
  revert lo. induction l as [|z l IH]; intros lo Hc Hx Hy; [contradiction|].
  destruct Hc as [Hz Hc]. destruct Hx as [-> | Hx]; destruct Hy as [-> | Hy].
  - now left.
  - pose proof (chain_In _ _ _ _ Hc Hy). lia.
  - pose proof (chain_In _ _ _ _ Hc Hx). lia.
  - exact (IH _ Hc Hx Hy).
Qed.

Lemma total_mod8 (bl : list block) : Forall block_ok bl -> total bl mod 8 = 0.
Proof.
  induction 1 as [|b bl [_ Hb] _ IH]; [reflexivity|].
  cbn [total]. zlia.
Qed.

(** An element outside the middle of a list lies left or right of it. *)
Lemma app_cons_split {A} (pre mid post pre2 post2 : list A) (x : A) :
  pre ++ mid ++ post = pre2 ++ x :: post2 -> ~ In x mid ->
  (exists m, pre = pre2 ++ x :: m /\ post2 = m ++ mid ++ post)
  \/ (exists m, post = m ++ x :: post2 /\ pre2 = pre ++ mid ++ m).
Proof.
  intros E Hn. apply app_eq_app in E. destruct E as (l & [[E1 E2] | [E1 E2]]).
  - destruct l as [|y l].
    + rewrite app_nil_r in E1. subst pre2. cbn [app] in E2.
      destruct mid as [|z mid].
      * cbn [app] in E2. right. exists []. cbn [app]. rewrite app_nil_r.
        split; [symmetry; exact E2 | reflexivity].
      * cbn [app] in E2. inversion E2; subst. exfalso. apply Hn. now left.
    + cbn [app] in E2. inversion E2; subst. left. exists l.
      split; reflexivity.
  - apply app_eq_app in E2. destruct E2 as (l' & [[E3 E4] | [E3 E4]]).
    + (* mid = l ++ l', x :: post2 = l' ++ post *)
      destruct l' as [|y l'].
      * rewrite app_nil_r in E3. subst l. cbn [app] in E4. right.
        exists []. cbn [app]. rewrite app_nil_r.
        split; [symmetry; exact E4 | exact E1].
      * cbn [app] in E4. inversion E4; subst. exfalso. apply Hn.
        apply in_or_app. right. now left.
    + (* l = mid ++ l', post = l' ++ x :: post2 *)
      right. exists l'. split; [exact E4|]. rewrite E1, E3.
      reflexivity.
Qed.

Lemma block_at_fun (a : Z) (bl : list block) (x : Z) (b1 b2 : block) :
  Forall block_ok bl -> block_at a bl x b1 -> block_at a bl x b2 -> b1 = b2.
Proof.
  intros Hok H1 H2.
  pose proof (block_at_bounds _ _ _ _ Hok H1) as (_ & _ & [? _]).
  pose proof (block_at_bounds _ _ _ _ Hok H2) as (_ & _ & [? _]).
  destruct (block_at_disjoint _ _ _ _ _ _ Hok H1 H2) as [[_ E] | [K | K]];
    [exact E | lia | lia].
Qed.

(** The payload of a USED block survives writes that stay inside other
    blocks. *)
Lemma payload_untouched (a : Z) (bl : list block) (m m' : memory)
  (R : list (Z * Z)) (x n : Z) :
  Forall block_ok bl -> block_at a bl x (n, false) ->
  same_outside m m' R ->
  (forall lo hi, In (lo, hi) R ->
     (lo <= hi /\ hi <= x + 8)
     \/ exists y blk, block_at a bl y blk /\ y <> x
                      /\ y <= lo /\ hi <= y + 8 + bsize blk) ->
  untouched m m' (x + 8) (x + 8 + n).
Proof.
  intros Hok Hx Hso HR z Hz. apply Hso. intros lo hi Hin.
  destruct (HR lo hi Hin) as [K | (y & blk & Hy & Hne & K1 & K2)]; [lia|].
  destruct (block_at_disjoint _ _ _ _ _ _ Hok Hx Hy) as [[E _] | [K | K]];
    cbn [bsize fst] in *; [congruence | lia | lia].
Qed.

Lemma free_addrs_block (a : Z) (bl : list block) (x y n : Z) :
  Forall block_ok bl -> block_at a bl x (n, false) ->
  In y (free_addrs a bl) ->
  exists blk, block_at a bl y blk /\ y <> x /\ y + 24 <= y + 8 + bsize blk.
Proof.
  intros Hok Hx Hy. apply free_addrs_In in Hy. destruct Hy as (sy & Hy).
  exists (sy, true). split; [exact Hy|].
  pose proof (block_at_bounds _ _ _ _ Hok Hy) as (_ & _ & [? _]).
  cbn [bsize fst] in *. split; [|lia].
  intros ->. pose proof (block_at_fun _ _ _ _ _ Hok Hx Hy). discriminate.
Qed.

(* ================================================================= *)
(** ** Symbolic execution of the monadic code *)

Ltac proj_simpl :=
  unfold Explicit.set_segment_start, Explicit.set_segment_end,
    Explicit.set_list_head, Explicit.set_list_end,
    Explicit.set_free_blocks_num in *;
  cbn [mem glob heap_lo heap_hi
       Explicit.segment_start Explicit.segment_end Explicit.list_head
       Explicit.list_end Explicit.free_blocks_num
       Explicit.set_segment_start Explicit.set_segment_end
       Explicit.set_list_head Explicit.set_list_end
       Explicit.set_free_blocks_num] in *;
  rewrite ?add_8_8 in *.

(** Decide the tests of the conditionals by linear arithmetic. *)
Ltac ztest :=
  match goal with
  | |- context [?x =? ?y] =>
      first [ rewrite (proj2 (Z.eqb_eq x y)) by lia
            | rewrite (proj2 (Z.eqb_neq x y)) by lia ]
  | |- context [?x <? ?y] =>
      first [ rewrite (proj2 (Z.ltb_lt x y)) by lia
            | rewrite (proj2 (Z.ltb_ge x y)) by lia ]
  | |- context [?x <=? ?y] =>
      first [ rewrite (proj2 (Z.leb_le x y)) by lia
            | rewrite (proj2 (Z.leb_gt x y)) by lia ]
  | |- context [?x >=? ?y] => rewrite (Z.geb_leb x y)
  | |- context [?x >? ?y] => rewrite (Z.gtb_ltb x y)
  end.

Lemma bind_current_fuel {B} (k : nat -> Explicit.St B) (s : Explicit.state) :
  bind Explicit.current_fuel k s = k (Explicit.heap_fuel s) s.
Proof. reflexivity. Qed.

Lemma hd_default_ne {A} (l : list A) (d d' : A) : l <> [] -> hd d l = hd d' l.
Proof. destruct l; [contradiction | reflexivity]. Qed.

Ltac acc := cbn [heap_lo heap_hi]; lia.

Ltac mstep :=
  first
    [ rewrite bind_get
    | rewrite bind_modify
    | rewrite bind_ret
    | rewrite bind_read by acc
    | rewrite bind_write by acc
    | rewrite bind_assoc
    | rewrite write_ok by acc ];
  proj_simpl.

Ltac load_simpl :=
  repeat first
    [ rewrite load64_store64_other by lia
    | rewrite load64_store64_same by (rewrite ?two64_eq in *; lia) ].

Ltac chain_bounds :=
  repeat match goal with
  | Hc : chain _ ?l _, Hin : In ?x ?l |- _ =>
      lazymatch goal with
      | _ : x + 24 <= _ |- _ => fail
      | _ => pose proof (proj2 (chain_In _ _ _ _ Hc Hin));
             pose proof (proj1 (chain_In _ _ _ _ Hc Hin));
             pose proof (chain_In_hd _ _ _ _ Hc Hin);
             pose proof (chain_In_last _ _ _ _ Hc Hin)
      end
  | Hc : chain _ ?l _, Hin : In ?x (removelast ?l) |- _ =>
      lazymatch goal with
      | _ : x + 24 <= _ |- _ => fail
      | _ => pose proof (proj2 (chain_removelast _ _ _ _ Hc Hin));
             pose proof (proj1 (chain_removelast _ _ _ _ Hc Hin))
      end
  | Hc : chain _ ?l _, Hin : In ?x (tl ?l) |- _ =>
      lazymatch goal with
      | _ : x + 24 <= _ |- _ => fail
      | _ => pose proof (proj2 (chain_tl _ _ _ _ Hc Hin));
             pose proof (proj1 (chain_tl _ _ _ _ Hc Hin))
      end
  end.

(** Loads of the final memory at a node the hypotheses bound. *)
Ltac load_fact :=
  intros; chain_bounds; load_simpl;
  try reflexivity; try assumption; try contradiction; try lia.

Ltac run := repeat (first [mstep | ztest; cbn [negb when]]).

(* ================================================================= *)
(** ** Removing a node from the free list *)

Lemma remove_block_spec (s : Explicit.state) (l1 l2 : list Z) (b lo hi : Z) :
  flist s (l1 ++ b :: l2) ->
  chain lo (l1 ++ b :: l2) hi -> 0 < lo -> hi <= two64 ->
  heap_lo s <= lo -> hi <= heap_hi s ->
  exists s',
    Explicit.remove_block_from_freelist b s = Ok tt s'
    /\ flist s' (l1 ++ l2)
    /\ same_segment s s'
    /\ same_outside (mem s) (mem s') (link_ranges (l1 ++ l2)).
Proof.
  intros [Hd Hh Ht Hn] Hc Hlo Hhi Hrl Hrh.
  destruct s as [m hl hh [ss se lh le n]]. proj_simpl.
  apply chain_app_cons in Hc. destruct Hc as [Hc1 Hc2].
  pose proof (chain_le _ _ _ Hc1) as Hb1.
  pose proof (chain_le _ _ _ Hc2) as Hb2.
  apply dll_app in Hd. destruct Hd as [Hd1 Hd2].
  cbn [dll hd] in Hd1, Hd2. destruct Hd2 as (Hp & Hx & Hd2).
  pose proof (chain_length _ _ _ Hc1) as Hl1.
  pose proof (chain_length _ _ _ Hc2) as Hl2.
  rewrite length_app in Hn. cbn [length] in Hn.
  unfold Explicit.remove_block_from_freelist, Explicit.get_prev_free_block,
    Explicit.get_next_free_block, Explicit.get_curr_prev,
    Explicit.get_curr_next, Explicit.HEADER_LENGTH.
  do 3 mstep. rewrite Hp. mstep.
  rewrite Hx.
  assert (Hnn : wsub n 1 = Z.of_nat (length (l1 ++ l2))).
  { rewrite length_app. rewrite wsub_small; w64; lia. }
  destruct (last_facts _ _ _ Hc1) as [[E1 EP] | (N1 & PI & P1 & P2)];
    destruct (hd_facts _ _ _ Hc2) as [[E2 EX] | (N2 & XI & X1 & X2)].
  - subst l1 l2. cbn [app hd last] in *. subst lh le. run.
    eexists. split; [reflexivity|]. proj_simpl.
    repeat split; try assumption; try reflexivity; try apply same_outside_refl.
  - subst l1. rewrite EP in *. cbn [app hd] in *. subst lh.
    rewrite last_cons_ne in Ht by exact N2.
    pose proof (last_facts _ _ _ Hc2) as [[? _] | (_ & _ & L1 & L2)]; [contradiction|].
    subst le. run.
    eexists. split; [reflexivity|]. proj_simpl.
    split; [split; proj_simpl|].
    + apply dll_set_prev with (m := m) (p := b); [exact Hd2 | load_fact ..].
    + reflexivity.
    + reflexivity.
    + exact Hnn.
    + repeat split; try reflexivity. apply same_outside_step; [apply same_outside_refl|].
      apply (link_ranges_cover _ (hd 0 l2)); [exact XI | lia | lia].
  - subst l2. rewrite EX in *. rewrite app_nil_r in *.
    rewrite last_app_cons in Ht. cbn [last] in Ht. subst le.
    rewrite hd_app_ne in Hh by exact N1.
    pose proof (hd_facts _ _ _ Hc1) as [[? _] | (_ & _ & L1 & L2)]; [contradiction|].
    subst lh. run.
    eexists. split; [reflexivity|]. proj_simpl.
    split; [split; proj_simpl|].
    + apply dll_set_next with (m := m) (n := b); [exact Hd1 | load_fact ..].
    + reflexivity.
    + reflexivity.
    + exact Hnn.
    + repeat split; try reflexivity. apply same_outside_step; [apply same_outside_refl|].
      apply (link_ranges_cover _ (last l1 0)); [exact PI | lia | lia].
  - rewrite last_app_cons in Ht. rewrite last_cons_ne in Ht by exact N2.
    rewrite hd_app_ne in Hh by exact N1.
    pose proof (hd_facts _ _ _ Hc1) as [[? _] | (_ & _ & L1 & L2)]; [contradiction|].
    pose proof (last_facts _ _ _ Hc2) as [[? _] | (_ & _ & L3 & L4)]; [contradiction|].
    subst lh le. run.
    eexists. split; [reflexivity|]. proj_simpl.
    split; [split; proj_simpl|].
    + apply dll_app. split.
      * apply dll_set_next with (m := m) (n := b); [exact Hd1 | load_fact ..].
      * apply dll_set_prev with (m := m) (p := b); [exact Hd2 | load_fact ..].
    + now rewrite hd_app_ne.
    + now rewrite last_app_ne.
    + exact Hnn.
    + repeat split; try reflexivity. apply same_outside_step; [apply same_outside_step|].
      * apply same_outside_refl.
      * apply (link_ranges_cover _ (last l1 0));
          [apply in_or_app; now left | lia | lia].
      * apply (link_ranges_cover _ (hd 0 l2));
          [apply in_or_app; now right | lia | lia].
Qed.

(* ================================================================= *)
(** ** Inserting a node into the free list *)

Lemma insert_scan_spec (s : Explicit.state) (c X lo : Z) (l1 : list Z)
  (p : Z) (fuel : nat) :
  dll (mem s) p l1 X -> chain lo l1 c -> 0 < lo -> c <= X ->
  heap_lo s <= lo -> c <= heap_hi s ->
  (length l1 < fuel)%nat ->
  Explicit.insert_scan fuel c (hd X l1) s = Ok X s.
Proof.
  revert p lo fuel.
  induction l1 as [|y l1 IH]; intros p lo fuel Hd Hc Hlo HX Hrl Hrh Hf.
  - destruct fuel as [|fuel]; [simpl in Hf; lia|].
    cbn [hd Explicit.insert_scan]. ztest. reflexivity.
  - destruct fuel as [|fuel]; [simpl in Hf; lia|].
    destruct Hd as (_ & Hn & Hd). destruct Hc as [Hy Hc].
    pose proof (chain_le _ _ _ Hc).
    cbn [hd Explicit.insert_scan]. ztest.
    unfold Explicit.get_next_free_block, Explicit.get_curr_next,
      Explicit.HEADER_LENGTH.
    rewrite bind_read by acc. rewrite add_8_8, Hn.
    apply (IH y (y + 24)); [exact Hd | exact Hc | lia | exact HX | lia | lia |].
    simpl in Hf. lia.
Qed.

Lemma insert_block_spec (s : Explicit.state) (l1 l2 : list Z) (c lo hi : Z) :
  flist s (l1 ++ l2) ->
  chain lo l1 c -> chain (c + 24) l2 hi -> 0 < lo -> hi <= two64 ->
  heap_lo s <= lo -> hi <= heap_hi s ->
  (length l1 < Explicit.heap_fuel s)%nat ->
  exists s',
    Explicit.insert_block_into_freelist c s = Ok tt s'
    /\ flist s' (l1 ++ c :: l2)
    /\ same_segment s s'
    /\ same_outside (mem s) (mem s') (link_ranges (l1 ++ c :: l2)).
Proof.
  intros [Hd Hh Ht Hn] Hc1 Hc2 Hlo Hhi Hrl Hrh Hfuel.
  pose proof (chain_le _ _ _ Hc1) as Hb1.
  pose proof (chain_le _ _ _ Hc2) as Hb2.
  pose proof (chain_length _ _ _ Hc1) as Hl1.
  pose proof (chain_length _ _ _ Hc2) as Hl2.
  apply dll_app in Hd. destruct Hd as [Hd1 Hd2].
  assert (Hnn : wadd (Explicit.free_blocks_num (glob s)) 1
                = Z.of_nat (length (l1 ++ c :: l2))).
  { rewrite Hn, !length_app. cbn [length]. rewrite wadd_small; w64; lia. }
  unfold Explicit.insert_block_into_freelist, Explicit.current_fuel,
    Explicit.get_prev_free_block, Explicit.get_curr_prev,
    Explicit.get_curr_next, Explicit.HEADER_LENGTH.
  do 2 mstep. rewrite Hnn. clear Hnn Hn.
  destruct (last_facts _ _ _ Hc1) as [[E1 EP] | (N1 & PI & P1 & P2)];
    destruct (hd_facts _ _ _ Hc2) as [[E2 EX] | (N2 & XI & X1 & X2)].
  - subst l1 l2. cbn [app hd last] in *.
    destruct s as [m hl hh [ss se lh le n]]. proj_simpl. subst lh le. run.
    eexists. split; [reflexivity|]. proj_simpl.
    split; [split; proj_simpl|].
    + cbn [dll hd]. repeat split; load_fact.
    + reflexivity.
    + reflexivity.
    + reflexivity.
    + repeat split; try reflexivity.
      apply same_outside_step; [apply same_outside_step|].
      * apply same_outside_refl.
      * apply (link_ranges_cover _ c); [now left | lia | lia].
      * apply (link_ranges_cover _ c); [now left | lia | lia].
  - subst l1. rewrite EP in *. cbn [app hd] in *.
    destruct s as [m hl hh [ss se lh le n]]. proj_simpl. subst lh.
    pose proof (last_facts _ _ _ Hc2) as [[? _] | (_ & _ & L1 & L2)]; [contradiction|].
    run.
    eexists. split; [reflexivity|]. proj_simpl.
    split; [split; proj_simpl|].
    + cbn [dll]. split; [load_fact | split; [load_fact|]].
      apply dll_set_prev with (m := m) (p := 0); [exact Hd2 | load_fact ..].
    + reflexivity.
    + rewrite last_cons_ne by exact N2. exact Ht.
    + reflexivity.
    + repeat split; try reflexivity.
      apply same_outside_step; [apply same_outside_step; [apply same_outside_step|]|].
      * apply same_outside_refl.
      * apply (link_ranges_cover _ c); [now left | lia | lia].
      * apply (link_ranges_cover _ c); [now left | lia | lia].
      * apply (link_ranges_cover _ (hd 0 l2)); [now right | lia | lia].
  - subst l2. rewrite EX in *. rewrite app_nil_r in *. cbn [last] in *.
    destruct s as [m hl hh [ss se lh le n]]. proj_simpl. subst le.
    pose proof (hd_facts _ _ _ Hc1) as [[? _] | (_ & _ & L1 & L2)]; [contradiction|].
    subst lh. run.
    eexists. split; [reflexivity|]. proj_simpl.
    split; [split; proj_simpl|].
    + apply dll_app. split.
      * apply dll_set_next with (m := m) (n := 0); [exact Hd1 | load_fact ..].
      * cbn [dll hd]. repeat split; load_fact.
    + now rewrite hd_app_ne.
    + now rewrite last_snoc.
    + reflexivity.
    + repeat split; try reflexivity.
      apply same_outside_step; [apply same_outside_step; [apply same_outside_step|]|].
      * apply same_outside_refl.
      * apply (link_ranges_cover _ c); [apply in_or_app; right; now left | lia | lia].
      * apply (link_ranges_cover _ c); [apply in_or_app; right; now left | lia | lia].
      * apply (link_ranges_cover _ (last l1 0)); [apply in_or_app; now left | lia | lia].
  - rewrite last_app_ne in Ht by exact N2.
    rewrite hd_app_ne in Hh by exact N1.
    pose proof (hd_facts _ _ _ Hc1) as [[? _] | (_ & _ & L1 & L2)]; [contradiction|].
    pose proof (last_facts _ _ _ Hc2) as [[? _] | (_ & _ & L3 & L4)]; [contradiction|].
    destruct s as [m hl hh [ss se lh le n]]. proj_simpl. subst lh le. run.
    rewrite bind_current_fuel.
    rewrite (hd_default_ne l1 0 (hd 0 l2)) by exact N1.
    rewrite (bind_ok _ _ _ _ _
               (insert_scan_spec (Machine m hl hh _) c (hd 0 l2) lo l1 0 _ Hd1
                  Hc1 Hlo ltac:(lia) Hrl ltac:(proj_simpl; lia) Hfuel)).
    assert (HP : load64 m (hd 0 l2 + 8) = last l1 0).
    { destruct l2 as [|x l2]; [contradiction|]. apply Hd2. }
    run. rewrite HP. run.
    eexists. split; [reflexivity|]. proj_simpl.
    split; [split; proj_simpl|].
    + apply dll_app. split.
      * apply dll_set_next with (m := m) (n := hd 0 l2); [exact Hd1 | load_fact ..].
      * cbn [dll]. split; [load_fact | split; [load_fact|]].
        apply dll_set_prev with (m := m) (p := last l1 0); [exact Hd2 | load_fact ..].
    + rewrite hd_app_ne by exact N1. now apply hd_default_ne.
    + rewrite last_app_cons, last_cons_ne by exact N2. reflexivity.
    + reflexivity.
    + repeat split; try reflexivity.
      apply same_outside_step;
        [apply same_outside_step;
           [apply same_outside_step; [apply same_outside_step|]|]|].
      * apply same_outside_refl.
      * apply (link_ranges_cover _ (last l1 0)); [apply in_or_app; now left | lia | lia].
      * apply (link_ranges_cover _ (hd 0 l2));
          [apply in_or_app; right; now right | lia | lia].
      * apply (link_ranges_cover _ c); [apply in_or_app; right; now left | lia | lia].
      * apply (link_ranges_cover _ c); [apply in_or_app; right; now left | lia | lia].
Qed.

(* ================================================================= *)
(** ** Replacing a node of the free list *)

Lemma replace_node_spec (s : Explicit.state) (l1 l2 : list Z)
  (x x' lo hi : Z) :
  flist s (l1 ++ x :: l2) ->
  chain lo l1 x -> chain (x + 24) l2 hi ->
  chain lo l1 x' -> chain (x' + 24) l2 hi -> 0 < lo -> hi <= two64 ->
  heap_lo s <= lo -> hi <= heap_hi s ->
  exists s',
    replace_node x x' s = Ok tt s'
    /\ flist s' (l1 ++ x' :: l2)
    /\ same_segment s s'
    /\ same_outside (mem s) (mem s') (link_ranges (l1 ++ x' :: l2)).
Proof.
  intros [Hd Hh Ht Hn] Hc1 Hc2 Hc1' Hc2' Hlo Hhi Hrl Hrh.
  destruct s as [m hl hh [ss se lh le n]]. proj_simpl.
  pose proof (chain_le _ _ _ Hc1) as Hb1.
  pose proof (chain_le _ _ _ Hc2) as Hb2.
  pose proof (chain_le _ _ _ Hc1') as Hb1'.
  pose proof (chain_le _ _ _ Hc2') as Hb2'.
  apply dll_app in Hd. destruct Hd as [Hd1 Hd2].
  cbn [dll hd] in Hd1, Hd2. destruct Hd2 as (Hp & Hx & Hd2).
  rewrite !length_app in *. cbn [length] in *.
  unfold replace_node, Explicit.get_prev_free_block,
    Explicit.get_next_free_block, Explicit.get_curr_prev,
    Explicit.get_curr_next, Explicit.HEADER_LENGTH.
  mstep. rewrite Hp. mstep. rewrite Hx.
  destruct (last_facts _ _ _ Hc1) as [[E1 EP] | (N1 & PI & P1 & P2)];
    destruct (hd_facts _ _ _ Hc2) as [[E2 EX] | (N2 & XI & X1 & X2)].
  - subst l1 l2. cbn [app hd last] in *. subst lh le. run.
    eexists. split; [reflexivity|]. proj_simpl.
    split; [split; proj_simpl|].
    + cbn [dll hd]. repeat split; load_fact.
    + reflexivity.
    + reflexivity.
    + rewrite ?length_app; cbn [length]; exact Hn.
    + repeat split; try reflexivity.
      apply same_outside_step; [apply same_outside_step|].
      * apply same_outside_refl.
      * apply (link_ranges_cover _ x'); [now left | lia | lia].
      * apply (link_ranges_cover _ x'); [now left | lia | lia].
  - subst l1. rewrite EP in *. cbn [app hd] in *. subst lh.
    rewrite last_cons_ne in Ht by exact N2.
    pose proof (last_facts _ _ _ Hc2) as [[? _] | (_ & _ & L1 & L2)]; [contradiction|].
    pose proof (hd_facts _ _ _ Hc2') as [[? _] | (_ & _ & L1' & L2')]; [contradiction|].
    subst le. run.
    eexists. split; [reflexivity|]. proj_simpl.
    split; [split; proj_simpl|].
    + cbn [dll]. split; [load_fact | split; [load_fact|]].
      apply dll_set_prev with (m := m) (p := x); [exact Hd2 | load_fact ..].
    + reflexivity.
    + now rewrite last_cons_ne.
    + rewrite ?length_app; cbn [length]; exact Hn.
    + repeat split; try reflexivity.
      apply same_outside_step; [apply same_outside_step; [apply same_outside_step|]|].
      * apply same_outside_refl.
      * apply (link_ranges_cover _ (hd 0 l2)); [now right | lia | lia].
      * apply (link_ranges_cover _ x'); [now left | lia | lia].
      * apply (link_ranges_cover _ x'); [now left | lia | lia].
  - subst l2. rewrite EX in *.
    rewrite last_app_cons in Ht. cbn [last] in Ht. subst le.
    rewrite hd_app_ne in Hh by exact N1.
    pose proof (hd_facts _ _ _ Hc1) as [[? _] | (_ & _ & L1 & L2)]; [contradiction|].
    pose proof (last_facts _ _ _ Hc1') as [[? _] | (_ & _ & L1' & L2')]; [contradiction|].
    subst lh. run.
    eexists. split; [reflexivity|]. proj_simpl.
    split; [split; proj_simpl|].
    + apply dll_app. split.
      * apply dll_set_next with (m := m) (n := x); [exact Hd1 | load_fact ..].
      * cbn [dll hd]. repeat split; load_fact.
    + now rewrite hd_app_ne.
    + now rewrite last_snoc.
    + rewrite ?length_app; cbn [length]; exact Hn.
    + repeat split; try reflexivity.
      apply same_outside_step; [apply same_outside_step; [apply same_outside_step|]|].
      * apply same_outside_refl.
      * apply (link_ranges_cover _ (last l1 0)); [apply in_or_app; now left | lia | lia].
      * apply (link_ranges_cover _ x'); [apply in_or_app; right; now left | lia | lia].
      * apply (link_ranges_cover _ x'); [apply in_or_app; right; now left | lia | lia].
  - rewrite last_app_cons in Ht. rewrite last_cons_ne in Ht by exact N2.
    rewrite hd_app_ne in Hh by exact N1.
    pose proof (hd_facts _ _ _ Hc1) as [[? _] | (_ & _ & L1 & L2)]; [contradiction|].
    pose proof (last_facts _ _ _ Hc2) as [[? _] | (_ & _ & L3 & L4)]; [contradiction|].
    pose proof (last_facts _ _ _ Hc1') as [[? _] | (_ & _ & L1' & L2')]; [contradiction|].
    pose proof (hd_facts _ _ _ Hc2') as [[? _] | (_ & _ & L3' & L4')]; [contradiction|].
    subst lh le. run.
    eexists. split; [reflexivity|]. proj_simpl.
    split; [split; proj_simpl|].
    + apply dll_app. split.
      * apply dll_set_next with (m := m) (n := x); [exact Hd1 | load_fact ..].
      * cbn [dll]. split; [load_fact | split; [load_fact|]].
        apply dll_set_prev with (m := m) (p := x); [exact Hd2 | load_fact ..].
    + now rewrite hd_app_ne.
    + rewrite last_app_cons, last_cons_ne by exact N2. reflexivity.
    + rewrite ?length_app; cbn [length]; exact Hn.
    + repeat split; try reflexivity.
      apply same_outside_step;
        [apply same_outside_step;
           [apply same_outside_step; [apply same_outside_step|]|]|].
      * apply same_outside_refl.
      * apply (link_ranges_cover _ (last l1 0)); [apply in_or_app; now left | lia | lia].
      * apply (link_ranges_cover _ (hd 0 l2));
          [apply in_or_app; right; now right | lia | lia].
      * apply (link_ranges_cover _ x'); [apply in_or_app; right; now left | lia | lia].
      * apply (link_ranges_cover _ x'); [apply in_or_app; right; now left | lia | lia].
Qed.

(* ================================================================= *)
(** ** Header words *)

Lemma free_header_size (sz : Z) :
  0 <= sz -> sz + 7 < two64 -> sz mod 8 = 0 ->
  Z.land (sz + 7) (wnot Explicit.FREE) = sz.
Proof.
  intros H1 H2 H3. change (wnot Explicit.FREE) with (two64 - 8).
  rewrite land_not7 by lia. zlia.
Qed.

Lemma free_header_status (sz : Z) :
  sz mod 8 = 0 -> Z.land (sz + 7) Explicit.FREE = 7.
Proof. intros H. unfold Explicit.FREE. rewrite land_7. zlia. Qed.

Lemma used_header_size (sz : Z) :
  0 <= sz < two64 -> sz mod 8 = 0 -> Z.land sz (wnot Explicit.FREE) = sz.
Proof.
  intros H1 H2. change (wnot Explicit.FREE) with (two64 - 8).
  rewrite land_not7 by lia. lia.
Qed.

Lemma used_header_status (sz : Z) :
  sz mod 8 = 0 -> Z.land sz Explicit.FREE = 0.
Proof. intros H. unfold Explicit.FREE. rewrite land_7. exact H. Qed.

Lemma lor_free (sz : Z) : sz mod 8 = 0 -> Z.lor sz Explicit.FREE = sz + 7.
Proof. intros H. unfold Explicit.FREE. rewrite lor_7. lia. Qed.

Lemma header_size (b : block) :
  block_ok b -> bsize b + 7 < two64 ->
  Z.land (header_word b) (wnot Explicit.FREE) = bsize b.
Proof.
  intros [H1 H2] H3. unfold header_word. destruct (bfree b).
  - apply free_header_size; lia.
  - apply used_header_size; lia.
Qed.

Lemma header_status (b : block) :
  block_ok b ->
  Z.land (header_word b) Explicit.FREE = if bfree b then 7 else 0.
Proof.
  intros [H1 H2]. unfold header_word. destruct (bfree b).
  - now apply free_header_status.
  - now apply used_header_status.
Qed.

(* ================================================================= *)
(** ** Rounding *)

Lemma roundup_small (r : Z) : r <= 16 -> Explicit.roundup r ALIGNMENT = 16.
Proof.
  intros H. unfold Explicit.roundup, Explicit.MIN_BLOCK_SIZE.
  now rewrite (proj2 (Z.leb_le r 16)) by exact H.
Qed.

Lemma roundup_large (r : Z) :
  16 < r < two64 ->
  Explicit.roundup r ALIGNMENT = Z.land ((r + 7) mod two64) (two64 - 8).
Proof.
  intros H. unfold Explicit.roundup, Explicit.MIN_BLOCK_SIZE, ALIGNMENT.
  rewrite (proj2 (Z.leb_gt r 16)) by lia.
  unfold wsub, wadd, wrap. change (8 - 1) with 7.
  change (wnot (7 mod two64)) with (two64 - 8).
  f_equal. rewrite two64_eq. zlia.
Qed.

Lemma roundup_ok (r : Z) :
  0 <= r <= two64 - 8 ->
  16 <= Explicit.roundup r ALIGNMENT
  /\ Explicit.roundup r ALIGNMENT mod 8 = 0
  /\ r <= Explicit.roundup r ALIGNMENT
  /\ Explicit.roundup r ALIGNMENT < two64.
Proof.
  intros H. destruct (Z_le_gt_dec r 16) as [Hs | Hl].
  - rewrite roundup_small by exact Hs. rewrite two64_eq in *. repeat split; zlia.
  - rewrite roundup_large by (rewrite two64_eq in *; lia).
    rewrite Z.mod_small by (rewrite two64_eq in *; lia).
    rewrite land_not7 by (rewrite two64_eq in *; lia).
    rewrite two64_eq in *. zlia.
Qed.

Lemma roundup_range (r : Z) :
  0 <= r < two64 ->
  0 <= Explicit.roundup r ALIGNMENT < two64
  /\ Explicit.roundup r ALIGNMENT mod 8 = 0.
Proof.
  intros H. destruct (Z_le_gt_dec r 16) as [Hs | Hl].
  - rewrite roundup_small by exact Hs. rewrite two64_eq. split; [lia | reflexivity].
  - rewrite roundup_large by lia.
    pose proof (Z.mod_pos_bound (r + 7) two64 eq_refl) as Hm.
    rewrite land_not7 by exact Hm. rewrite two64_eq in *. zlia.
Qed.

(* ================================================================= *)
(** ** Heaps with a gap *)

Lemma same_segment_refl (s : Explicit.state) : same_segment s s.
Proof. repeat split. Qed.

Lemma same_segment_trans (s1 s2 s3 : Explicit.state) :
  same_segment s1 s2 -> same_segment s2 s3 -> same_segment s1 s3.
Proof.
  intros (A1 & A2 & A3 & A4) (B1 & B2 & B3 & B4).
  repeat split; congruence.
Qed.

Lemma hole_of_inv (s : Explicit.state) (pre mid post : list block) :
  heap_inv s (pre ++ mid ++ post) ->
  free_addrs (Explicit.segment_start (glob s) + total pre) mid = [] ->
  hole s pre post (Explicit.segment_start (glob s) + total pre + total mid).
Proof.
  intros [[Hh He Hf] Hs Hb Hlo Hhi Hok] Hmid.
  apply heap_at_app in Hh. destruct Hh as [H1 H2].
  apply heap_at_app in H2. destruct H2 as [_ H2].
  rewrite !free_addrs_app, Hmid in Hf. rewrite !total_app in He.
  pose proof (Forall_app_l _ _ _ Hok) as Ho1.
  pose proof (Forall_app_r _ _ _ Hok) as Ho2.
  pose proof (total_nonneg _ (Forall_app_l _ _ _ Ho2)).
  constructor; try assumption.
  - lia.
  - exact (Forall_app_r _ _ _ Ho2).
  - lia.
Qed.

Lemma inv_of_hole (s : Explicit.state) (pre mid post : list block) (hi : Z) :
  hole s pre post hi ->
  Forall block_ok mid ->
  heap_at (mem s) (Explicit.segment_start (glob s) + total pre) mid ->
  Explicit.segment_start (glob s) + total pre + total mid = hi ->
  free_addrs (Explicit.segment_start (glob s) + total pre) mid = [] ->
  heap_inv s (pre ++ mid ++ post).
Proof.
  intros [H1 H2 He Hf Hs Hb Hlo Hhi Ho1 Ho2 Hsz] Hok Hm Ht Hfm.
  constructor; try assumption.
  - constructor.
    + apply heap_at_app. split; [exact H1|].
      apply heap_at_app. split; [exact Hm|]. now rewrite Ht.
    + rewrite !total_app. lia.
    + rewrite !free_addrs_app, Hfm, Ht. exact Hf.
  - apply Forall_app. split; [exact Ho1|]. apply Forall_app. now split.
Qed.

(** The nodes of the free list of a heap with a gap. *)
Lemma hole_chain (s : Explicit.state) (pre post : list block) (hi : Z) :
  hole s pre post hi ->
  chain (Explicit.segment_start (glob s))
    (free_addrs (Explicit.segment_start (glob s)) pre)
    (Explicit.segment_start (glob s) + total pre)
  /\ chain hi (free_addrs hi post) (Explicit.segment_end (glob s)).
Proof.
  intros H. split.
  - apply free_addrs_chain. apply H.
  - rewrite (hole_end _ _ _ _ H). apply free_addrs_chain. apply H.
Qed.

(** Writes confined to the gap and to link words of free-list nodes leave
    the headers of [pre] and [post] in place. *)
Lemma hole_heap_frame (s : Explicit.state) (pre post : list block) (hi : Z)
  (m' : memory) :
  hole s pre post hi ->
  same_outside (mem s) m'
    ((Explicit.segment_start (glob s) + total pre, hi)
       :: link_ranges (free_addrs (Explicit.segment_start (glob s)) pre
                       ++ free_addrs hi post)) ->
  heap_at m' (Explicit.segment_start (glob s)) pre /\ heap_at m' hi post.
Proof.
  intros H Hso. destruct (hole_chain _ _ _ _ H) as [Hc1 Hc2].
  pose proof (hole_size _ _ _ _ H) as Hsz.
  split.
  - apply heap_at_frame with (m := mem s); [apply H|].
    intros x b Hx. apply (same_outside_load _ _ _ _ Hso).
    intros lo hi' [Heq | Hin].
    + inversion Heq; subst.
      pose proof (block_at_bounds _ _ _ _ (hole_ok_pre _ _ _ _ H) Hx) as (? & ? & [? ?]).
      lia.
    + unfold link_ranges in Hin. apply in_map_iff in Hin.
      destruct Hin as (y & Heq & Hy). inversion Heq; subst.
      pose proof (block_at_bounds _ _ _ _ (hole_ok_pre _ _ _ _ H) Hx) as (? & ? & [? ?]).
      apply in_app_or in Hy. destruct Hy as [Hy | Hy].
      * pose proof (block_free_sep _ _ _ _ _ (hole_ok_pre _ _ _ _ H) Hx Hy). lia.
      * pose proof (chain_In _ _ _ _ Hc2 Hy). lia.
  - apply heap_at_frame with (m := mem s); [apply H|].
    intros x b Hx. apply (same_outside_load _ _ _ _ Hso).
    pose proof (block_at_bounds _ _ _ _ (hole_ok_post _ _ _ _ H) Hx) as (? & ? & [? ?]).
    intros lo hi' [Heq | Hin].
    + inversion Heq; subst. lia.
    + unfold link_ranges in Hin. apply in_map_iff in Hin.
      destruct Hin as (y & Heq & Hy). inversion Heq; subst.
      apply in_app_or in Hy. destruct Hy as [Hy | Hy].
      * pose proof (chain_In _ _ _ _ Hc1 Hy). lia.
      * pose proof (block_free_sep _ _ _ _ _ (hole_ok_post _ _ _ _ H) Hx Hy). lia.
Qed.

(** Writes inside the gap keep the heap around it. *)
Lemma hole_frame (s : Explicit.state) (pre post : list block) (hi : Z)
  (m' : memory) :
  hole s pre post hi ->
  same_outside (mem s) m' [(Explicit.segment_start (glob s) + total pre, hi)] ->
  hole (Machine m' (heap_lo s) (heap_hi s) (glob s)) pre post hi.
Proof.
  intros H Hso. destruct (hole_chain _ _ _ _ H) as [Hc1 Hc2].
  pose proof (hole_size _ _ _ _ H) as Hsz.
  assert (Hso' : same_outside (mem s) m'
    ((Explicit.segment_start (glob s) + total pre, hi)
       :: link_ranges (free_addrs (Explicit.segment_start (glob s)) pre
                       ++ free_addrs hi post))).
  { apply same_outside_weaken with (R := [(Explicit.segment_start (glob s) + total pre, hi)]);
      [exact Hso|].
    intros lo hi' [Heq | []].
    exists lo, hi'. split; [left; exact Heq | lia]. }
  destruct (hole_heap_frame _ _ _ _ _ H Hso') as [Hp Hq].
  destruct H as [H1 H2 He [Hd Hh Ht Hn] Hs Hb Hlo Hhi Ho1 Ho2 _].
  constructor; try assumption. constructor; try assumption.
  cbn [mem]. apply dll_frame with (m := mem s); [exact Hd|].
  intros x Hx. apply in_app_or in Hx.
  split; apply (same_outside_load _ _ _ _ Hso); intros lo hi' [Heq | []];
    inversion Heq; subst; destruct Hx as [Hx | Hx];
    first [ pose proof (chain_In _ _ _ _ Hc1 Hx); lia
          | pose proof (chain_In _ _ _ _ Hc2 Hx); lia ].
Qed.

Lemma link_ranges_In (l : list Z) (lo hi : Z) :
  In (lo, hi) (link_ranges l) -> exists y, In y l /\ lo = y + 8 /\ hi = y + 24.
Proof.
  unfold link_ranges. intros H. apply in_map_iff in H.
  destruct H as (y & Heq & Hy). inversion Heq; subst. now exists y.
Qed.

Lemma In_link_ranges (l : list Z) (y : Z) :
  In y l -> In (y + 8, y + 24) (link_ranges l).
Proof.
  intros H. unfold link_ranges. apply in_map_iff. now exists y.
Qed.

(** Headers survive writes that fall outside the walk or inside the link
    words of its FREE blocks. *)
Lemma heap_at_same_outside (m m' : memory) (a : Z) (bl : list block)
  (R : list (Z * Z)) :
  Forall block_ok bl -> heap_at m a bl -> same_outside m m' R ->
  (forall lo hi, In (lo, hi) R ->
     hi <= a \/ a + total bl <= lo
     \/ exists y, In y (free_addrs a bl) /\ y + 8 <= lo /\ hi <= y + 24) ->
  heap_at m' a bl.
Proof.
  intros Hok Hh Hso HR. apply heap_at_frame with (m := m); [exact Hh|].
  intros x b Hx. apply (same_outside_load _ _ _ _ Hso).
  intros lo hi Hin.
  pose proof (block_at_bounds _ _ _ _ Hok Hx) as (? & ? & [? ?]).
  destruct (HR lo hi Hin) as [K | [K | (y & Hy & K1 & K2)]]; try lia.
  pose proof (block_free_sep _ _ _ _ _ Hok Hx Hy). lia.
Qed.

(** Links survive writes that fall outside the nodes or inside their
    header words. *)
Lemma dll_same_outside (m m' : memory) (p : Z) (l : list Z) (n : Z)
  (R : list (Z * Z)) :
  dll m p l n -> same_outside m m' R ->
  (forall lo' hi' x, In (lo', hi') R -> In x l ->
     hi' <= x + 8 \/ x + 24 <= lo') ->
  dll m' p l n.
Proof.
  intros Hd Hso HR. apply dll_frame with (m := m); [exact Hd|].
  intros x Hx.
  split; apply (same_outside_load _ _ _ _ Hso); intros lo' hi' Hin;
    specialize (HR lo' hi' x Hin Hx); lia.
Qed.

(** The header of the FREE block that follows the gap is rewritten and the
    block is taken out of the free list: the gap widens by that block. *)
Lemma hole_take (s : Explicit.state) (pre post : list block) (sz hi v : Z) :
  hole s pre ((sz, true) :: post) hi ->
  exists s',
    Explicit.remove_block_from_freelist hi
      (Machine (store64 (mem s) hi v) (heap_lo s) (heap_hi s) (glob s))
    = Ok tt s'
    /\ hole s' pre post (hi + 8 + sz)
    /\ same_segment s s'
    /\ same_outside (mem s) (mem s')
         ((hi, hi + 8)
            :: link_ranges (free_addrs (Explicit.segment_start (glob s)) pre
                            ++ free_addrs (hi + 8 + sz) post))
    /\ (0 <= v < two64 -> load64 (mem s') hi = v).
Proof.
  intros H. destruct (hole_chain _ _ _ _ H) as [Hc1 Hc2].
  pose proof H as [H1 H2 He [Hd Hh Ht Hn] Hs Hb Hlo Hhi Ho1 Ho2 Hsz].
  cbn [free_addrs bfree bsize snd fst] in Hd, Hh, Ht, Hn, Hc2.
  destruct Hc2 as [_ Hc2]. cbn [total bsize fst] in He.
  inversion Ho2 as [|? ? [Hb1 Hb2] Ho2']; subst. cbn [bsize fst] in Hb1, Hb2.
  destruct H2 as [_ H2]. cbn [bsize fst] in H2.
  set (a := Explicit.segment_start (glob s)) in *.
  set (l1 := free_addrs a pre) in *.
  set (l2 := free_addrs (hi + 8 + sz) post) in *.
  set (s1 := Machine (store64 (mem s) hi v) (heap_lo s) (heap_hi s) (glob s)).
  assert (Hc : chain a (l1 ++ hi :: l2) (Explicit.segment_end (glob s))).
  { apply chain_app_cons. split; [|exact Hc2].
    apply chain_weaken with (1 := Hc1); lia. }
  pose proof (same_outside_store (mem s) hi v) as Hst.
  assert (Hf1 : flist s1 (l1 ++ hi :: l2)).
  { constructor; try assumption. cbn [s1 mem].
    apply (dll_same_outside _ _ _ _ _ _ Hd Hst).
    intros lo' hi' x [Heq | []] Hx. inversion Heq; subst.
    apply in_app_or in Hx. destruct Hx as [Hx | [<- | Hx]].
    - pose proof (chain_In _ _ _ _ Hc1 Hx). lia.
    - lia.
    - pose proof (chain_In _ _ _ _ Hc2 Hx). lia. }
  destruct (remove_block_spec s1 _ _ hi a (Explicit.segment_end (glob s)) Hf1 Hc)
    as (s' & Hrun & Hf' & Hseg & Hso); cbn [s1 heap_lo heap_hi]; try lia.
  exists s'. split; [exact Hrun|].
  destruct Hseg as (G1 & G2 & G3 & G4). cbn [s1 heap_lo heap_hi glob mem] in *.
  fold a in G3.
  pose proof (same_outside_trans _ _ _ _ _ Hst Hso) as Hall.
  cbn [app] in Hall.
  pose proof (total_nonneg _ Ho1). pose proof (total_nonneg _ Ho2').
  split; [|split; [repeat split; assumption | split; [exact Hall|]]].
  2:{ intros Hv. rewrite (same_outside_load _ _ _ hi Hso).
      - now apply load64_store64_same.
      - intros lo' hi' Hin.
        apply link_ranges_In in Hin. destruct Hin as (y & Hy & -> & ->).
        apply in_app_or in Hy. destruct Hy as [Hy | Hy].
        + pose proof (chain_In _ _ _ _ Hc1 Hy). lia.
        + pose proof (chain_In _ _ _ _ Hc2 Hy). lia. }
  constructor; rewrite ?G1, ?G2, ?G3, ?G4; try assumption; try lia.
  - apply (heap_at_same_outside _ _ _ _ _ Ho1 H1 Hall).
    intros lo' hi' [Heq | Hin].
    + inversion Heq; subst. lia.
    + apply link_ranges_In in Hin. destruct Hin as (y & Hy & -> & ->).
      apply in_app_or in Hy. destruct Hy as [Hy | Hy].
      * right. right. exists y. split; [exact Hy | lia].
      * pose proof (chain_In _ _ _ _ Hc2 Hy). lia.
  - apply (heap_at_same_outside _ _ _ _ _ Ho2' H2 Hall).
    intros lo' hi' [Heq | Hin].
    + inversion Heq; subst. lia.
    + apply link_ranges_In in Hin. destruct Hin as (y & Hy & -> & ->).
      apply in_app_or in Hy. destruct Hy as [Hy | Hy].
      * pose proof (chain_In _ _ _ _ Hc1 Hy). lia.
      * right. right. exists y. split; [exact Hy | lia].
Qed.

(** A FREE block that fills the gap is linked into the free list. *)
Lemma hole_insert (s : Explicit.state) (pre post : list block) (sz hi : Z) :
  hole s pre post hi ->
  hi = Explicit.segment_start (glob s) + total pre + 8 + sz ->
  block_ok (sz, true) ->
  load64 (mem s) (Explicit.segment_start (glob s) + total pre) = sz + 7 ->
  exists s',
    Explicit.insert_block_into_freelist
      (Explicit.segment_start (glob s) + total pre) s = Ok tt s'
    /\ heap_inv s' (pre ++ (sz, true) :: post)
    /\ same_segment s s'
    /\ same_outside (mem s) (mem s')
         (link_ranges (free_addrs (Explicit.segment_start (glob s)) pre
                       ++ (Explicit.segment_start (glob s) + total pre)
                       :: free_addrs hi post)).
Proof.
  intros H Ehi [Hb1 Hb2] Hhdr. cbn [bsize fst] in Hb1, Hb2.
  destruct (hole_chain _ _ _ _ H) as [Hc1 Hc2].
  pose proof H as [H1 H2 He Hf Hs Hb Hlo Hhi Ho1 Ho2 Hsz].
  set (a := Explicit.segment_start (glob s)) in *.
  set (c := a + total pre) in *.
  pose proof (total_nonneg _ Ho1) as Hn1.
  pose proof (total_nonneg _ Ho2) as Hn2.
  destruct (insert_block_spec s _ _ c a (Explicit.segment_end (glob s)) Hf)
    as (s' & Hrun & Hf' & Hseg & Hso); try lia; try exact Hc1.
  { apply chain_weaken with (1 := Hc2); lia. }
  { unfold Explicit.heap_fuel. fold a.
    pose proof (free_addrs_length a pre). pose proof (total_length _ Ho1). lia. }
  exists s'. split; [exact Hrun|].
  destruct Hseg as (G1 & G2 & G3 & G4). fold a in G3.
  assert (Hso' : same_outside (mem s) (mem s')
    ((c, hi) :: link_ranges (free_addrs a pre ++ free_addrs hi post))).
  { apply same_outside_weaken with (1 := Hso). intros lo hi' Hin.
    apply link_ranges_In in Hin. destruct Hin as (y & Hy & -> & ->).
    apply in_app_or in Hy. destruct Hy as [Hy | [<- | Hy]].
    - exists (y + 8), (y + 24). split; [|lia]. right. apply In_link_ranges.
      apply in_or_app. now left.
    - exists c, hi. split; [now left | lia].
    - exists (y + 8), (y + 24). split; [|lia]. right. apply In_link_ranges.
      apply in_or_app. now right. }
  destruct (hole_heap_frame _ _ _ _ _ H Hso') as [Hp Hq].
  split; [|split; [repeat split; assumption | exact Hso]].
  constructor; rewrite ?G1, ?G2, ?G3, ?G4; try assumption.
  - constructor; rewrite ?G3, ?G4.
    + apply heap_at_app. split; [exact Hp|]. fold c. cbn [heap_at bsize fst].
      split.
      * rewrite (same_outside_load _ _ _ c Hso); [exact Hhdr|].
        intros lo hi' Hin.
        apply link_ranges_In in Hin. destruct Hin as (y & Hy & -> & ->).
        apply in_app_or in Hy. destruct Hy as [Hy | [<- | Hy]].
        -- pose proof (chain_In _ _ _ _ Hc1 Hy). lia.
        -- lia.
        -- pose proof (chain_In _ _ _ _ Hc2 Hy). lia.
      * replace (c + 8 + sz) with hi by lia. exact Hq.
    + rewrite total_app. cbn [total bsize fst]. lia.
    + rewrite free_addrs_app. fold c. cbn [free_addrs bfree bsize snd fst].
      replace (c + 8 + sz) with hi by lia. exact Hf'.
  - apply Forall_app. split; [exact Ho1|]. constructor; [|exact Ho2].
    split; assumption.
Qed.

(** A USED block at the start of the gap joins [pre]. *)
Lemma hole_push_used (s : Explicit.state) (pre post : list block) (n hi : Z) :
  hole s pre post hi ->
  load64 (mem s) (Explicit.segment_start (glob s) + total pre) = n ->
  block_ok (n, false) ->
  Explicit.segment_start (glob s) + total pre + 8 + n <= hi ->
  hole s (pre ++ [(n, false)]) post hi.
Proof.
  intros [H1 H2 He Hf Hs Hb Hlo Hhi Ho1 Ho2 Hsz] Hhdr Hok Hle.
  constructor; try assumption.
  - apply heap_at_app. split; [exact H1|]. cbn [heap_at]. split; [exact Hhdr | exact I].
  - rewrite free_addrs_app. cbn [free_addrs bfree snd]. now rewrite app_nil_r.
  - apply Forall_app. split; [exact Ho1 | now constructor].
  - rewrite total_app. cbn [total bsize fst]. lia.
Qed.

(** Writes confined to the payloads of USED blocks keep the heap. *)
Lemma heap_inv_frame (s : Explicit.state) (bl : list block) (m' : memory)
  (R : list (Z * Z)) :
  heap_inv s bl -> same_outside (mem s) m' R ->
  (forall lo hi, In (lo, hi) R ->
     exists y n, block_at (Explicit.segment_start (glob s)) bl y (n, false)
                 /\ y + 8 <= lo /\ hi <= y + 8 + n) ->
  heap_inv (Machine m' (heap_lo s) (heap_hi s) (glob s)) bl.
Proof.
  intros [[Hh He [Hd Hhd Htl Hn]] Hs Hb Hlo Hhi Hok] Hso HR.
  constructor; try assumption. constructor; try assumption.
  - cbn [mem glob]. apply heap_at_frame with (m := mem s); [exact Hh|].
    intros x b Hx. apply (same_outside_load _ _ _ _ Hso).
    intros lo hi Hin. destruct (HR lo hi Hin) as (y & n & Hy & K1 & K2).
    pose proof (block_at_bounds _ _ _ _ Hok Hx) as (_ & _ & [? _]).
    destruct (block_at_disjoint _ _ _ _ _ _ Hok Hx Hy) as [[E _] | [K | K]];
      cbn [bsize fst] in *; lia.
  - constructor; try assumption. cbn [mem glob].
    apply dll_frame with (m := mem s); [exact Hd|].
    intros x Hx. apply free_addrs_In in Hx. destruct Hx as (sx & Hx).
    pose proof (block_at_bounds _ _ _ _ Hok Hx) as (_ & _ & [? _]).
    split; apply (same_outside_load _ _ _ _ Hso); intros lo hi Hin;
      destruct (HR lo hi Hin) as (y & n & Hy & K1 & K2);
      (destruct (block_at_disjoint _ _ _ _ _ _ Hok Hx Hy) as [[_ E] | [K | K]];
       cbn [bsize fst] in *; [discriminate | lia | lia]).
Qed.

(* ================================================================= *)
(** ** [mymalloc] *)

(** Facts about a FREE block of a consistent heap. *)
Lemma free_block_facts (s : Explicit.state) (pre post : list block) (sz : Z) :
  heap_inv s (pre ++ (sz, true) :: post) ->
  let a := Explicit.segment_start (glob s) in
  let b := a + total pre in
  let l1 := free_addrs a pre in
  let l2 := free_addrs (b + 8 + sz) post in
  0 < a /\ a <= b /\ b + 8 + sz <= Explicit.segment_end (glob s)
  /\ 16 <= sz /\ sz mod 8 = 0
  /\ load64 (mem s) b = sz + 7
  /\ load64 (mem s) (b + 8) = last l1 0
  /\ load64 (mem s) (b + 16) = hd 0 l2
  /\ free_addrs a (pre ++ (sz, true) :: post) = l1 ++ b :: l2
  /\ chain a l1 b /\ chain (b + 8 + sz) l2 (Explicit.segment_end (glob s))
  /\ b <= Explicit.list_end (glob s).
Proof.
  intros [[Hh He [Hd Hhd Htl Hn]] Hs Hb Hlo Hhi Hok] a b l1 l2.
  fold a in Hh, He, Hd, Hhd, Htl, Hn, Hs.
  pose proof (Forall_app_l _ _ _ Hok) as Ho1.
  pose proof (Forall_app_r _ _ _ Hok) as Ho2.
  inversion Ho2 as [|? ? [Hb1 Hb2] Ho3]; subst. cbn [bsize fst] in Hb1, Hb2.
  pose proof (total_nonneg _ Ho1). pose proof (total_nonneg _ Ho3).
  rewrite total_app in He. cbn [total bsize fst] in He.
  assert (E : free_addrs a (pre ++ (sz, true) :: post) = l1 ++ b :: l2).
  { rewrite free_addrs_app. reflexivity. }
  rewrite E in *.
  apply heap_at_app in Hh. destruct Hh as [_ [Hh _]].
  apply dll_app in Hd. destruct Hd as [_ (Hp & Hx & _)].
  pose proof (free_addrs_chain a pre Ho1) as Hc1.
  pose proof (free_addrs_chain (b + 8 + sz) post Ho3) as Hc2.
  assert (Hc2' : chain (b + 24) l2 (Explicit.segment_end (glob s))).
  { apply chain_weaken with (1 := Hc2); unfold b; lia. }
  assert (Hc : chain a (l1 ++ b :: l2) (Explicit.segment_end (glob s))).
  { apply chain_app_cons. split; assumption. }
  assert (Hin : In b (l1 ++ b :: l2)) by (apply in_or_app; right; now left).
  pose proof (chain_In_last _ _ _ b Hc Hin).
  assert (Hc2s : chain (b + 8 + sz) l2 (Explicit.segment_end (glob s))).
  { apply chain_weaken with (1 := Hc2); unfold b; lia. }
  unfold b in *. repeat split; try assumption; try lia.
Qed.

Lemma mymalloc_skip (s : Explicit.state) (bl : list block) (needed : Z) :
  heap_inv s bl ->
  forall (pre1 pre0 rest : list block) (fuel : nat) (x : Z),
    bl = pre0 ++ pre1 ++ rest ->
    x = Explicit.segment_start (glob s) + total pre0 ->
    too_small needed pre1 ->
    Explicit.mymalloc_loop (length (free_addrs x pre1) + fuel) needed
      (hd 0 (free_addrs x (pre1 ++ rest))) s
    = Explicit.mymalloc_loop fuel needed
        (hd 0 (free_addrs (x + total pre1) rest)) s.
Proof.
  intros Hinv. induction pre1 as [|[z f] pre1 IH];
    intros pre0 rest fuel x Hbl Hx Hsmall.
  - cbn [app free_addrs length total Nat.add]. now rewrite Z.add_0_r.
  - inversion Hsmall as [|? ? Hz Hsmall']; subst bl. cbn [bfree bsize snd fst] in Hz.
    assert (Hnext : Explicit.mymalloc_loop
                      (length (free_addrs (x + 8 + z) pre1) + fuel) needed
                      (hd 0 (free_addrs (x + 8 + z) (pre1 ++ rest))) s
                    = Explicit.mymalloc_loop fuel needed
                        (hd 0 (free_addrs (x + 8 + z + total pre1) rest)) s).
    { apply (IH (pre0 ++ [(z, f)]) rest fuel (x + 8 + z)).
      - rewrite <- app_assoc. reflexivity.
      - rewrite total_app. cbn [total bsize fst]. lia.
      - exact Hsmall'. }
    assert (Et : forall f', x + total ((z, f') :: pre1) = x + 8 + z + total pre1)
      by (intros f'; cbn [total bsize fst]; lia).
    destruct f.
    + change (((z, true) :: pre1) ++ rest) with ((z, true) :: (pre1 ++ rest)) in *.
      pose proof (free_block_facts s pre0 (pre1 ++ rest) z Hinv)
        as (Ha & Hb & He & Hz1 & Hz2 & Hhd & _ & Hnx & _ & _ & _ & Hle).
      rewrite <- Hx in *. clear Hx.
      pose proof (inv_bound _ _ Hinv) as Hbd.
      pose proof (inv_lo _ _ Hinv) as Hlo.
      pose proof (inv_hi _ _ Hinv) as Hhi.
      cbn [free_addrs bfree bsize snd fst hd length Nat.add].
      cbn [Explicit.mymalloc_loop].
      rewrite bind_get. ztest.
      rewrite bind_read by lia. rewrite Hhd.
      rewrite free_header_size by (rewrite ?two64_eq in *; lia).
      ztest. ztest.
      unfold Explicit.get_next_free_block, Explicit.get_curr_next,
        Explicit.HEADER_LENGTH.
      rewrite bind_read by lia. rewrite add_8_8, Hnx, Et.
      exact Hnext.
    + rewrite Et. exact Hnext.
Qed.

Lemma heap_fuel_enough (s : Explicit.state) (bl : list block) :
  heap_inv s bl ->
  (length (free_addrs (Explicit.segment_start (glob s)) bl)
   < Explicit.heap_fuel s)%nat.
Proof.
  intros [[_ He _] _ _ _ _ Hok]. unfold Explicit.heap_fuel.
  pose proof (free_addrs_length (Explicit.segment_start (glob s)) bl).
  pose proof (total_length _ Hok). lia.
Qed.

(** When no FREE block is large enough the search runs off the end of the
    free list and dereferences the null [next] pointer of its last node
    (or the null [list_head] of an empty list). *)
Lemma mymalloc_no_fit (s : Explicit.state) (bl : list block) (r : Z) :
  heap_inv s bl ->
  too_small (Explicit.roundup r ALIGNMENT) bl ->
  Explicit.mymalloc r s = Fault s.
Proof.
  intros Hinv Hsmall.
  pose proof (heap_fuel_enough _ _ Hinv) as Hfuel.
  pose proof (mymalloc_skip s bl (Explicit.roundup r ALIGNMENT) Hinv
                bl [] []
                (Explicit.heap_fuel s
                 - length (free_addrs (Explicit.segment_start (glob s)) bl))%nat
                (Explicit.segment_start (glob s))) as Hskip.
  rewrite app_nil_r in Hskip.
  specialize (Hskip eq_refl ltac:(cbn [total]; lia) Hsmall).
  replace (length (free_addrs (Explicit.segment_start (glob s)) bl)
           + (Explicit.heap_fuel s
              - length (free_addrs (Explicit.segment_start (glob s)) bl)))%nat
    with (Explicit.heap_fuel s) in Hskip by lia.
  unfold Explicit.mymalloc. rewrite bind_get, bind_current_fuel.
  rewrite (fl_head _ _ (shape_flist _ _ (inv_shape _ _ Hinv))).
  rewrite Hskip. cbn [free_addrs hd].
  destruct (Explicit.heap_fuel s
            - length (free_addrs (Explicit.segment_start (glob s)) bl))%nat
    as [|fuel] eqn:E; [lia|].
  cbn [Explicit.mymalloc_loop]. rewrite bind_get.
  assert (Hle : 0 <= Explicit.list_end (glob s)).
  { rewrite (fl_tail _ _ (shape_flist _ _ (inv_shape _ _ Hinv))).
    pose proof (free_addrs_chain (Explicit.segment_start (glob s)) bl
                  (inv_blocks _ _ Hinv)) as Hc.
    pose proof (inv_start _ _ Hinv).
    destruct (last_facts _ _ _ Hc) as [[_ ->] | (_ & _ & ? & _)]; lia. }
  ztest. apply bind_fault. unfold read. now rewrite accessible_null.
Qed.

Lemma same_outside_cons_cover (m m' : memory) (R R' : list (Z * Z)) :
  same_outside m m' R ->
  Forall (fun r => exists lo' hi', In (lo', hi') R'
                                   /\ lo' <= fst r /\ snd r <= hi') R ->
  same_outside m m' R'.
Proof.
  intros H HF. apply same_outside_weaken with (1 := H).
  intros lo hi Hin. rewrite Forall_forall in HF.
  exact (HF (lo, hi) Hin).
Qed.

(** Allocation from the FREE block at [b]: the block is taken whole or
    split. *)
Lemma mymalloc_here (s : Explicit.state) (pre post : list block)
  (sz needed : Z) (fuel : nat) :
  heap_inv s (pre ++ (sz, true) :: post) ->
  16 <= needed -> needed mod 8 = 0 -> needed <= sz ->
  let a := Explicit.segment_start (glob s) in
  let b := a + total pre in
  exists s',
    Explicit.mymalloc_loop (S fuel) needed b s = Ok (b + 8) s'
    /\ heap_inv s' (pre ++ placed needed sz ++ post)
    /\ same_segment s s'
    /\ same_outside (mem s) (mem s')
         ((b, b + 8 + sz)
            :: link_ranges (free_addrs a pre ++ free_addrs (b + 8 + sz) post)).
Proof.
  intros Hinv Hn1 Hn2 Hn3 a b.
  pose proof (free_block_facts s pre post sz Hinv)
    as (Ha & Hb & He & Hz1 & Hz2 & Hhd & Hpv & Hnx & Efl & Hc1 & Hc2 & Hle).
  fold a in Ha, Hb, He, Hhd, Hpv, Hnx, Efl, Hc1, Hc2, Hle.
  fold b in Hb, He, Hhd, Hpv, Hnx, Efl, Hc1, Hc2, Hle.
  pose proof (inv_bound _ _ Hinv) as Hbd.
  pose proof (inv_lo _ _ Hinv) as Hlo.
  pose proof (inv_hi _ _ Hinv) as Hhi.
  pose proof (hole_of_inv s pre [] ((sz, true) :: post) Hinv eq_refl) as Hhole.
  cbn [total] in Hhole. rewrite Z.add_0_r in Hhole. fold a b in Hhole.
  cbn [Explicit.mymalloc_loop].
  rewrite bind_get. ztest. rewrite bind_read by lia. rewrite Hhd.
  rewrite free_header_size by (rewrite ?two64_eq in *; lia).
  ztest. ztest.
  rewrite wsub_small by (rewrite ?two64_eq in *; lia).
  change (wadd Explicit.HEADER_LENGTH Explicit.MIN_BLOCK_SIZE) with 24.
  unfold placed.
  destruct (Z_lt_ge_dec (sz - needed) 24) as [Hlt | Hge];
    [rewrite (proj2 (Z.ltb_lt _ _)) by exact Hlt
    |rewrite (proj2 (Z.ltb_ge _ _)) by lia]; cbv match.
  - (* the whole block is used *)
    rewrite used_header_size by (rewrite ?two64_eq in *; lia).
    rewrite bind_assoc, bind_write by lia.
    destruct (hole_take s pre post sz b sz Hhole)
      as (s' & Hrun & Hh' & Hseg & Hso & Hld).
    rewrite (bind_ok _ _ _ _ _ Hrun).
    exists s'. split; [reflexivity|].
    destruct Hseg as (G1 & G2 & G3 & G4). fold a in G3.
    split; [|split; [repeat split; assumption|]].
    + apply (inv_of_hole s' pre [(sz, false)] post (b + 8 + sz) Hh').
      * constructor; [split; assumption | constructor].
      * rewrite G3. fold b. cbn [heap_at header_word bfree bsize snd fst].
        split; [|exact I]. apply Hld. rewrite ?two64_eq in *. lia.
      * rewrite G3. fold b. cbn [total bsize fst]. lia.
      * reflexivity.
    + apply same_outside_weaken with (1 := Hso).
      intros lo hi [Heq | Hin].
      * inversion Heq; subst. exists b, (b + 8 + sz). split; [now left | lia].
      * exists lo, hi. split; [now right | lia].
  - (* the block is split *)
    rewrite used_header_size by (rewrite ?two64_eq in *; lia).
    unfold Explicit.HEADER_LENGTH.
    rewrite !wsub_small by (rewrite ?two64_eq in *; lia).
    rewrite lor_free by zlia.
    rewrite bind_assoc, bind_write by lia. cbn beta zeta.
    rewrite bind_assoc, bind_write by (cbn [heap_lo heap_hi]; lia).
    cbn [mem heap_lo heap_hi glob].
    set (nh := b + needed + 8).
    set (rem := sz - needed - 8).
    set (m2 := store64 (store64 (mem s) b needed) nh (rem + 7)).
    set (s2 := Machine m2 (heap_lo s) (heap_hi s) (glob s)).
    assert (Hso2 : same_outside (mem s) m2 [(b, b + 8); (nh, nh + 8)]).
    { apply same_outside_step; [apply same_outside_step|].
      - apply same_outside_refl.
      - exists b, (b + 8). split; [now left | lia].
      - exists nh, (nh + 8). split; [right; now left | lia]. }
    pose proof (inv_shape _ _ Hinv) as [Hheap Hend Hfl]. fold a in Hheap, Hend, Hfl.
    rewrite Efl in Hfl.
    assert (Hfl2 : flist s2 (free_addrs a pre ++ b :: free_addrs (b + 8 + sz) post)).
    { destruct Hfl as [Hd Hh Ht Hn]. constructor; try assumption.
      cbn [s2 mem].
      apply (dll_same_outside _ _ _ _ _ _ Hd Hso2).
      intros lo' hi' x [Heq | [Heq | []]] Hx; inversion Heq; subst;
        apply in_app_or in Hx; destruct Hx as [Hx | [<- | Hx]];
        first [ pose proof (chain_In _ _ _ _ Hc1 Hx); unfold nh; lia
              | pose proof (chain_In _ _ _ _ Hc2 Hx); unfold nh; lia
              | unfold nh; lia ]. }
    pose proof (Forall_app_l _ _ _ (inv_blocks _ _ Hinv)) as Ho1.
    pose proof (Forall_app_r _ _ _ (inv_blocks _ _ Hinv)) as Ho2.
    inversion Ho2 as [|? ? _ Ho3]; subst.
    apply heap_at_app in Hheap. destruct Hheap as [Hpre [_ Hpost]].
    cbn [bsize fst] in Hpost. fold b in Hpost.
    rewrite total_app in Hend. cbn [total bsize fst] in Hend.
    pose proof (total_nonneg _ Ho1). pose proof (total_nonneg _ Ho3).
    destruct (replace_node_spec s2 _ _ b nh a (Explicit.segment_end (glob s))
                Hfl2)
      as (s' & Hrun & Hf' & Hseg & Hso); cbn [s2 heap_lo heap_hi]; try lia;
      try exact Hc1.
    { apply chain_weaken with (1 := Hc2); lia. }
    { apply chain_weaken with (1 := Hc1); unfold nh; lia. }
    { apply chain_weaken with (1 := Hc2); unfold nh; lia. }
    rewrite (bind_ok (replace_node b nh) _ s2 s' tt Hrun).
    exists s'. split; [reflexivity|].
    destruct Hseg as (G1 & G2 & G3 & G4).
    cbn [s2 heap_lo heap_hi glob mem] in G1, G2, G3, G4, Hso. fold a in G3.
    pose proof (same_outside_trans _ _ _ _ _ Hso2 Hso) as Hall.
    assert (Hcover : forall lo hi,
               In (lo, hi) ([(b, b + 8); (nh, nh + 8)]
                            ++ link_ranges (free_addrs a pre
                                 ++ nh :: free_addrs (b + 8 + sz) post)) ->
               (b <= lo /\ hi <= b + 8 + sz)
               \/ In (lo, hi) (link_ranges (free_addrs a pre
                                 ++ free_addrs (b + 8 + sz) post))).
    { intros lo hi Hin. apply in_app_or in Hin.
      destruct Hin as [[Heq | [Heq | []]] | Hin].
      - inversion Heq; subst. left. lia.
      - inversion Heq; subst. left. unfold nh. lia.
      - apply link_ranges_In in Hin. destruct Hin as (y & Hy & -> & ->).
        apply in_app_or in Hy. destruct Hy as [Hy | [<- | Hy]].
        + right. apply In_link_ranges. apply in_or_app. now left.
        + left. unfold nh. lia.
        + right. apply In_link_ranges. apply in_or_app. now right. }
    split; [|split; [repeat split; assumption|]].
    + constructor; rewrite ?G1, ?G2, ?G3, ?G4; try assumption.
      * constructor; rewrite ?G3, ?G4.
        -- apply heap_at_app. split; [|apply heap_at_app; split].
           ++ apply (heap_at_same_outside _ _ _ _ _ Ho1 Hpre Hall).
              intros lo hi Hin. destruct (Hcover lo hi Hin) as [K | K].
              ** fold b. lia.
              ** apply link_ranges_In in K. destruct K as (y & Hy & -> & ->).
                 apply in_app_or in Hy. destruct Hy as [Hy | Hy].
                 --- right. right. exists y. split; [exact Hy | lia].
                 --- pose proof (chain_In _ _ _ _ Hc2 Hy). fold b. lia.
           ++ fold b. cbn [heap_at header_word bfree bsize snd fst].
              split; [|split; [|exact I]].
              ** rewrite (same_outside_load _ _ _ b Hso).
                 { unfold m2. rewrite load64_store64_other by (unfold nh; lia).
                   apply load64_store64_same. rewrite ?two64_eq in *. lia. }
                 intros lo hi Hin.
                 apply link_ranges_In in Hin. destruct Hin as (y & Hy & -> & ->).
                 apply in_app_or in Hy. destruct Hy as [Hy | [<- | Hy]].
                 --- pose proof (chain_In _ _ _ _ Hc1 Hy). lia.
                 --- unfold nh. lia.
                 --- pose proof (chain_In _ _ _ _ Hc2 Hy). lia.
              ** replace (b + 8 + needed) with nh by (unfold nh; lia).
                 rewrite (same_outside_load _ _ _ nh Hso).
                 { unfold m2. apply load64_store64_same.
                   unfold rem. rewrite ?two64_eq in *. lia. }
                 intros lo hi Hin.
                 apply link_ranges_In in Hin. destruct Hin as (y & Hy & -> & ->).
                 apply in_app_or in Hy. destruct Hy as [Hy | [<- | Hy]].
                 --- pose proof (chain_In _ _ _ _ Hc1 Hy). unfold nh. lia.
                 --- lia.
                 --- pose proof (chain_In _ _ _ _ Hc2 Hy). unfold nh. lia.
           ++ fold b. cbn [total bsize fst]. unfold rem.
              replace (b + (8 + needed + (8 + (sz - needed - 8) + 0)))
                with (b + 8 + sz) by lia.
              apply (heap_at_same_outside _ _ _ _ _ Ho3 Hpost Hall).
              intros lo hi Hin. destruct (Hcover lo hi Hin) as [K | K].
              ** lia.
              ** apply link_ranges_In in K. destruct K as (y & Hy & -> & ->).
                 apply in_app_or in Hy. destruct Hy as [Hy | Hy].
                 --- pose proof (chain_In _ _ _ _ Hc1 Hy). lia.
                 --- right. right. exists y. split; [exact Hy | lia].
        -- rewrite !total_app. cbn [total bsize fst]. lia.
        -- rewrite !free_addrs_app. fold b.
           cbn [free_addrs bfree bsize snd fst total app]. unfold rem.
           replace (b + 8 + needed) with nh by (unfold nh; lia).
           replace (b + (8 + needed + (8 + (sz - needed - 8) + 0)))
             with (b + 8 + sz) by lia.
           exact Hf'.
      * apply Forall_app. split; [exact Ho1|].
        apply Forall_app. split; [|exact Ho3].
        constructor; [split; cbn [bsize fst]; [lia | exact Hn2]|].
        constructor; [split; cbn [bsize fst]; [lia | zlia]|constructor].
    + apply same_outside_weaken with (1 := Hall).
      intros lo hi Hin. destruct (Hcover lo hi Hin) as [K | K].
      * exists b, (b + 8 + sz). split; [now left | lia].
      * exists lo, hi. split; [now right | lia].
Qed.

(** First fit: the FREE blocks of [pre] are too small, the FREE block that
    follows them is taken. *)
Lemma mymalloc_fit (s : Explicit.state) (pre post : list block) (sz r : Z) :
  heap_inv s (pre ++ (sz, true) :: post) ->
  0 <= r <= two64 - 8 ->
  too_small (Explicit.roundup r ALIGNMENT) pre ->
  Explicit.roundup r ALIGNMENT <= sz ->
  let a := Explicit.segment_start (glob s) in
  let b := a + total pre in
  exists s',
    Explicit.mymalloc r s = Ok (b + 8) s'
    /\ heap_inv s' (pre ++ placed (Explicit.roundup r ALIGNMENT) sz ++ post)
    /\ same_segment s s'
    /\ same_outside (mem s) (mem s')
         ((b, b + 8 + sz)
            :: link_ranges (free_addrs a pre ++ free_addrs (b + 8 + sz) post)).
Proof.
  intros Hinv Hr Hsmall Hfit a b.
  destruct (roundup_ok r Hr) as (R1 & R2 & R3 & R4).
  pose proof (heap_fuel_enough _ _ Hinv) as Hfuel. fold a in Hfuel.
  rewrite free_addrs_app, length_app in Hfuel.
  cbn [free_addrs bfree snd length] in Hfuel.
  pose proof (mymalloc_skip s _ (Explicit.roundup r ALIGNMENT) Hinv
                pre [] ((sz, true) :: post)
                (Explicit.heap_fuel s - length (free_addrs a pre))%nat
                a eq_refl ltac:(cbn [total]; fold a; lia) Hsmall) as Hskip.
  replace (length (free_addrs a pre)
           + (Explicit.heap_fuel s - length (free_addrs a pre)))%nat
    with (Explicit.heap_fuel s) in Hskip by lia.
  unfold Explicit.mymalloc. rewrite bind_get, bind_current_fuel.
  rewrite (fl_head _ _ (shape_flist _ _ (inv_shape _ _ Hinv))). fold a.
  rewrite Hskip. cbn [free_addrs bfree snd hd]. fold b.
  destruct (Explicit.heap_fuel s - length (free_addrs a pre))%nat
    as [|fuel] eqn:E; [lia|].
  exact (mymalloc_here s pre post sz _ fuel Hinv R1 R2 Hfit).
Qed.

(* ================================================================= *)
(** ** [myfree] *)

(** The status [myfree] and [myrealloc] read to the right of a gap. *)
Lemma status_of_right_spec (s : Explicit.state) (pre post : list block)
  (hi : Z) :
  hole s pre post hi ->
  Explicit.status_of_right hi s = Ok (status_val post) s.
Proof.
  intros H. unfold Explicit.status_of_right. rewrite bind_get.
  pose proof H as [H1 H2 He Hf Hs Hb Hlo Hhi Ho1 Ho2 Hsz].
  pose proof (total_nonneg _ Ho1).
  destruct post as [|[z f] post].
  - cbn [total] in He. ztest. reflexivity.
  - inversion Ho2 as [|? ? Hz Ho3]; subst. pose proof Hz as [Hz1 Hz2].
    cbn [bsize fst] in Hz1, Hz2.
    pose proof (total_nonneg _ Ho3).
    cbn [total bsize fst] in He. destruct H2 as [Hhdr _].
    ztest. rewrite bind_read by lia. rewrite Hhdr.
    rewrite header_status by exact Hz. cbn [status_val bfree snd].
    destruct f; reflexivity.
Qed.

Lemma status_of_right_used (s : Explicit.state) (pre post : list block)
  (hi : Z) :
  hole s pre post hi -> starts_used post ->
  exists st, Explicit.status_of_right hi s = Ok st s /\ st <> Explicit.FREE.
Proof.
  intros H Hu. exists (status_val post).
  split; [now apply status_of_right_spec with (pre := pre)|].
  destruct post as [|[z f] post]; [discriminate|].
  cbn [starts_used bfree snd] in Hu. subst f. discriminate.
Qed.

(** Freeing the block that fills the gap when no FREE block follows it. *)
Lemma myfree_hole (s : Explicit.state) (pre post : list block) (cs hi : Z) :
  hole s pre post hi ->
  let b := Explicit.segment_start (glob s) + total pre in
  hi = b + 8 + cs ->
  block_ok (cs, true) ->
  starts_used post ->
  Z.land (load64 (mem s) b) (wnot Explicit.FREE) = cs ->
  exists s',
    Explicit.myfree (b + 8) s = Ok tt s'
    /\ heap_inv s' (pre ++ (cs, true) :: post)
    /\ same_segment s s'
    /\ same_outside (mem s) (mem s')
         ((b, b + 24)
            :: link_ranges (free_addrs (Explicit.segment_start (glob s)) pre
                            ++ free_addrs hi post)).
Proof.
  intros H b Ehi Hok Hu Hsz.
  pose proof Hok as [Hc1 Hc2]. cbn [bsize fst] in Hc1, Hc2.
  pose proof H as [H1 H2 He Hf Hs Hb Hlo Hhi Ho1 Ho2 Hhs].
  pose proof (total_nonneg _ Ho1). pose proof (total_nonneg _ Ho2).
  fold b in Hhs.
  destruct (status_of_right_used _ _ _ _ H Hu) as (st & Hst & Hne).
  unfold Explicit.myfree, Explicit.HEADER_LENGTH.
  ztest. replace (b + 8 - 8) with b by lia.
  rewrite bind_read by lia. rewrite Hsz.
  replace (b + 8 + cs) with hi by lia.
  rewrite (bind_ok _ _ _ _ _ Hst).
  rewrite (proj2 (Z.eqb_neq st Explicit.FREE)) by exact Hne.
  rewrite lor_free by exact Hc2.
  rewrite bind_write by lia.
  set (s1 := Machine (store64 (mem s) b (cs + 7)) (heap_lo s) (heap_hi s)
               (glob s)).
  assert (Hh1 : hole s1 pre post hi).
  { apply (hole_frame s pre post hi _ H).
    apply same_outside_step; [apply same_outside_refl|].
    exists b, hi. split; [now left | lia]. }
  destruct (hole_insert s1 pre post cs hi Hh1) as (s' & Hrun & Hinv & Hseg & Hso).
  - cbn [s1 glob]. fold b. lia.
  - exact Hok.
  - cbn [s1 glob mem]. fold b. apply load64_store64_same.
    rewrite ?two64_eq in *. lia.
  - cbn [s1 glob] in Hrun, Hso. fold b in Hrun, Hso.
    exists s'. split; [exact Hrun|]. split; [exact Hinv|]. split; [exact Hseg|].
    cbn [s1 mem] in Hso.
    pose proof (same_outside_trans _ _ _ _ _
                  (same_outside_store (mem s) b (cs + 7)) Hso) as Hall.
    apply same_outside_weaken with (1 := Hall).
    intros lo hi' [Heq | Hin].
    + inversion Heq; subst. exists b, (b + 24). split; [now left | lia].
    + apply link_ranges_In in Hin. destruct Hin as (y & Hy & -> & ->).
      apply in_app_or in Hy. destruct Hy as [Hy | [<- | Hy]].
      * exists (y + 8), (y + 24). split; [|lia]. right. apply In_link_ranges.
        apply in_or_app. now left.
      * exists b, (b + 24). split; [now left | lia].
      * exists (y + 8), (y + 24). split; [|lia]. right. apply In_link_ranges.
        apply in_or_app. now right.
Qed.

(** Freeing a block whose right neighbour is FREE: the two merge, and the
    merged block takes the neighbour's place in the free list. *)
Lemma myfree_coalesce (s : Explicit.state) (pre post : list block) (sz rs : Z) :
  heap_inv s (pre ++ (sz, false) :: (rs, true) :: post) ->
  let a := Explicit.segment_start (glob s) in
  let b := a + total pre in
  let right := b + 8 + sz in
  exists s',
    Explicit.myfree (b + 8) s = Ok tt s'
    /\ heap_inv s' (pre ++ (sz + 8 + rs, true) :: post)
    /\ same_segment s s'
    /\ same_outside (mem s) (mem s')
         ((b, b + 24) :: (right, right + 8)
            :: link_ranges (free_addrs a pre ++ free_addrs (right + 8 + rs) post))
    /\ load64 (mem s') (b + 8) = load64 (mem s) (right + 8)
    /\ load64 (mem s') (b + 16) = load64 (mem s) (right + 16).
Proof.
  intros Hinv a b right.
  assert (Hinv' : heap_inv s ((pre ++ [(sz, false)]) ++ (rs, true) :: post)).
  { rewrite <- app_assoc. exact Hinv. }
  pose proof (free_block_facts s _ post rs Hinv')
    as (Ha & Hb & He & Hz1 & Hz2 & Hhd & Hpv & Hnx & Efl & Hc1 & Hc2 & Hle).
  fold a in Ha, Hb, He, Hhd, Hpv, Hnx, Efl, Hc1, Hc2, Hle.
  rewrite total_app in *. cbn [total bsize fst] in *.
  replace (a + (total pre + (8 + sz + 0))) with right in * by (unfold right, b; lia).
  rewrite free_addrs_app in *. cbn [free_addrs bfree snd] in *.
  rewrite app_nil_r in *. fold b in Efl, Hc1, Hpv.
  pose proof (inv_bound _ _ Hinv) as Hbd.
  pose proof (inv_lo _ _ Hinv) as Hlo.
  pose proof (inv_hi _ _ Hinv) as Hhi.
  pose proof (inv_shape _ _ Hinv) as [Hheap Hend Hfl]. fold a in Hheap, Hend, Hfl.
  pose proof (Forall_app_l _ _ _ (inv_blocks _ _ Hinv)) as Ho1.
  pose proof (Forall_app_r _ _ _ (inv_blocks _ _ Hinv)) as Ho2.
  inversion Ho2 as [|? ? [Hs1 Hs2] Ho2']; subst. cbn [bsize fst] in Hs1, Hs2.
  inversion Ho2' as [|? ? _ Ho3]; subst.
  pose proof (total_nonneg _ Ho1). pose proof (total_nonneg _ Ho3).
  apply heap_at_app in Hheap. destruct Hheap as [Hpre [Hcur [_ Hpost]]].
  cbn [bsize fst header_word bfree snd] in Hcur, Hpost. fold b in Hcur, Hpost.
  fold right in Hpost.
  rewrite total_app in Hend. cbn [total bsize fst] in Hend.
  pose proof (chain_le _ _ _ Hc1) as Hb1.
  assert (Hc1b : chain a (free_addrs a pre) b).
  { apply free_addrs_chain. exact Ho1. }
  replace (free_addrs a (pre ++ (sz, false) :: (rs, true) :: post))
    with (free_addrs a pre ++ right :: free_addrs (right + 8 + rs) post) in Hfl.
  2:{ rewrite free_addrs_app. cbn [free_addrs bfree bsize snd fst]. reflexivity. }
  unfold Explicit.myfree, Explicit.HEADER_LENGTH.
  ztest. replace (b + 8 - 8) with b by lia.
  rewrite bind_read by lia. rewrite Hcur.
  rewrite used_header_size by (rewrite ?two64_eq in *; lia).
  fold right.
  unfold Explicit.status_of_right. rewrite bind_assoc, bind_get. ztest.
  rewrite bind_assoc, bind_read by lia. rewrite Hhd, bind_ret.
  rewrite free_header_status by exact Hz2.
  change (7 =? Explicit.FREE) with true. cbv match.
  rewrite bind_read by lia. rewrite Hhd.
  rewrite free_header_size by (rewrite ?two64_eq in *; lia).
  rewrite bind_write by lia.
  rewrite !wadd_small by (rewrite ?wadd_small; rewrite ?two64_eq in *; lia).
  replace (Z.lor (sz + 8 + (rs + 7)) Explicit.FREE) with (sz + 8 + rs + 7)
    by (unfold Explicit.FREE; rewrite lor_7; zlia).
  rewrite bind_write by (cbn [heap_lo heap_hi]; lia).
  cbn [mem heap_lo heap_hi glob].
  set (m2 := store64 (store64 (mem s) right rs) b (sz + 8 + rs + 7)).
  set (s2 := Machine m2 (heap_lo s) (heap_hi s) (glob s)).
  assert (Hso2 : same_outside (mem s) m2 [(right, right + 8); (b, b + 8)]).
  { apply same_outside_step; [apply same_outside_step|].
    - apply same_outside_refl.
    - exists right, (right + 8). split; [now left | lia].
    - exists b, (b + 8). split; [right; now left | lia]. }
  assert (Hfl2 : flist s2 (free_addrs a pre ++ right :: free_addrs (right + 8 + rs) post)).
  { destruct Hfl as [Hd Hh Ht Hn]. constructor; try assumption.
    cbn [s2 mem].
    apply (dll_same_outside _ _ _ _ _ _ Hd Hso2).
    intros lo' hi' x [Heq | [Heq | []]] Hx; inversion Heq; subst;
      apply in_app_or in Hx; destruct Hx as [Hx | [<- | Hx]];
      first [ pose proof (chain_In _ _ _ _ Hc1b Hx); unfold right; lia
            | pose proof (chain_In _ _ _ _ Hc2 Hx); unfold right; lia
            | unfold right; lia ]. }
  destruct (replace_node_spec s2 _ _ right b a (Explicit.segment_end (glob s))
              Hfl2)
    as (s' & Hrun & Hf' & Hseg & Hso); cbn [s2 heap_lo heap_hi]; try lia;
    try exact Hc1; try exact Hc1b.
  { apply chain_weaken with (1 := Hc2); lia. }
  { apply chain_weaken with (1 := Hc2); unfold right; lia. }
  change (replace_node right b s2 = Ok tt s') in Hrun.
  exists s'. split; [exact Hrun|].
  destruct Hseg as (G1 & G2 & G3 & G4).
  cbn [s2 heap_lo heap_hi glob mem] in G1, G2, G3, G4, Hso. fold a in G3.
  pose proof (same_outside_trans _ _ _ _ _ Hso2 Hso) as Hall.
  assert (Hcover : forall lo hi,
             In (lo, hi) ([(right, right + 8); (b, b + 8)]
                          ++ link_ranges (free_addrs a pre
                               ++ b :: free_addrs (right + 8 + rs) post)) ->
             (b <= lo /\ hi <= b + 24) \/ (lo = right /\ hi = right + 8)
             \/ In (lo, hi) (link_ranges (free_addrs a pre
                               ++ free_addrs (right + 8 + rs) post))).
  { intros lo hi Hin. apply in_app_or in Hin.
    destruct Hin as [[Heq | [Heq | []]] | Hin].
    - inversion Heq; subst. right. left. split; reflexivity.
    - inversion Heq; subst. left. lia.
    - apply link_ranges_In in Hin. destruct Hin as (y & Hy & -> & ->).
      apply in_app_or in Hy. destruct Hy as [Hy | [<- | Hy]].
      + right. right. apply In_link_ranges. apply in_or_app. now left.
      + left. lia.
      + right. right. apply In_link_ranges. apply in_or_app. now right. }
  split; [|split; [repeat split; assumption|split]].
  - constructor; rewrite ?G1, ?G2, ?G3, ?G4; try assumption.
    + constructor; rewrite ?G3, ?G4.
      * apply heap_at_app. split; [|split].
        -- apply (heap_at_same_outside _ _ _ _ _ Ho1 Hpre Hall).
           intros lo hi Hin. destruct (Hcover lo hi Hin) as [K | [K | K]].
           ++ fold b. lia.
           ++ fold b. unfold right in K. lia.
           ++ apply link_ranges_In in K. destruct K as (y & Hy & -> & ->).
              apply in_app_or in Hy. destruct Hy as [Hy | Hy].
              ** right. right. exists y. split; [exact Hy | lia].
              ** pose proof (chain_In _ _ _ _ Hc2 Hy). fold b.
                 unfold right in *. lia.
        -- fold b. cbn [header_word bfree bsize snd fst].
           rewrite (same_outside_load _ _ _ b Hso).
           { unfold m2. apply load64_store64_same. rewrite ?two64_eq in *.
             unfold right in *. lia. }
           intros lo hi Hin.
           apply link_ranges_In in Hin. destruct Hin as (y & Hy & -> & ->).
           apply in_app_or in Hy. destruct Hy as [Hy | [<- | Hy]].
           ++ pose proof (chain_In _ _ _ _ Hc1b Hy). lia.
           ++ lia.
           ++ pose proof (chain_In _ _ _ _ Hc2 Hy). unfold right in *. lia.
        -- fold b. cbn [bsize fst].
           replace (b + 8 + (sz + 8 + rs)) with (right + 8 + rs)
             by (unfold right; lia).
           apply (heap_at_same_outside _ _ _ _ _ Ho3 Hpost Hall).
           intros lo hi Hin. destruct (Hcover lo hi Hin) as [K | [K | K]].
           ++ unfold right. lia.
           ++ lia.
           ++ apply link_ranges_In in K. destruct K as (y & Hy & -> & ->).
              apply in_app_or in Hy. destruct Hy as [Hy | Hy].
              ** pose proof (chain_In _ _ _ _ Hc1b Hy). unfold right. lia.
              ** right. right. exists y. split; [exact Hy | lia].
      * rewrite !total_app. cbn [total bsize fst]. lia.
      * rewrite !free_addrs_app. fold b.
        cbn [free_addrs bfree bsize snd fst].
        replace (b + 8 + (sz + 8 + rs)) with (right + 8 + rs)
          by (unfold right; lia).
        exact Hf'.
    + apply Forall_app. split; [exact Ho1|].
      constructor; [split; cbn [bsize fst]; [lia | zlia] | exact Ho3].
  - apply same_outside_weaken with (1 := Hall).
    intros lo hi Hin. destruct (Hcover lo hi Hin) as [K | [[-> ->] | K]].
    + exists b, (b + 24). split; [now left | lia].
    + exists right, (right + 8). split; [right; now left | lia].
    + exists lo, hi. split; [right; now right | lia].
  - (* the links of the merged block are those the right neighbour had *)
    destruct Hfl as [Hd _ _ _]. destruct Hf' as [Hd' _ _ _].
    apply dll_app in Hd, Hd'.
    destruct Hd as [_ (Hp0 & Hn0 & _)]. destruct Hd' as [_ (Hp1 & Hn1 & _)].
    rewrite Hp1, Hn1, Hp0, Hn0. split; reflexivity.
Qed.

Lemma myfree_spec (s : Explicit.state) (pre post : list block) (sz : Z) :
  heap_inv s (pre ++ (sz, false) :: post) ->
  let b := Explicit.segment_start (glob s) + total pre in
  exists s',
    Explicit.myfree (b + 8) s = Ok tt s'
    /\ heap_inv s' (pre ++ freed sz post)
    /\ same_segment s s'.
Proof.
  intros Hinv b.
  assert (Hplain : starts_used post ->
            exists s', Explicit.myfree (b + 8) s = Ok tt s'
                       /\ heap_inv s' (pre ++ (sz, true) :: post)
                       /\ same_segment s s').
  { intros Hu.
    pose proof (hole_of_inv s pre [(sz, false)] post Hinv eq_refl) as Hh.
    cbn [total bsize fst] in Hh. fold b in Hh.
    pose proof (Forall_app_r _ _ _ (inv_blocks _ _ Hinv)) as Ho2.
    inversion Ho2 as [|? ? [Hs1 Hs2] _]; subst. cbn [bsize fst] in Hs1, Hs2.
    pose proof (inv_shape _ _ Hinv) as [Hheap _ _].
    apply heap_at_app in Hheap. destruct Hheap as [_ [Hcur _]].
    cbn [header_word bfree bsize snd fst] in Hcur. fold b in Hcur.
    pose proof (inv_bound _ _ Hinv). pose proof (inv_start _ _ Hinv).
    pose proof (hole_end _ _ _ _ Hh).
    pose proof (total_nonneg _ (hole_ok_post _ _ _ _ Hh)).
    pose proof (total_nonneg _ (hole_ok_pre _ _ _ _ Hh)).
    destruct (myfree_hole s pre post sz (b + (8 + sz + 0)) Hh)
      as (s' & Hrun & Hinv' & Hseg & _).
    - fold b. lia.
    - split; assumption.
    - exact Hu.
    - fold b. rewrite Hcur. apply used_header_size; [|exact Hs2].
      rewrite ?two64_eq in *. unfold b. lia.
    - exists s'. split; [exact Hrun | split; [exact Hinv' | exact Hseg]]. }
  destruct post as [|[rs [|]] post].
  - apply Hplain. exact I.
  - destruct (myfree_coalesce s pre post sz rs Hinv)
      as (s' & Hrun & Hinv' & Hseg & _).
    exists s'. split; [exact Hrun | split; [exact Hinv' | exact Hseg]].
  - apply Hplain. reflexivity.
Qed.

(* ================================================================= *)
(** ** [myrealloc]: absorbing the FREE blocks on the right *)

Lemma total_mark_used (bl : list block) : total (mark_used bl) = total bl.
Proof.
  induction bl as [|b bl IH]; [reflexivity|].
  cbn [mark_used map total bsize fst] in *. unfold mark_used in IH. lia.
Qed.

Lemma free_addrs_mark_used (a : Z) (bl : list block) :
  free_addrs a (mark_used bl) = [].
Proof.
  revert a. induction bl as [|b bl IH]; intros a; [reflexivity|].
  cbn [mark_used map free_addrs bfree snd bsize fst]. apply IH.
Qed.

Lemma block_ok_mark_used (bl : list block) :
  Forall block_ok bl -> Forall block_ok (mark_used bl).
Proof.
  induction 1 as [|b bl Hb _ IH]; [constructor|].
  cbn [mark_used map]. constructor; [exact Hb | exact IH].
Qed.

Lemma absorb_loop_spec (fs : list block) :
  forall (s : Explicit.state) (pre post : list block) (cs hi : Z) (fuel : nat),
    hole s pre (fs ++ post) hi ->
    all_free fs -> starts_used post ->
    hi = Explicit.segment_start (glob s) + total pre + 8 + cs -> 0 <= cs ->
    (length fs < fuel)%nat ->
    exists s',
      Explicit.absorb_loop fuel
        (Explicit.segment_start (glob s) + total pre) cs hi
        (status_val (fs ++ post)) s
      = Ok (cs + total fs) s'
      /\ hole s' pre post (hi + total fs)
      /\ heap_at (mem s') hi (mark_used fs)
      /\ same_segment s s'
      /\ same_outside (mem s) (mem s')
           ((hi, hi + total fs)
              :: link_ranges (free_addrs (Explicit.segment_start (glob s)) pre
                              ++ free_addrs (hi + total fs) post)).
Proof.
  induction fs as [|[rs f] fs IH];
    intros s pre post cs hi fuel H Hfree Hused Ehi Hcs Hfuel.
  - destruct fuel as [|fuel]; [simpl in Hfuel; lia|].
    cbn [app total mark_used map heap_at]. rewrite !Z.add_0_r.
    cbn [Explicit.absorb_loop].
    assert (Hst : status_val post <> Explicit.FREE).
    { destruct post as [|[z g] post]; [discriminate|].
      cbn [starts_used bfree snd] in Hused. subst g. discriminate. }
    rewrite (proj2 (Z.eqb_neq _ _) Hst).
    exists s. split; [reflexivity|]. split; [exact H|]. split; [exact I|].
    split; [apply same_segment_refl | apply same_outside_refl].
  - destruct fuel as [|fuel]; [simpl in Hfuel; lia|].
    pose proof (Forall_inv Hfree) as Hf.
    pose proof (Forall_inv_tail Hfree) as Hfree'. cbn [bfree snd] in Hf. subst f.
    change (((rs, true) :: fs) ++ post) with ((rs, true) :: (fs ++ post)) in *.
    pose proof H as [H1 H2 He Hfl Hs Hb Hlo Hhi Ho1 Ho2 Hsz].
    pose proof (Forall_inv Ho2) as [Hr1 Hr2].
    pose proof (Forall_inv_tail Ho2) as Ho3. cbn [bsize fst] in Hr1, Hr2.
    pose proof (total_nonneg _ Ho1). pose proof (total_nonneg _ Ho3).
    pose proof (total_nonneg _ (Forall_app_l _ _ _ Ho3)) as Hfs.
    pose proof (total_nonneg _ (Forall_app_r _ _ _ Ho3)) as Hps.
    cbn [total bsize fst] in He. rewrite total_app in He.
    destruct H2 as [Hhdr _]. cbn [header_word bfree bsize snd fst] in Hhdr.
    cbn [status_val bfree snd Explicit.absorb_loop].
    change (Explicit.FREE =? Explicit.FREE) with true. cbv match.
    rewrite bind_read by lia. rewrite Hhdr.
    rewrite free_header_size by (rewrite ?two64_eq in *; lia).
    rewrite used_header_size by (rewrite ?two64_eq in *; lia).
    rewrite bind_write by lia.
    destruct (hole_take s pre (fs ++ post) rs hi rs H)
      as (s1 & Hrun & Hh1 & Hseg1 & Hso1 & Hld1).
    rewrite (bind_ok _ _ _ _ _ Hrun).
    unfold Explicit.HEADER_LENGTH.
    rewrite !wadd_small by (rewrite ?wadd_small; rewrite ?two64_eq in *; lia).
    replace (Explicit.segment_start (glob s) + total pre + 8 + (cs + (8 + rs)))
      with (hi + 8 + rs) by lia.
    rewrite (bind_ok _ _ _ _ _ (status_of_right_spec _ _ _ _ Hh1)).
    destruct Hseg1 as (G1 & G2 & G3 & G4).
    destruct (IH s1 pre post (cs + (8 + rs)) (hi + 8 + rs) fuel Hh1 Hfree' Hused)
      as (s' & Hrun' & Hh' & Hheap' & Hseg' & Hso');
      [rewrite G3; lia | lia | simpl in Hfuel; lia |].
    rewrite G3 in Hrun', Hso'. rewrite Hrun'.
    exists s'. split; [f_equal; cbn [total bsize fst]; lia|].
    cbn [total bsize fst].
    replace (hi + (8 + rs + total fs)) with (hi + 8 + rs + total fs) by lia.
    split; [exact Hh'|].
    destruct (hole_chain _ _ _ _ Hh') as [Hc1' Hc2'].
    destruct Hseg' as (G1' & G2' & G3' & G4').
    rewrite G3', G3 in Hc1'. rewrite G4', G4 in Hc2'.
    split; [|split; [repeat split; congruence|]].
    + cbn [mark_used map heap_at header_word bfree bsize snd fst]. split.
      * rewrite (same_outside_load _ _ _ hi Hso').
        { apply Hld1. rewrite ?two64_eq in *. lia. }
        intros lo hi' [Heq | Hin].
        -- inversion Heq; subst lo hi'. lia.
        -- apply link_ranges_In in Hin. destruct Hin as (y & Hy & -> & ->).
           apply in_app_or in Hy. destruct Hy as [Hy | Hy].
           ++ pose proof (chain_In _ _ _ _ Hc1' Hy). lia.
           ++ pose proof (chain_In _ _ _ _ Hc2' Hy). lia.
      * exact Hheap'.
    + pose proof (same_outside_trans _ _ _ _ _ Hso1 Hso') as Hall.
      apply same_outside_weaken with (1 := Hall).
      intros lo hi' Hin. apply in_app_or in Hin.
      destruct Hin as [[Heq | Hin] | [Heq | Hin]].
      * inversion Heq; subst lo hi'.
        exists hi, (hi + 8 + rs + total fs). split; [now left | lia].
      * apply link_ranges_In in Hin. destruct Hin as (y & Hy & -> & ->).
        apply in_app_or in Hy. destruct Hy as [Hy | Hy].
        -- exists (y + 8), (y + 24). split; [|lia]. right.
           apply In_link_ranges. apply in_or_app. now left.
        -- rewrite free_addrs_app in Hy. apply in_app_or in Hy.
           destruct Hy as [Hy | Hy].
           ++ pose proof (free_addrs_bounds _ _ _ (Forall_app_l _ _ _ Ho3) Hy).
              exists hi, (hi + 8 + rs + total fs). split; [now left | lia].
           ++ exists (y + 8), (y + 24). split; [|lia]. right.
              apply In_link_ranges. apply in_or_app. now right.
      * inversion Heq; subst lo hi'.
        exists hi, (hi + 8 + rs + total fs). split; [now left | lia].
      * exists lo, hi'. split; [now right | lia].
Qed.

Lemma myrealloc_absorb (s : Explicit.state) (pre fs post : list block)
  (sz r : Z) :
  heap_inv s (pre ++ (sz, false) :: fs ++ post) ->
  all_free fs -> starts_used post ->
  let a := Explicit.segment_start (glob s) in
  let b := a + total pre in
  exists s1,
    Explicit.myrealloc (b + 8) r s
    = realloc_finish (b + 8) r sz (sz + total fs) s1
    /\ absorbed s1 pre sz fs post
    /\ same_segment s s1
    /\ same_outside (mem s) (mem s1)
         ((b + 8 + sz, b + 8 + sz + total fs)
            :: link_ranges (free_addrs a pre
                            ++ free_addrs (b + 8 + sz + total fs) post)).
Proof.
  intros Hinv Hfree Hused a b.
  pose proof (hole_of_inv s pre [(sz, false)] (fs ++ post) Hinv eq_refl) as Hh.
  cbn [total bsize fst] in Hh. fold a b in Hh.
  replace (b + (8 + sz + 0)) with (b + 8 + sz) in Hh by lia.
  pose proof (Forall_app_r _ _ _ (inv_blocks _ _ Hinv)) as Ho2.
  pose proof (Forall_inv Ho2) as Hsz. pose proof Hsz as [Hs1 Hs2].
  cbn [bsize fst] in Hs1, Hs2.
  pose proof (Forall_app_l _ _ _ (Forall_inv_tail Ho2)) as Hofs.
  pose proof (inv_shape _ _ Hinv) as [Hheap Hend _].
  apply heap_at_app in Hheap. destruct Hheap as [_ [Hcur _]].
  cbn [header_word bfree bsize snd fst] in Hcur. fold a b in Hcur.
  pose proof (inv_bound _ _ Hinv). pose proof (inv_start _ _ Hinv).
  pose proof (inv_lo _ _ Hinv). pose proof (inv_hi _ _ Hinv).
  pose proof (hole_end _ _ _ _ Hh) as He.
  pose proof (total_nonneg _ (hole_ok_post _ _ _ _ Hh)).
  pose proof (total_nonneg _ (hole_ok_pre _ _ _ _ Hh)).
  fold a in H0, H1.
  assert (Hfuel : (length fs < Explicit.heap_fuel s)%nat).
  { unfold Explicit.heap_fuel. fold a.
    pose proof (total_length _ (hole_ok_post _ _ _ _ Hh)) as Hl.
    rewrite length_app in Hl. lia. }
  destruct (absorb_loop_spec fs s pre post sz (b + 8 + sz) _ Hh Hfree Hused
              ltac:(fold a b; lia) ltac:(lia) Hfuel)
    as (s1 & Hrun & Hh1 & Hmk & Hseg & Hso).
  fold a b in Hrun, Hso.
  exists s1. split; [|split; [|split; [exact Hseg | exact Hso]]].
  - unfold Explicit.myrealloc, Explicit.HEADER_LENGTH.
    ztest. replace (b + 8 - 8) with b by lia.
    rewrite bind_read by lia. rewrite Hcur.
    rewrite used_header_size by (rewrite ?two64_eq in *; unfold b in *; lia).
    rewrite (bind_ok _ _ _ _ _ (status_of_right_spec _ _ _ _ Hh)).
    rewrite bind_current_fuel.
    rewrite (bind_ok _ _ _ _ _ Hrun).
    unfold realloc_finish, Explicit.HEADER_LENGTH.
    replace (b + 8 - 8) with b by lia. reflexivity.
  - destruct Hseg as (G1 & G2 & G3 & G4). fold a in G3.
    destruct (hole_chain _ _ _ _ Hh1) as [Hc1 Hc2].
    rewrite G3 in Hc1. rewrite G4 in Hc2. fold b in Hc1.
    constructor; rewrite ?G3; fold a b; try assumption.
    rewrite (same_outside_load _ _ _ b Hso); [exact Hcur|].
    intros lo hi [Heq | Hin].
    + inversion Heq; subst lo hi. lia.
    + apply link_ranges_In in Hin. destruct Hin as (y & Hy & -> & ->).
      apply in_app_or in Hy. destruct Hy as [Hy | Hy].
      * pose proof (chain_In _ _ _ _ Hc1 Hy). lia.
      * pose proof (chain_In _ _ _ _ Hc2 Hy).
        pose proof (total_nonneg _ Hofs). lia.
Qed.

(* ================================================================= *)
(** ** [myrealloc]: resizing in place *)

Lemma finish_inplace (s1 : Explicit.state) (pre fs post : list block)
  (sz r : Z) :
  absorbed s1 pre sz fs post ->
  0 <= r <= two64 - 8 ->
  Explicit.roundup r ALIGNMENT <= sz + total fs ->
  let a := Explicit.segment_start (glob s1) in
  let b := a + total pre in
  let needed := Explicit.roundup r ALIGNMENT in
  let cs := sz + total fs in
  exists s',
    realloc_finish (b + 8) r sz cs s1 = Ok (b + 8) s'
    /\ heap_inv s' (pre ++ placed needed cs ++ post)
    /\ same_segment s1 s'
    /\ same_outside (mem s1) (mem s')
         ((b, b + 8) :: (b + 8 + needed, b + 8 + cs)
            :: link_ranges (free_addrs a pre ++ free_addrs (b + 8 + cs) post)).
Proof.
  intros [Hh Hhdr Hmk [Hs1 Hs2] Hofs Hu] Hr Hfit a b needed cs.
  cbn [bsize fst] in Hs1, Hs2.
  destruct (roundup_ok r Hr) as (R1 & R2 & R3 & R4).
  fold needed in R1, R2, R3, R4, Hfit. fold cs in Hfit.
  fold a b in Hh, Hhdr, Hmk.
  replace (b + 8 + sz + total fs) with (b + 8 + cs) in Hh by (unfold cs; lia).
  pose proof Hh as [H1 H2 He Hfl Hs Hb Hlo Hhi Ho1 Ho2 Hsz].
  fold a b in H1, He, Hfl, Hs, Hsz.
  pose proof (total_nonneg _ Ho1). pose proof (total_nonneg _ Ho2).
  pose proof (total_nonneg _ Hofs). pose proof (total_mod8 _ Hofs).
  assert (Hcs : 16 <= cs /\ cs mod 8 = 0) by (unfold cs; split; [lia | zlia]).
  destruct Hcs as [Hcs1 Hcs2].
  unfold realloc_finish, Explicit.HEADER_LENGTH. fold needed.
  replace (b + 8 - 8) with b by lia.
  ztest. ztest.
  rewrite wsub_small by (rewrite ?two64_eq in *; lia).
  change (wadd 8 Explicit.MIN_BLOCK_SIZE) with 24.
  unfold placed.
  destruct (Z_lt_ge_dec (cs - needed) 24) as [Hlt | Hge];
    [rewrite (proj2 (Z.ltb_lt _ _)) by exact Hlt
    |rewrite (proj2 (Z.ltb_ge _ _)) by lia]; cbv match.
  - rewrite used_header_size by (rewrite ?two64_eq in *; lia).
    rewrite bind_write by lia.
    set (s' := Machine (store64 (mem s1) b cs) (heap_lo s1) (heap_hi s1)
                 (glob s1)).
    exists s'. split; [reflexivity|].
    assert (Hh' : hole s' pre post (b + 8 + cs)).
    { apply (hole_frame s1 pre post _ _ Hh). fold a b.
      apply same_outside_step; [apply same_outside_refl|].
      exists b, (b + 8 + cs). split; [now left | lia]. }
    split; [|split; [unfold same_segment; cbn [s' heap_lo heap_hi glob]; repeat split|]].
    + apply (inv_of_hole s' pre [(cs, false)] post (b + 8 + cs) Hh').
      * constructor; [split; assumption | constructor].
      * cbn [s' glob mem heap_at header_word bfree bsize snd fst]. fold a b.
        split; [|exact I]. apply load64_store64_same.
        rewrite ?two64_eq in *. lia.
      * cbn [s' glob total bsize fst]. fold a b. lia.
      * reflexivity.
    + cbn [s' mem]. apply same_outside_step; [apply same_outside_refl|].
      exists b, (b + 8). split; [now left | lia].
  - rewrite used_header_size by (rewrite ?two64_eq in *; lia).
    rewrite !wsub_small by (rewrite ?two64_eq in *; lia).
    rewrite lor_free by zlia.
    rewrite bind_assoc, bind_write by lia. cbn beta zeta.
    rewrite bind_assoc, bind_write by (cbn [heap_lo heap_hi]; lia).
    cbn [mem heap_lo heap_hi glob].
    set (np := b + 8 + needed).
    set (rem := cs - needed - 8).
    set (m2 := store64 (store64 (mem s1) b needed) np (rem + 7)).
    set (s2 := Machine m2 (heap_lo s1) (heap_hi s1) (glob s1)).
    assert (Hso2 : same_outside (mem s1) m2 [(b, b + 8); (np, np + 8)]).
    { apply same_outside_step; [apply same_outside_step|].
      - apply same_outside_refl.
      - exists b, (b + 8). split; [now left | lia].
      - exists np, (np + 8). split; [right; now left | lia]. }
    assert (Hh2 : hole s2 pre post (b + 8 + cs)).
    { apply (hole_frame s1 pre post _ _ Hh). fold a b.
      apply same_outside_weaken with (1 := Hso2).
      intros lo hi [Heq | [Heq | []]]; inversion Heq; subst lo hi;
        exists b, (b + 8 + cs); (split; [now left | unfold np; lia]). }
    assert (Hh3 : hole s2 (pre ++ [(needed, false)]) post (b + 8 + cs)).
    { apply hole_push_used; [exact Hh2 | | split; assumption |].
      - cbn [s2 glob mem]. fold a b. unfold m2.
        rewrite load64_store64_other by (unfold np; lia).
        apply load64_store64_same. rewrite ?two64_eq in *. lia.
      - cbn [s2 glob]. fold a b. lia. }
    destruct (hole_insert s2 (pre ++ [(needed, false)]) post rem (b + 8 + cs) Hh3)
      as (s' & Hrun & Hinv & Hseg & Hso).
    { cbn [s2 glob]. fold a. rewrite total_app. cbn [total bsize fst].
      unfold rem, b. lia. }
    { split; cbn [bsize fst]; unfold rem; [lia | zlia]. }
    { cbn [s2 glob mem]. fold a. rewrite total_app. cbn [total bsize fst].
      replace (a + (total pre + (8 + needed + 0))) with np by (unfold np, b; lia).
      unfold m2. apply load64_store64_same. unfold rem.
      rewrite ?two64_eq in *. lia. }
    cbn [s2 glob mem] in Hrun, Hso. fold a in Hrun, Hso.
    rewrite total_app in Hrun, Hso. cbn [total bsize fst] in Hrun, Hso.
    replace (a + (total pre + (8 + needed + 0))) with np in Hrun, Hso
      by (unfold np, b; lia).
    rewrite (bind_ok _ _ _ _ _ Hrun).
    exists s'. split; [reflexivity|].
    split; [|split; [exact Hseg|]].
    + rewrite <- app_assoc in Hinv. exact Hinv.
    + pose proof (same_outside_trans _ _ _ _ _ Hso2 Hso) as Hall.
      apply same_outside_weaken with (1 := Hall).
      intros lo hi Hin. apply in_app_or in Hin.
      destruct Hin as [[Heq | [Heq | []]] | Hin].
      * inversion Heq; subst lo hi. exists b, (b + 8). split; [now left | lia].
      * inversion Heq; subst lo hi. exists np, (b + 8 + cs).
        split; [right; now left | lia].
      * apply link_ranges_In in Hin. destruct Hin as (y & Hy & -> & ->).
        rewrite free_addrs_app in Hy. cbn [free_addrs bfree snd] in Hy.
        rewrite app_nil_r in Hy.
        apply in_app_or in Hy. destruct Hy as [Hy | [<- | Hy]].
        -- exists (y + 8), (y + 24). split; [|lia]. right. right.
           apply In_link_ranges. apply in_or_app. now left.
        -- exists np, (b + 8 + cs). split; [right; now left | unfold rem in *; lia].
        -- exists (y + 8), (y + 24). split; [|lia]. right. right.
           apply In_link_ranges. apply in_or_app. now right.
Qed.

(* ================================================================= *)
(** ** [myrealloc]: moving the block *)

Lemma absorbed_inv (s1 : Explicit.state) (pre fs post : list block) (sz : Z) :
  absorbed s1 pre sz fs post ->
  heap_inv s1 (pre ++ ((sz, false) :: mark_used fs) ++ post).
Proof.
  intros [Hh Hhdr Hmk Hok Hofs Hu].
  apply (inv_of_hole s1 pre _ post _ Hh).
  - constructor; [exact Hok | now apply block_ok_mark_used].
  - cbn [heap_at header_word bfree bsize snd fst]. split; [exact Hhdr | exact Hmk].
  - cbn [total bsize fst]. rewrite total_mark_used. lia.
  - cbn [free_addrs bfree snd]. apply free_addrs_mark_used.
Qed.

Lemma too_small_app (n : Z) (l1 l2 : list block) :
  too_small n (l1 ++ l2) <-> too_small n l1 /\ too_small n l2.
Proof. apply Forall_app. Qed.

Lemma too_small_used (n : Z) (bl : list block) :
  all_used bl -> too_small n bl.
Proof.
  intros H. unfold too_small. rewrite Forall_forall.
  unfold all_used in H. rewrite Forall_forall in H.
  intros b Hb Hf. rewrite (H b Hb) in Hf. discriminate.
Qed.

Lemma all_used_mark (bl : list block) : all_used (mark_used bl).
Proof.
  unfold all_used, mark_used. rewrite Forall_forall. intros b Hb.
  apply in_map_iff in Hb. destruct Hb as (c & <- & _). reflexivity.
Qed.

(** When the absorbed block is still too small and no FREE block fits, the
    inner [mymalloc] runs off the free list. *)
Lemma finish_no_fit (s1 : Explicit.state) (pre fs post : list block)
  (sz r : Z) :
  absorbed s1 pre sz fs post ->
  sz + total fs < Explicit.roundup r ALIGNMENT ->
  too_small (Explicit.roundup r ALIGNMENT) (pre ++ post) ->
  realloc_finish (Explicit.segment_start (glob s1) + total pre + 8) r sz
    (sz + total fs) s1
  = Fault s1.
Proof.
  intros Habs Hlt Hsmall. pose proof (absorbed_inv _ _ _ _ _ Habs) as Hinv.
  unfold realloc_finish. ztest. ztest.
  apply bind_fault. apply (mymalloc_no_fit s1 _ r Hinv).
  apply too_small_app in Hsmall. destruct Hsmall as [S1 S2].
  apply too_small_app. split; [exact S1|].
  apply too_small_app. split; [|exact S2].
  apply too_small_used. constructor; [reflexivity | apply all_used_mark].
Qed.

Lemma total_placed (needed sz : Z) : total (placed needed sz) = 8 + sz.
Proof.
  unfold placed. destruct (sz - needed <? 24); cbn [total bsize fst]; lia.
Qed.

Lemma placed_head (needed sz : Z) :
  needed <= sz ->
  exists n rest, placed needed sz = (n, false) :: rest /\ needed <= n.
Proof.
  intros H. unfold placed. destruct (sz - needed <? 24).
  - exists sz, []. split; [reflexivity | exact H].
  - exists needed, [(sz - needed - 8, true)]. split; [reflexivity | lia].
Qed.

Lemma finish_move (s1 : Explicit.state) (pre fs post pre2 post2 : list block)
  (sz sz2 r : Z) :
  absorbed s1 pre sz fs post ->
  0 <= r <= two64 - 8 ->
  let needed := Explicit.roundup r ALIGNMENT in
  let cs := sz + total fs in
  let a := Explicit.segment_start (glob s1) in
  let b := a + total pre in
  let b2 := a + total pre2 in
  cs < needed ->
  pre ++ ((sz, false) :: mark_used fs) ++ post = pre2 ++ (sz2, true) :: post2 ->
  too_small needed pre2 -> needed <= sz2 ->
  exists s' preB postB,
    realloc_finish (b + 8) r sz cs s1 = Ok (b2 + 8) s'
    /\ heap_inv s' (preB ++ (cs, true) :: postB)
    /\ same_segment s1 s'
    /\ (forall i, 0 <= i < sz -> mem s' (b2 + 8 + i) = mem s1 (b + 8 + i))
    /\ ((exists mid, pre = pre2 ++ (sz2, true) :: mid
                     /\ preB = pre2 ++ placed needed sz2 ++ mid
                     /\ postB = post)
        \/ (exists mid, post = mid ++ (sz2, true) :: post2
                        /\ preB = pre
                        /\ postB = mid ++ placed needed sz2 ++ post2)).
Proof.
  intros Habs Hr needed cs a b b2 Hlt E Hsmall Hfit.
  pose proof (absorbed_inv _ _ _ _ _ Habs) as Hinv1.
  destruct Habs as [Hh Hhdr Hmk [Hs1 Hs2] Hofs Hu]. cbn [bsize fst] in Hs1, Hs2.
  destruct (roundup_ok r Hr) as (R1 & R2 & R3 & R4).
  fold needed in R1, R2, R3, R4.
  set (MID := (sz, false) :: mark_used fs) in *.
  set (L1 := pre ++ MID ++ post) in *.
  pose proof (inv_blocks _ _ Hinv1) as HokL1.
  pose proof (total_nonneg _ Hofs) as Hfs0.
  pose proof (total_mod8 _ Hofs) as Hfs8.
  (* the inner allocation *)
  pose proof Hinv1 as Hinv1'. rewrite E in Hinv1'.
  destruct (mymalloc_fit s1 pre2 post2 sz2 r Hinv1' Hr Hsmall Hfit)
    as (s2 & Hrun2 & Hinv2 & Hseg2 & Hso2).
  fold a b2 needed in Hrun2, Hinv2, Hso2.
  destruct Hseg2 as (G1 & G2 & G3 & G4). fold a in G3.
  set (L2 := pre2 ++ placed needed sz2 ++ post2) in *.
  pose proof (inv_blocks _ _ Hinv2) as HokL2.
  (* the block lists around the old block *)
  assert (Hsplit : exists preB postB,
             L2 = preB ++ MID ++ postB /\ total preB = total pre
             /\ starts_used postB
             /\ ((exists mid, pre = pre2 ++ (sz2, true) :: mid
                              /\ preB = pre2 ++ placed needed sz2 ++ mid
                              /\ postB = post)
                 \/ (exists mid, post = mid ++ (sz2, true) :: post2
                                 /\ preB = pre
                                 /\ postB = mid ++ placed needed sz2 ++ post2))).
  { assert (Hnin : ~ In (sz2, true) MID).
    { intros [Heq | Hin]; [discriminate|].
      unfold mark_used in Hin. apply in_map_iff in Hin.
      destruct Hin as (c & Hc & _). discriminate. }
    destruct (app_cons_split _ _ _ _ _ _ E Hnin)
      as [(mid & E1 & E2) | (mid & E1 & E2)].
    - exists (pre2 ++ placed needed sz2 ++ mid), post.
      split; [|split; [|split; [exact Hu|]]].
      + unfold L2. rewrite E2, <- !app_assoc. reflexivity.
      + rewrite E1, !total_app, total_placed. cbn [total bsize fst]. lia.
      + left. exists mid. repeat split; assumption.
    - exists pre, (mid ++ placed needed sz2 ++ post2).
      split; [|split; [reflexivity|split]].
      + unfold L2. rewrite E2, <- !app_assoc. reflexivity.
      + destruct mid as [|c mid].
        * destruct (placed_head needed sz2 Hfit) as (n & rest & -> & _).
          reflexivity.
        * rewrite E1 in Hu. exact Hu.
      + right. exists mid. repeat split; assumption. }
  destruct Hsplit as (preB & postB & EL2 & Htot & HuB & Hstruct).
  destruct (placed_head needed sz2 Hfit) as (n2 & rest2 & Epl & Hn2).
  assert (HB2 : block_at a L2 b2 (n2, false)).
  { exists pre2, (rest2 ++ post2). unfold L2. rewrite Epl. split; reflexivity. }
  assert (HB : block_at a L2 b (sz, false)).
  { exists preB, (mark_used fs ++ postB). rewrite EL2. unfold b.
    split; [reflexivity | lia]. }
  assert (HB1 : block_at a L1 b (sz, false)).
  { exists pre, (mark_used fs ++ post). split; reflexivity. }
  assert (HF1 : block_at a L1 b2 (sz2, true)).
  { exists pre2, post2. unfold L1. split; [exact E | reflexivity]. }
  pose proof (block_at_bounds _ _ _ _ HokL2 HB2) as (X1 & X2 & _).
  pose proof (block_at_bounds _ _ _ _ HokL2 HB) as (X3 & X4 & _).
  cbn [bsize fst] in X2, X4.
  pose proof (inv_shape _ _ Hinv2) as [_ Hend2 _]. rewrite G3 in Hend2.
  pose proof (inv_start _ _ Hinv2) as Hst2. rewrite G3 in Hst2.
  pose proof (inv_bound _ _ Hinv2) as Hbd2.
  pose proof (inv_lo _ _ Hinv2) as Hlo2. rewrite G3 in Hlo2.
  pose proof (inv_hi _ _ Hinv2) as Hhi2.
  assert (Hdisj : b2 + 8 + n2 <= b \/ b + 8 + sz <= b2).
  { destruct (block_at_disjoint _ _ _ _ _ _ HokL2 HB2 HB) as [[_ K] | K];
      cbn [bsize fst] in *; [|exact K].
    inversion K. lia. }
  (* the copy *)
  set (m3 := copy_bytes (mem s2) (b2 + 8) (b + 8) sz).
  set (s3 := Machine m3 (heap_lo s2) (heap_hi s2) (glob s2)).
  assert (Hcp : memcpy (b2 + 8) (b + 8) sz s2 = Ok tt s3).
  { apply memcpy_ok; lia. }
  assert (Hinv3 : heap_inv s3 L2).
  { apply (heap_inv_frame s2 L2 m3 [(b2 + 8, b2 + 8 + sz)] Hinv2).
    - apply same_outside_copy.
    - intros lo hi [Heq | []]. inversion Heq; subst lo hi.
      exists b2, n2. rewrite G3. split; [exact HB2 | lia]. }
  (* the old block is marked FREE and freed *)
  set (s4 := Machine (store64 m3 b (cs + 7)) (heap_lo s2) (heap_hi s2) (glob s2)).
  assert (Hcs : 16 <= cs /\ cs mod 8 = 0) by (unfold cs; split; [lia | zlia]).
  destruct Hcs as [Hcs1 Hcs2].
  assert (Hh3 : hole s3 preB postB (b + 8 + cs)).
  { pose proof Hinv3 as Hinv3'. rewrite EL2 in Hinv3'.
    pose proof (hole_of_inv s3 preB MID postB Hinv3') as K.
    cbn [s3 glob] in K. rewrite G3 in K.
    replace (a + total preB + total MID) with (b + 8 + cs) in K.
    - apply K. cbn [MID free_addrs bfree snd]. apply free_addrs_mark_used.
    - unfold MID, b, cs. cbn [total bsize fst]. rewrite total_mark_used. lia. }
  assert (Hend3 : b + 8 + cs <= Explicit.segment_end (glob s2)).
  { pose proof (hole_end _ _ _ _ Hh3) as K. cbn [s3 glob] in K.
    pose proof (total_nonneg _ (hole_ok_post _ _ _ _ Hh3)). lia. }
  assert (Hh4 : hole s4 preB postB (b + 8 + cs)).
  { apply (hole_frame s3 preB postB _ _ Hh3). cbn [s3 glob mem]. rewrite G3.
    apply same_outside_step; [apply same_outside_refl|].
    exists (a + total preB), (b + 8 + cs). split; [now left | unfold b; lia]. }
  destruct (myfree_hole s4 preB postB cs (b + 8 + cs) Hh4)
    as (s' & Hrun' & Hinv' & Hseg' & Hso').
  { cbn [s4 glob]. rewrite G3. unfold b. lia. }
  { split; assumption. }
  { exact HuB. }
  { cbn [s4 glob mem]. rewrite G3, Htot. fold b.
    rewrite load64_store64_same by (rewrite ?two64_eq in *; lia).
    apply free_header_size; [lia | rewrite ?two64_eq in *; lia | exact Hcs2]. }
  cbn [s4 glob mem] in Hrun', Hso'. rewrite G3, Htot in Hrun', Hso'.
  fold b in Hrun', Hso'.
  exists s', preB, postB.
  split; [|split; [exact Hinv'|split; [|split; [|exact Hstruct]]]].
  - unfold realloc_finish. fold needed. ztest. ztest.
    rewrite (bind_ok _ _ _ _ _ Hrun2).
    unfold Explicit.myrealloc_move, Explicit.HEADER_LENGTH.
    replace (b + 8 - 8) with b by lia.
    rewrite (bind_ok _ _ _ _ _ Hcp).
    rewrite lor_free by exact Hcs2.
    rewrite bind_write by (cbn [s3 heap_lo heap_hi]; lia).
    change (Machine (store64 (mem s3) b (cs + 7)) (heap_lo s3) (heap_hi s3)
              (glob s3)) with s4.
    rewrite (bind_ok _ _ _ _ _ Hrun'). reflexivity.
  - destruct Hseg' as (K1 & K2 & K3 & K4).
    cbn [s4 heap_lo heap_hi glob] in K1, K2, K3, K4.
    unfold same_segment. rewrite K1, K2, K3, K4, G1, G2, G3, G4.
    repeat split.
  - intros i Hi.
    (* the last free leaves the new payload alone *)
    assert (U4 : untouched (store64 m3 b (cs + 7)) (mem s') (b2 + 8) (b2 + 8 + n2)).
    { apply (payload_untouched a L2 _ _ _ b2 n2 HokL2 HB2 Hso').
      intros lo hi [Heq | Hin].
      - inversion Heq; subst lo hi. right. exists b, (sz, false).
        cbn [bsize fst]. split; [exact HB|]. split; [lia | lia].
      - apply link_ranges_In in Hin. destruct Hin as (y & Hy & -> & ->).
        assert (Hy' : In y (free_addrs a L2)).
        { rewrite EL2, !free_addrs_app.
          replace (free_addrs (a + total preB) MID) with (@nil Z)
            by (symmetry; cbn [MID free_addrs bfree snd];
                apply free_addrs_mark_used).
          cbn [app].
          replace (a + total preB + total MID) with (b + 8 + cs)
            by (unfold MID, b, cs; cbn [total bsize fst];
                rewrite total_mark_used; lia).
          exact Hy. }
        destruct (free_addrs_block _ _ _ _ _ HokL2 HB2 Hy')
          as (blk & K1 & K2 & K3).
        right. exists y, blk. split; [exact K1|]. split; [exact K2 | lia]. }
    rewrite (U4 (b2 + 8 + i)) by lia.
    rewrite store64_out by lia.
    unfold m3. rewrite copy_bytes_in by lia.
    (* the inner allocation leaves the old payload alone *)
    assert (U2 : untouched (mem s1) (mem s2) (b + 8) (b + 8 + sz)).
    { apply (payload_untouched a L1 _ _ _ b sz HokL1 HB1 Hso2).
      intros lo hi [Heq | Hin].
      - inversion Heq; subst lo hi. right. exists b2, (sz2, true).
        cbn [bsize fst]. split; [exact HF1|]. split; [|lia].
        intros Eb. rewrite Eb in HF1.
        pose proof (block_at_fun _ _ _ _ _ HokL1 HB1 HF1). discriminate.
      - apply link_ranges_In in Hin. destruct Hin as (y & Hy & -> & ->).
        assert (Hy' : In y (free_addrs a L1)).
        { rewrite E, free_addrs_app.
          cbn [free_addrs bfree bsize snd fst]. fold b2.
          apply in_app_or in Hy. apply in_or_app.
          destruct Hy as [Hy | Hy]; [now left | right; now right]. }
        destruct (free_addrs_block _ _ _ _ _ HokL1 HB1 Hy')
          as (blk & K1 & K2 & K3).
        right. exists y, blk. split; [exact K1|]. split; [exact K2 | lia]. }
    apply U2. lia.
Qed.

(* ================================================================= *)
(** ** [myinit] *)

Lemma myinit_refused (s : Explicit.state) (start size : Z) :
  start = 0 \/ size < 24 ->
  Explicit.myinit start size s = Ok false s.
Proof.
  intros H. unfold Explicit.myinit.
  change (wadd Explicit.HEADER_LENGTH Explicit.MIN_BLOCK_SIZE) with 24.
  destruct H as [-> | H].
  - reflexivity.
  - rewrite (proj2 (Z.ltb_lt size 24)) by exact H.
    now rewrite orb_true_r.
Qed.

(** The state [myinit] leaves: the header of one FREE block, its two null
    link words, and the five globals. *)
Lemma myinit_run (s : Explicit.state) (start size : Z) :
  0 < start -> 24 <= size < two64 ->
  heap_lo s <= start -> start + size <= heap_hi s ->
  Explicit.myinit start size s
  = Ok true
      (Machine
         (store64 (store64 (store64 (mem s) start (Z.lor (size - 8) 7))
                     (start + 8) 0) (start + 16) 0)
         (heap_lo s) (heap_hi s)
         (Explicit.Globals start (start + size) start start 1)).
Proof.
  intros Hs Hsz Hlo Hhi. unfold Explicit.myinit.
  change (wadd Explicit.HEADER_LENGTH Explicit.MIN_BLOCK_SIZE) with 24.
  rewrite (proj2 (Z.eqb_neq start 0)) by lia.
  rewrite (proj2 (Z.ltb_ge size 24)) by lia. cbn [orb].
  unfold Explicit.get_curr_prev, Explicit.get_curr_next, Explicit.HEADER_LENGTH.
  rewrite wsub_small by lia.
  destruct s as [m hl hh [ss se lh le n]]. cbn [heap_lo heap_hi] in Hlo, Hhi.
  run. reflexivity.
Qed.

Lemma myinit_spec (s : Explicit.state) (start size : Z) :
  0 < start -> 24 <= size -> size mod 8 = 0 -> start + size < two64 ->
  heap_lo s = start -> heap_hi s = start + size ->
  exists s',
    Explicit.myinit start size s = Ok true s'
    /\ heap_inv s' [(size - 8, true)]
    /\ heap_lo s' = start /\ heap_hi s' = start + size.
Proof.
  intros Hs Hsz H8 Hb Hlo Hhi.
  eexists. split; [apply myinit_run; lia|].
  split; [|split; cbn [heap_lo heap_hi]; assumption].
  rewrite lor_7. replace (size - 8 - (size - 8) mod 8 + 7) with (size - 8 + 7) by zlia.
  constructor; cbn [mem glob heap_lo heap_hi Explicit.segment_start
                      Explicit.segment_end]; try assumption; try lia.
  - constructor; cbn [mem glob Explicit.segment_start Explicit.segment_end
                        Explicit.list_head Explicit.list_end
                        Explicit.free_blocks_num free_addrs bfree snd
                        total bsize fst heap_at header_word].
    + split; [|exact I]. load_simpl. reflexivity.
    + lia.
    + constructor; cbn [mem glob Explicit.list_head Explicit.list_end
                          Explicit.free_blocks_num dll hd last length].
      * repeat split; load_simpl; reflexivity.
      * reflexivity.
      * reflexivity.
      * reflexivity.
  - constructor; [|constructor]. split; cbn [bsize fst]; [lia | zlia].
Qed.

(* ================================================================= *)
(** ** [validate_heap] accepts every heap that satisfies the invariant *)

Lemma traverse_heap_loop_spec (s : Explicit.state) (bl : list block) :
  forall (x count : Z) (fuel : nat),
    heap_at (mem s) x bl -> Forall block_ok bl ->
    x + total bl = Explicit.segment_end (glob s) ->
    0 < x -> heap_lo s <= x -> Explicit.segment_end (glob s) <= heap_hi s ->
    Explicit.segment_end (glob s) < two64 ->
    0 <= count -> count + Z.of_nat (length bl) < two64 ->
    (length bl < fuel)%nat ->
    Explicit.traverse_heap_loop fuel x count s
    = Ok (Some (Explicit.segment_end (glob s),
                count + Z.of_nat (length (free_addrs x bl)))) s.
Proof.
  induction bl as [|b bl IH];
    intros x count fuel Hh Hok He Hx Hlo Hhi Hbd Hc0 Hc Hfuel;
    (destruct fuel as [|fuel]; [simpl in Hfuel; lia|]).
  - cbn [total] in He. cbn [Explicit.traverse_heap_loop free_addrs length].
    rewrite bind_get. ztest. unfold ret. repeat f_equal; lia.
  - pose proof (Forall_inv Hok) as Hb. pose proof Hb as [Hb1 Hb2].
    pose proof (Forall_inv_tail Hok) as Hok'.
    pose proof (total_nonneg _ Hok').
    destruct Hh as [Hhdr Hh]. cbn [total] in He.
    change (length (b :: bl)) with (S (length bl)) in Hc.
    cbn [Explicit.traverse_heap_loop]. rewrite bind_get. ztest.
    rewrite bind_read by lia. rewrite Hhdr.
    rewrite header_size; [|exact Hb|rewrite ?two64_eq in *; lia].
    rewrite header_status by exact Hb.
    unfold Explicit.MIN_BLOCK_SIZE, Explicit.HEADER_LENGTH. ztest.
    pose proof (free_addrs_length (x + 8 + bsize b) bl) as Hlen.
    cbn [free_addrs].
    destruct (bfree b).
    + change (7 =? Explicit.FREE) with true. cbn [negb andb].
      rewrite wadd_small by lia.
      rewrite (IH (x + 8 + bsize b) (count + 1) fuel); try assumption; try lia.
      * cbn [length].
        assert (En : forall n, count + 1 + Z.of_nat n = count + Z.of_nat (S n))
          by (intros; lia).
        now rewrite En.
      * simpl in Hfuel. lia.
    + change (0 =? Explicit.FREE) with false.
      change (0 =? Explicit.USED) with true. cbn [negb andb].
      rewrite (IH (x + 8 + bsize b) count fuel); try assumption; try lia.
      * reflexivity.
      * simpl in Hfuel. lia.
Qed.

Lemma traverse_heap_ok (s : Explicit.state) (bl : list block) :
  heap_inv s bl -> Explicit.traverse_heap s = Ok true s.
Proof.
  intros Hinv. pose proof Hinv as [[Hh He [Hd Hhd Htl Hn]] Hs Hb Hlo Hhi Hok].
  pose proof (total_length _ Hok) as Hlen.
  unfold Explicit.traverse_heap. rewrite bind_get, bind_current_fuel.
  rewrite (bind_ok _ _ _ _ _
             (traverse_heap_loop_spec s bl (Explicit.segment_start (glob s)) 0
                (Explicit.heap_fuel s) Hh Hok (eq_sym He) Hs ltac:(lia)
                ltac:(lia) Hb ltac:(lia) ltac:(rewrite ?two64_eq in *; lia)
                ltac:(unfold Explicit.heap_fuel; lia))).
  rewrite bind_get. ztest. cbn [negb]. rewrite bind_get.
  rewrite Hn. rewrite Z.add_0_l. ztest. reflexivity.
Qed.

Lemma within_heap_range_ok (s : Explicit.state) (p : Z) :
  0 < p -> Explicit.segment_start (glob s) <= p <= Explicit.segment_end (glob s) ->
  Explicit.within_heap_range p s = Ok true s.
Proof.
  intros H0 H. unfold Explicit.within_heap_range. ztest.
  rewrite !bind_get. unfold ret. f_equal.
  apply andb_true_iff. split; apply Z.leb_le; lia.
Qed.

(** The test [traverse_freelist] applies to a link word: null at the end
    of the list, a heap address elsewhere. *)
Lemma link_test (s : Explicit.state) (k : bool) (p : Z) :
  (k = true -> p = 0) ->
  (k = false ->
   0 < p /\ Explicit.segment_start (glob s) <= p <= Explicit.segment_end (glob s)) ->
  (if k then ret (p =? 0) else Explicit.within_heap_range p) s = Ok true s.
Proof.
  intros H1 H2. destruct k.
  - rewrite (H1 eq_refl). reflexivity.
  - destruct (H2 eq_refl). now apply within_heap_range_ok.
Qed.

Section FreeListWalk.

Variables (s : Explicit.state) (bl : list block).
Hypothesis Hinv : heap_inv s bl.

Let a := Explicit.segment_start (glob s).
Let l := free_addrs a bl.

Lemma walk_node (l1 l2 : list Z) (x : Z) :
  l = l1 ++ x :: l2 ->
  0 < x /\ a <= x /\ x + 24 <= Explicit.segment_end (glob s)
  /\ Z.land (load64 (mem s) x) Explicit.FREE = 7
  /\ load64 (mem s) (x + 8) = last l1 0
  /\ load64 (mem s) (x + 16) = hd 0 l2
  /\ (l1 <> [] -> 0 < last l1 0 /\ a <= last l1 0 /\ last l1 0 < x)
  /\ (l2 <> [] -> x < hd 0 l2 /\ hd 0 l2 <= Explicit.segment_end (glob s)).
Proof.
  intros E.
  pose proof Hinv as [[Hh He [Hd Hhd Htl Hn]] Hs Hb Hlo Hhi Hok].
  fold a in Hh, He, Hd, Hs. fold l in Hd. 
  assert (Hin : In x l) by (rewrite E; apply in_or_app; right; now left).
  pose proof (free_addrs_chain a bl Hok) as Hc. fold l in Hc.
  rewrite <- He in Hc.
  pose proof (chain_In _ _ _ _ Hc Hin) as [Hx1 Hx2].
  unfold l in Hin. apply free_addrs_In in Hin. destruct Hin as (sx & Hbx).
  pose proof (heap_at_load _ _ _ _ _ Hh Hbx) as Hld.
  pose proof (block_at_bounds _ _ _ _ Hok Hbx) as (_ & _ & Hbk).
  rewrite E in Hd, Hc. apply dll_app in Hd. destruct Hd as [_ (Hp & Hnx & _)].
  apply chain_app_cons in Hc. destruct Hc as [Hc1 Hc2].
  repeat split; try assumption; try lia.
  - rewrite Hld. exact (header_status _ Hbk).
  - destruct (last_facts _ _ _ Hc1) as [[K _] | (_ & _ & K1 & K2)];
      [contradiction | lia].
  - destruct (last_facts _ _ _ Hc1) as [[K _] | (_ & _ & K1 & K2)];
      [contradiction | lia].
  - destruct (last_facts _ _ _ Hc1) as [[K _] | (_ & _ & K1 & K2)];
      [contradiction | lia].
  - destruct (hd_facts _ _ _ Hc2) as [[K _] | (_ & _ & K1 & K2)];
      [contradiction | lia].
  - destruct (hd_facts _ _ _ Hc2) as [[K _] | (_ & _ & K1 & K2)];
      [contradiction | lia].
Qed.

Lemma walk_count :
  Explicit.free_blocks_num (glob s) = Z.of_nat (length l)
  /\ Z.of_nat (length l) + 1 < two64.
Proof.
  pose proof Hinv as [[Hh He [Hd Hhd Htl Hn]] Hs Hb Hlo Hhi Hok].
  split; [exact Hn|].
  pose proof (free_addrs_length a bl). pose proof (total_length _ Hok).
  fold a in He, Hs. fold l in H. rewrite ?two64_eq in *. lia.
Qed.

(** One iteration of the loop of [traverse_freelist] at node [x]. *)
Lemma walk_step (reverse : bool) (l1 l2 : list Z) (x count : Z) (fuel : nat) :
  l = l1 ++ x :: l2 ->
  count = (if reverse then Z.of_nat (length l2) else Z.of_nat (length l1)) + 1 ->
  Explicit.traverse_freelist_loop (S fuel) reverse x count s
  = Explicit.traverse_freelist_loop fuel reverse
      (if reverse then last l1 0 else hd 0 l2) (count + 1) s.
Proof.
  intros E Hcount.
  destruct (walk_node l1 l2 x E) as (X0 & X1 & X2 & Hst & Hp & Hn & HP & HN).
  destruct walk_count as [Hnum Hbig].
  pose proof (inv_lo _ _ Hinv) as Hlo. pose proof (inv_hi _ _ Hinv) as Hhi.
  fold a in Hlo.
  assert (Hlen : Z.of_nat (length l)
                 = Z.of_nat (length l1) + 1 + Z.of_nat (length l2)).
  { rewrite E, length_app. cbn [length]. lia. }
  cbn [Explicit.traverse_freelist_loop].
  rewrite bind_get, Hnum.
  rewrite (proj2 (Z.leb_le count _)) by (destruct reverse; lia).
  rewrite bind_read by lia. rewrite Hst.
  change (7 =? Explicit.FREE) with true. cbn [negb].
  unfold Explicit.get_prev_free_block, Explicit.get_next_free_block,
    Explicit.get_curr_prev, Explicit.get_curr_next, Explicit.HEADER_LENGTH.
  rewrite bind_read by lia. rewrite Hp.
  rewrite bind_read by lia. rewrite add_8_8, Hn.
  assert (T1 : forall k : bool,
             (k = true <-> l1 = []) ->
             (if k then ret (last l1 0 =? 0)
              else Explicit.within_heap_range (last l1 0)) s = Ok true s).
  { intros k Hk. apply link_test.
    - intros ->. rewrite (proj1 Hk eq_refl). reflexivity.
    - intros ->. assert (l1 <> []) by (intros K; apply Hk in K; discriminate).
      fold a. destruct (HP H) as (? & ? & ?). lia. }
  assert (T2 : forall k : bool,
             (k = true <-> l2 = []) ->
             (if k then ret (hd 0 l2 =? 0)
              else Explicit.within_heap_range (hd 0 l2)) s = Ok true s).
  { intros k Hk. apply link_test.
    - intros ->. rewrite (proj1 Hk eq_refl). reflexivity.
    - intros ->. assert (l2 <> []) by (intros K; apply Hk in K; discriminate).
      fold a. destruct (HN H) as (? & ?). lia. }
  assert (Hz1 : forall l0 : list Z, Z.of_nat (length l0) = 0 <-> l0 = []).
  { intros l0. destruct l0; cbn [length]; split; intros K;
      try reflexivity; try discriminate; lia. }
  assert (Hsorted :
            (negb (last l1 0 =? 0) && (last l1 0 >=? x))
            || (negb (hd 0 l2 =? 0) && (x >=? hd 0 l2)) = false).
  { apply orb_false_iff. split; apply andb_false_iff.
    - destruct l1 as [|y l1']; [left; reflexivity|].
      right. rewrite Z.geb_leb. apply Z.leb_gt.
      destruct (HP (cons_nonnil _ _)) as (? & ? & ?). lia.
    - destruct l2 as [|y l2']; [left; reflexivity|].
      right. rewrite Z.geb_leb. apply Z.leb_gt.
      destruct (HN (cons_nonnil _ _)) as (? & ?). lia. }
  destruct reverse; cbn [negb]; cbv match.
  - assert (K1 : (count =? Z.of_nat (length l)) = true <-> l1 = [])
      by (rewrite Z.eqb_eq, <- Hz1; lia).
    assert (K2 : (count =? 1) = true <-> l2 = [])
      by (rewrite Z.eqb_eq, <- Hz1; lia).
    rewrite (bind_ok _ _ _ _ _ (T1 _ K1)).
    rewrite (bind_ok _ _ _ _ _ (T2 _ K2)).
    cbn [negb orb]. rewrite Hsorted.
    rewrite wadd_small by lia. reflexivity.
  - assert (K1 : (count =? 1) = true <-> l1 = [])
      by (rewrite Z.eqb_eq, <- Hz1; lia).
    assert (K2 : (count =? Z.of_nat (length l)) = true <-> l2 = [])
      by (rewrite Z.eqb_eq, <- Hz1; lia).
    rewrite (bind_ok _ _ _ _ _ (T1 _ K1)).
    rewrite (bind_ok _ _ _ _ _ (T2 _ K2)).
    cbn [negb orb]. rewrite Hsorted.
    rewrite wadd_small by lia. reflexivity.
Qed.

Lemma walk_done (reverse : bool) (p : Z) (fuel : nat) :
  Explicit.traverse_freelist_loop (S fuel) reverse p
    (Z.of_nat (length l) + 1) s
  = Ok true s.
Proof.
  destruct walk_count as [Hnum _].
  cbn [Explicit.traverse_freelist_loop]. rewrite bind_get, Hnum.
  now rewrite (proj2 (Z.leb_gt _ _)) by lia.
Qed.

Lemma walk_forward (l2 : list Z) :
  forall (l1 : list Z) (fuel : nat),
    l = l1 ++ l2 -> (length l2 < fuel)%nat ->
    Explicit.traverse_freelist_loop fuel false (hd 0 l2)
      (Z.of_nat (length l1) + 1) s
    = Ok true s.
Proof.
  induction l2 as [|x l2 IH]; intros l1 fuel E Hf;
    (destruct fuel as [|fuel]; [simpl in Hf; lia|]).
  - rewrite app_nil_r in E. rewrite <- E. apply walk_done.
  - cbn [hd]. rewrite (walk_step false l1 l2 x _ fuel E eq_refl).
    replace (Z.of_nat (length l1) + 1 + 1)
      with (Z.of_nat (length (l1 ++ [x])) + 1)
      by (rewrite length_app; cbn [length]; lia).
    apply IH; [rewrite <- app_assoc; exact E | simpl in Hf; lia].
Qed.

Lemma walk_backward (l1 : list Z) :
  forall (l2 : list Z) (fuel : nat),
    l = l1 ++ l2 -> (length l1 < fuel)%nat ->
    Explicit.traverse_freelist_loop fuel true (last l1 0)
      (Z.of_nat (length l2) + 1) s
    = Ok true s.
Proof.
  induction l1 as [|x l1 IH] using rev_ind; intros l2 fuel E Hf;
    (destruct fuel as [|fuel]; [simpl in Hf; lia|]).
  - cbn [app] in E. rewrite <- E. apply walk_done.
  - rewrite <- app_assoc in E. cbn [app] in E.
    rewrite last_snoc.
    rewrite (walk_step true l1 l2 x _ fuel E eq_refl).
    replace (Z.of_nat (length l2) + 1 + 1)
      with (Z.of_nat (length (x :: l2)) + 1)
      by (cbn [length]; lia).
    apply IH; [exact E|]. rewrite length_app in Hf. simpl in Hf. lia.
Qed.

Lemma traverse_freelist_ok (reverse : bool) :
  Explicit.traverse_freelist reverse s = Ok true s.
Proof.
  pose proof Hinv as [[Hh He [Hd Hhd Htl Hn]] Hs Hb Hlo Hhi Hok].
  fold a in Hhd, Htl, Hn. fold l in Hhd, Htl, Hn.
  unfold Explicit.traverse_freelist. rewrite bind_get, Hn.
  destruct l as [|x l'] eqn:El.
  - cbn [length Z.of_nat]. change (0 =? 0) with true. cbv match.
    rewrite !bind_get, Hhd, Htl. reflexivity.
  - rewrite (proj2 (Z.eqb_neq _ 0)) by (cbn [length]; lia).
    rewrite !bind_get, Hhd, Htl. rewrite Nat2Z.id.
    destruct reverse.
    + apply (walk_backward (x :: l') []); [now rewrite app_nil_r | lia].
    + apply (walk_forward (x :: l') []); [exact El | lia].
Qed.

Lemma validate_heap_ok : Explicit.validate_heap s = Ok true s.
Proof.
  unfold Explicit.validate_heap.
  rewrite (bind_ok _ _ _ _ _ (traverse_heap_ok s bl Hinv)). cbn [negb].
  rewrite (bind_ok _ _ _ _ _ (traverse_freelist_ok true)). cbn [negb].
  rewrite (bind_ok _ _ _ _ _ (traverse_freelist_ok false)). reflexivity.
Qed.

End FreeListWalk.

(* ================================================================= *)
(** ** The heap walk of a valid heap, and client steps *)

Ltac conj_split := repeat match goal with |- _ /\ _ => split end.

Lemma walk_spec (m : memory) (bl : list block) :
  forall (fuel : nat) (a e : Z),
    Forall block_ok bl -> heap_at m a bl ->
    e = a + total bl -> e < two64 -> 0 <= a ->
    (length bl < fuel)%nat ->
    walk fuel m a e = bl.
Proof.
  induction bl as [|b bl IH]; intros fuel a e Hok Hh He Hb Ha Hf;
    (destruct fuel as [|fuel]; [simpl in Hf; lia|]); cbn [walk].
  - cbn [total] in He. now rewrite (proj2 (Z.ltb_ge a e)) by lia.
  - cbn [total] in He. cbn [heap_at] in Hh. destruct Hh as [Hw Hh].
    pose proof (Forall_inv Hok) as Hb0.
    pose proof (Forall_inv_tail Hok) as Hok'.
    pose proof (total_nonneg _ Hok') as Ht.
    pose proof Hb0 as [Hb1 Hb2].
    rewrite (proj2 (Z.ltb_lt a e)) by lia.
    rewrite Hw, (header_size b Hb0) by lia.
    rewrite (header_status b Hb0).
    unfold Explicit.HEADER_LENGTH.
    rewrite (IH fuel (a + 8 + bsize b) e Hok' Hh) by (simpl in Hf; lia).
    destruct b as [sz [|]]; reflexivity.
Qed.

Lemma blocks_inv (s : Explicit.state) (bl : list block) :
  heap_inv s bl -> blocks s = bl.
Proof.
  intros [[Hh He Hfl] Hs Hb Hlo Hhi Hok].
  unfold blocks. apply walk_spec; try assumption; try lia.
  unfold Explicit.heap_fuel. pose proof (total_length _ Hok). lia.
Qed.

(** First fit: either no FREE block of [bl] holds [needed] bytes, or there
    is a first one. *)
Lemma first_fit_dec (needed : Z) (bl : list block) :
  too_small needed bl
  \/ exists pre sz post,
       bl = pre ++ (sz, true) :: post /\ too_small needed pre /\ needed <= sz.
Proof.
  induction bl as [|[sz f] bl IH].
  - left. constructor.
  - destruct f.
    + destruct (Z_lt_ge_dec sz needed) as [Hlt | Hge].
      * destruct IH as [IH | (pre & sz' & post & -> & Hs & Hle)].
        -- left. constructor; [intros _; exact Hlt | exact IH].
        -- right. exists ((sz, true) :: pre), sz', post.
           repeat split; [| lia]. constructor; [intros _; exact Hlt | exact Hs].
      * right. exists [], sz, bl. repeat split; [constructor | lia].
    + destruct IH as [IH | (pre & sz' & post & -> & Hs & Hle)].
      * left. constructor; [intros K; discriminate K | exact IH].
      * right. exists ((sz, false) :: pre), sz', post.
        repeat split; [| lia].
        constructor; [intros K; discriminate K | exact Hs].
Qed.

(** The FREE blocks at the front of a list. *)
Lemma split_free (bl : list block) :
  exists fs post, bl = fs ++ post /\ all_free fs /\ starts_used post.
Proof.
  induction bl as [|[sz f] bl IH].
  - exists [], []. repeat split. constructor.
  - destruct f.
    + destruct IH as (fs & post & -> & Hf & Hu).
      exists ((sz, true) :: fs), post. repeat split; [| exact Hu].
      constructor; [reflexivity | exact Hf].
    + exists [], ((sz, false) :: bl). repeat split. constructor.
Qed.

Lemma live_after_inv (s : Explicit.state) (bl pre : list block) (p sz : Z) :
  heap_inv s bl -> live_after s pre p sz ->
  exists post,
    bl = pre ++ (sz, false) :: post
    /\ p = Explicit.segment_start (glob s) + total pre + 8.
Proof.
  intros Hinv (post & Hb & Hp). rewrite (blocks_inv _ _ Hinv) in Hb.
  exists post. split; [exact Hb | exact Hp].
Qed.

Lemma call_malloc_inv (s s' : Explicit.state) (bl : list block) (r p : Z) :
  heap_inv s bl -> 0 <= r <= two64 - 8 ->
  Explicit.mymalloc r s = Ok p s' ->
  exists pre sz post,
    bl = pre ++ (sz, true) :: post
    /\ too_small (Explicit.roundup r ALIGNMENT) pre
    /\ Explicit.roundup r ALIGNMENT <= sz
    /\ p = Explicit.segment_start (glob s) + total pre + 8
    /\ heap_inv s' (pre ++ placed (Explicit.roundup r ALIGNMENT) sz ++ post)
    /\ same_segment s s'.
Proof.
  intros Hinv Hr Hcall.
  destruct (first_fit_dec (Explicit.roundup r ALIGNMENT) bl)
    as [Hno | (pre & sz & post & -> & Hs & Hle)].
  - rewrite (mymalloc_no_fit _ _ _ Hinv Hno) in Hcall. discriminate Hcall.
  - destruct (mymalloc_fit _ _ _ _ _ Hinv Hr Hs Hle) as (s1 & E & Hinv' & Hseg & _).
    rewrite E in Hcall. injection Hcall as <- <-.
    exists pre, sz, post. conj_split; try assumption; reflexivity.
Qed.

Lemma call_free_inv (s s' : Explicit.state) (bl pre : list block) (p sz : Z) :
  heap_inv s bl -> live_after s pre p sz ->
  Explicit.myfree p s = Ok tt s' ->
  exists post,
    bl = pre ++ (sz, false) :: post
    /\ heap_inv s' (pre ++ freed sz post)
    /\ same_segment s s'.
Proof.
  intros Hinv Hlive Hcall.
  destruct (live_after_inv _ _ _ _ _ Hinv Hlive) as (post & -> & ->).
  destruct (myfree_spec _ _ _ _ Hinv) as (s1 & E & Hinv' & Hseg).
  rewrite E in Hcall. injection Hcall as <-.
  exists post. conj_split; try assumption; reflexivity.
Qed.

Lemma call_store_inv (s : Explicit.state) (bl : list block) (p sz x v : Z) :
  heap_inv s bl -> live s p sz -> p <= x < p + sz ->
  heap_inv (poke x v s) bl.
Proof.
  intros Hinv [pre Hlive] Hx.
  destruct (live_after_inv _ _ _ _ _ Hinv Hlive) as (post & E & ->).
  unfold poke.
  apply (heap_inv_frame s bl _ [(x, x + 1)] Hinv).
  - intros y Hy. specialize (Hy x (x + 1) (or_introl eq_refl)).
    cbv beta. rewrite (proj2 (Z.eqb_neq y x)) by lia. reflexivity.
  - intros lo hi [K | []]. injection K as <- <-.
    exists (Explicit.segment_start (glob s) + total pre), sz.
    split; [exists pre, post; split; [exact E | reflexivity] | lia].
Qed.

Lemma call_realloc_inv (s s' : Explicit.state) (bl pre : list block)
  (p sz r q : Z) :
  heap_inv s bl -> live_after s pre p sz -> 0 <= r <= two64 - 8 ->
  Explicit.myrealloc p r s = Ok q s' ->
  exists fs post,
    bl = pre ++ (sz, false) :: fs ++ post
    /\ all_free fs /\ starts_used post
    /\ ((Explicit.roundup r ALIGNMENT <= sz + total fs
         /\ q = p
         /\ heap_inv s'
              (pre ++ placed (Explicit.roundup r ALIGNMENT) (sz + total fs)
                   ++ post))
        \/ (sz + total fs < Explicit.roundup r ALIGNMENT
            /\ q <> p
            /\ exists preB postB,
                heap_inv s' (preB ++ (sz + total fs, true) :: postB)
                /\ ((exists pre2 sz2 mid,
                        pre = pre2 ++ (sz2, true) :: mid
                        /\ preB = pre2
                                  ++ placed (Explicit.roundup r ALIGNMENT) sz2
                                  ++ mid
                        /\ postB = post)
                    \/ (exists mid sz2 post2,
                           post = mid ++ (sz2, true) :: post2
                           /\ preB = pre
                           /\ postB = mid
                                      ++ placed (Explicit.roundup r ALIGNMENT)
                                           sz2
                                      ++ post2)))).
Proof.
  intros Hinv Hlive Hr Hcall.
  destruct (live_after_inv _ _ _ _ _ Hinv Hlive) as (post0 & -> & ->).
  destruct (split_free post0) as (fs & post & -> & Hfs & Hpost).
  exists fs, post. conj_split; try assumption; try reflexivity.
  destruct (myrealloc_absorb _ _ _ _ _ r Hinv Hfs Hpost)
    as (s1 & E1 & Habs & Hseg & _).
  rewrite E1 in Hcall. clear E1.
  assert (Hst : Explicit.segment_start (glob s)
                = Explicit.segment_start (glob s1)) by (symmetry; apply Hseg).
  rewrite Hst in Hcall. rewrite Hst.
  destruct (Z_le_gt_dec (Explicit.roundup r ALIGNMENT) (sz + total fs))
    as [Hfit | Hnofit].
  - left.
    destruct (finish_inplace _ _ _ _ _ r Habs Hr Hfit) as (s2 & E2 & Hinv2 & _).
    rewrite E2 in Hcall. injection Hcall as <- <-.
    conj_split; [exact Hfit | reflexivity | exact Hinv2].
  - right. split; [lia|].
    destruct (first_fit_dec (Explicit.roundup r ALIGNMENT)
                (pre ++ ((sz, false) :: mark_used fs) ++ post))
      as [Hno | (pre2 & sz2 & post2 & E & Hs & Hle)].
    + apply too_small_app in Hno. destruct Hno as [Hno1 Hno2].
      apply too_small_app in Hno2. destruct Hno2 as [_ Hno2].
      assert (Hno : too_small (Explicit.roundup r ALIGNMENT) (pre ++ post))
        by (apply too_small_app; split; assumption).
      rewrite (finish_no_fit _ _ _ _ _ r Habs ltac:(lia) Hno) in Hcall.
      discriminate Hcall.
    + destruct (finish_move _ _ _ _ _ _ _ _ r Habs Hr ltac:(lia) E Hs Hle)
        as (s2 & preB & postB & E2 & Hinv2 & _ & _ & Hstruct).
      rewrite E2 in Hcall. injection Hcall as <- <-.
      split.
      { intros Heq.
        pose proof (inv_blocks _ _ (absorbed_inv _ _ _ _ _ Habs)) as HokL.
        assert (B1 : block_at (Explicit.segment_start (glob s1))
                       (pre ++ ((sz, false) :: mark_used fs) ++ post)
                       (Explicit.segment_start (glob s1) + total pre)
                       (sz, false)).
        { exists pre, (mark_used fs ++ post). split; reflexivity. }
        assert (B2 : block_at (Explicit.segment_start (glob s1))
                       (pre ++ ((sz, false) :: mark_used fs) ++ post)
                       (Explicit.segment_start (glob s1) + total pre)
                       (sz2, true)).
        { exists pre2, post2. split; [exact E | lia]. }
        pose proof (block_at_fun _ _ _ _ _ HokL B1 B2) as K.
        discriminate K. }
      exists preB, postB. split; [exact Hinv2|].
      destruct Hstruct as [(mid & K1 & K2 & K3) | (mid & K1 & K2 & K3)].
      * left. exists pre2, sz2, mid. conj_split; assumption.
      * right. exists mid, sz2, post2. conj_split; assumption.
Qed.

(** Every state a client reaches represents some list of blocks. *)
Lemma call_inv (usable : Explicit.state -> Z -> Z -> Prop)
  (s s' : Explicit.state) (bl : list block) :
  (forall s p sz, usable s p sz -> live s p sz) ->
  heap_inv s bl -> call usable s s' -> exists bl', heap_inv s' bl'.
Proof.
  intros Hu Hinv Hcall. destruct Hcall as
    [s r p s' Hr E | s p sz s' Hl E | s p sz r q s' Hl _ Hr E
     | s p sz x v Hl Hx].
  - destruct (call_malloc_inv _ _ _ _ _ Hinv Hr E)
      as (pre & n & post & _ & _ & _ & _ & H & _).
    eexists; exact H.
  - destruct (Hu _ _ _ Hl) as [pre Hl'].
    destruct (call_free_inv _ _ _ _ _ _ Hinv Hl' E) as (post & _ & H & _).
    eexists; exact H.
  - destruct Hl as [pre Hl'].
    destruct (call_realloc_inv _ _ _ _ _ _ _ _ Hinv Hl' Hr E)
      as (fs & post & _ & _ & _ & [(_ & _ & H) | (_ & _ & pB & qB & H & _)]);
      eexists; exact H.
  - exists bl. exact (call_store_inv _ _ _ _ _ v Hinv Hl Hx).
Qed.

Lemma init_inv (s0 s : Explicit.state) (start size : Z) :
  0 < start -> size mod 8 = 0 -> start + size < two64 ->
  heap_lo s0 = start -> heap_hi s0 = start + size ->
  Explicit.myinit start size s0 = Ok true s ->
  heap_inv s [(size - 8, true)].
Proof.
  intros H0 H8 Hb Hlo Hhi E.
  destruct (Z_lt_ge_dec size 24) as [Hlt | Hge].
  - rewrite (myinit_refused s0 start size (or_intror Hlt)) in E.
    discriminate E.
  - destruct (myinit_spec s0 start size H0 ltac:(lia) H8 Hb Hlo Hhi)
      as (s1 & E1 & Hinv & _).
    rewrite E1 in E. injection E as <-. exact Hinv.
Qed.

Lemma reach_inv (usable : Explicit.state -> Z -> Z -> Prop)
  (s : Explicit.state) :
  (forall s p sz, usable s p sz -> live s p sz) ->
  reach usable s -> exists bl, heap_inv s bl.
Proof.
  intros Hu Hr. induction Hr as [s0 start size s H0 H8 Hb Hlo Hhi E | s s' _ IH Hc].
  - eexists. exact (init_inv _ _ _ _ H0 H8 Hb Hlo Hhi E).
  - destruct IH as [bl Hinv]. exact (call_inv usable _ _ _ Hu Hinv Hc).
Qed.

(* ================================================================= *)
(** ** Adjacent FREE blocks *)

Lemma starts_used_app (l1 l2 : list block) :
  l1 <> [] -> (starts_used (l1 ++ l2) <-> starts_used l1).
Proof. destruct l1; [contradiction | reflexivity]. Qed.

Lemma ends_used_nil : ends_used [].
Proof. exact I. Qed.

Lemma ends_used_app (l1 l2 : list block) :
  l2 <> [] -> (ends_used (l1 ++ l2) <-> ends_used l2).
Proof.
  intros H. unfold ends_used. rewrite rev_app_distr.
  apply starts_used_app. intros K. apply H.
  rewrite <- (rev_involutive l2), K. reflexivity.
Qed.

Lemma ends_used_one (b : block) : ends_used [b] <-> bfree b = false.
Proof. reflexivity. Qed.

Lemma ends_used_snoc (l : list block) (b : block) :
  ends_used (l ++ [b]) <-> bfree b = false.
Proof.
  rewrite ends_used_app by discriminate. apply ends_used_one.
Qed.

Lemma naf_cons (b : block) (l : list block) :
  no_adj_free (b :: l)
  <-> (bfree b = false \/ starts_used l) /\ no_adj_free l.
Proof.
  cbn [no_adj_free]. destruct l as [|b' l']; cbn [starts_used].
  - tauto.
  - destruct (bfree b), (bfree b'); intuition congruence.
Qed.

Lemma naf_app (l1 l2 : list block) :
  no_adj_free (l1 ++ l2)
  <-> no_adj_free l1 /\ no_adj_free l2 /\ (ends_used l1 \/ starts_used l2).
Proof.
  induction l1 as [|b l1 IH].
  - cbn [app no_adj_free]. pose proof ends_used_nil. tauto.
  - cbn [app]. rewrite !naf_cons, IH.
    destruct l1 as [|b1 l1].
    + cbn [app]. rewrite ends_used_one. cbn [starts_used no_adj_free].
      pose proof ends_used_nil. tauto.
    + rewrite (ends_used_app [b] (b1 :: l1)) by discriminate.
      cbn [app starts_used]. tauto.
Qed.

Lemma naf_free_mid (pre post : list block) (sz : Z) :
  no_adj_free (pre ++ (sz, true) :: post) ->
  no_adj_free pre /\ ends_used pre /\ starts_used post /\ no_adj_free post.
Proof.
  rewrite naf_app, naf_cons. cbn [bfree snd starts_used].
  intros (H1 & (H2 & H3) & H4).
  repeat split; try assumption.
  - destruct H4 as [H4 | H4]; [exact H4 | discriminate H4].
  - destruct H2 as [H2 | H2]; [discriminate H2 | exact H2].
Qed.

Lemma naf_placed_tail (needed sz : Z) (post : list block) :
  starts_used post -> no_adj_free post ->
  no_adj_free (placed needed sz ++ post)
  /\ starts_used (placed needed sz ++ post).
Proof.
  intros Hs Hn. unfold placed. destruct (sz - needed <? 24); cbn [app].
  - rewrite naf_cons. cbn [bfree snd starts_used]. tauto.
  - rewrite !naf_cons. cbn [bfree snd starts_used]. tauto.
Qed.

(** [mymalloc] leaves no two adjacent FREE blocks. *)
Lemma naf_placed (pre post : list block) (needed sz : Z) :
  no_adj_free (pre ++ (sz, true) :: post) ->
  no_adj_free (pre ++ placed needed sz ++ post).
Proof.
  intros H. apply naf_free_mid in H. destruct H as (H1 & H2 & H3 & H4).
  destruct (naf_placed_tail needed sz post H3 H4) as [K1 K2].
  apply naf_app. tauto.
Qed.

(** [myfree] leaves no two adjacent FREE blocks when the block before the
    released one is not FREE. *)
Lemma naf_freed (pre post : list block) (sz : Z) :
  no_adj_free (pre ++ (sz, false) :: post) -> ends_used pre ->
  no_adj_free (pre ++ freed sz post).
Proof.
  rewrite !naf_app, naf_cons. intros (H1 & (_ & H2) & _) He.
  split; [exact H1|]. split; [|left; exact He].
  unfold freed. destruct post as [|[rs [|]] post'].
  - cbn [no_adj_free]. tauto.
  - rewrite naf_cons in H2 |- *. cbn [bfree snd] in *.
    destruct H2 as [[H2|H2] H3]; [discriminate H2 | tauto].
  - rewrite naf_cons. cbn [bfree snd starts_used]. tauto.
Qed.

Lemma naf_used_run (pre fs post : list block) (sz : Z) :
  no_adj_free (pre ++ (sz, false) :: fs ++ post) ->
  no_adj_free pre /\ no_adj_free post.
Proof.
  rewrite naf_app, naf_cons, naf_app. tauto.
Qed.

(** [myrealloc] in place leaves no two adjacent FREE blocks. *)
Lemma naf_resized (pre fs post : list block) (sz needed cs : Z) :
  no_adj_free (pre ++ (sz, false) :: fs ++ post) -> starts_used post ->
  no_adj_free (pre ++ placed needed cs ++ post).
Proof.
  intros H Hs. destruct (naf_used_run _ _ _ _ H) as [H1 H2].
  destruct (naf_placed_tail needed cs post Hs H2) as [K1 K2].
  apply naf_app. tauto.
Qed.

(** [myrealloc] that moves the block into a FREE block before it. *)
Lemma naf_moved_left (pre2 mid fs post : list block) (sz sz2 needed cs : Z) :
  no_adj_free ((pre2 ++ (sz2, true) :: mid) ++ (sz, false) :: fs ++ post) ->
  ends_used (pre2 ++ (sz2, true) :: mid) -> starts_used post ->
  no_adj_free ((pre2 ++ placed needed sz2 ++ mid) ++ (cs, true) :: post).
Proof.
  intros H He Hs. destruct (naf_used_run _ _ _ _ H) as [H1 H2].
  assert (Hmid : mid <> []).
  { intros ->. apply ends_used_snoc in He. discriminate He. }
  apply naf_app. split; [now apply naf_placed|]. split.
  - apply naf_cons. cbn [bfree snd]. tauto.
  - left. rewrite app_assoc. apply ends_used_app; [exact Hmid|].
    change (pre2 ++ (sz2, true) :: mid) with (pre2 ++ [(sz2, true)] ++ mid) in He.
    rewrite app_assoc in He. now apply ends_used_app in He.
Qed.

(** [myrealloc] that moves the block into a FREE block after it. *)
Lemma naf_moved_right (pre mid fs post2 : list block) (sz sz2 needed cs : Z) :
  no_adj_free (pre ++ (sz, false) :: fs ++ mid ++ (sz2, true) :: post2) ->
  ends_used pre -> starts_used (mid ++ (sz2, true) :: post2) ->
  no_adj_free (pre ++ (cs, true) :: mid ++ placed needed sz2 ++ post2).
Proof.
  intros H He Hs. destruct (naf_used_run _ _ _ _ H) as [H1 H2].
  assert (Hmid : mid <> []) by (intros ->; discriminate Hs).
  apply naf_app. split; [exact H1|]. split; [|left; exact He].
  apply naf_cons. split; [|now apply naf_placed].
  right. apply starts_used_app; [exact Hmid|].
  now apply (starts_used_app mid ((sz2, true) :: post2)) in Hs.
Qed.

Lemma realloc_naf (s s' : Explicit.state) (bl pre : list block)
  (p sz r q : Z) :
  heap_inv s bl -> no_adj_free bl -> live_after s pre p sz ->
  (q <> p -> ends_used pre) -> 0 <= r <= two64 - 8 ->
  Explicit.myrealloc p r s = Ok q s' ->
  exists bl', heap_inv s' bl' /\ no_adj_free bl'.
Proof.
  intros Hinv Hn Hl He Hr E.
  destruct (call_realloc_inv _ _ _ _ _ _ _ _ Hinv Hl Hr E)
    as (fs & post & -> & Hfs & Hpost
        & [(_ & _ & H) | (_ & Hq & pB & qB & H & Hstruct)]).
  - eexists. split; [exact H|]. now apply (naf_resized pre fs post sz).
  - exists (pB ++ (sz + total fs, true) :: qB). split; [exact H|].
    specialize (He Hq).
    destruct Hstruct as [(pre2 & sz2 & mid & -> & -> & ->)
                        | (mid & sz2 & post2 & -> & -> & ->)].
    + now apply (naf_moved_left pre2 mid fs post sz).
    + now apply (naf_moved_right pre mid fs post2 sz).
Qed.

Lemma call_naf (s s' : Explicit.state) (bl : list block) :
  heap_inv s bl -> no_adj_free bl -> call live_left_used s s' ->
  exists bl', heap_inv s' bl' /\ no_adj_free bl'.
Proof.
  intros Hinv Hn Hcall. destruct Hcall as
    [s r p s' Hr E | s p sz s' Hl E | s p sz r q s' Hl Hu Hr E
     | s p sz x v Hl Hx].
  - destruct (call_malloc_inv _ _ _ _ _ Hinv Hr E)
      as (pre & n & post & -> & _ & _ & _ & H & _).
    eexists. split; [exact H|]. now apply naf_placed.
  - destruct Hl as (pre & Hl & He).
    destruct (call_free_inv _ _ _ _ _ _ Hinv Hl E) as (post & -> & H & _).
    eexists. split; [exact H|]. now apply naf_freed.
  - destruct (Z.eq_dec q p) as [Heq | Hne].
    + destruct Hl as [pre Hl].
      apply (realloc_naf s s' bl pre p sz r q Hinv Hn Hl); try assumption.
      intros K. contradiction.
    + destruct (Hu Hne) as (pre & Hl' & He).
      apply (realloc_naf s s' bl pre p sz r q Hinv Hn Hl'); try assumption.
      intros _. exact He.
  - exists bl. split; [|exact Hn].
    exact (call_store_inv _ _ _ _ _ v Hinv Hl Hx).
Qed.

Lemma reach_naf (s : Explicit.state) :
  reach live_left_used s -> exists bl, heap_inv s bl /\ no_adj_free bl.
Proof.
  intros Hr.
  induction Hr as [s0 start size s H0 H8 Hb Hlo Hhi E | s s' _ IH Hc].
  - eexists. split; [exact (init_inv _ _ _ _ H0 H8 Hb Hlo Hhi E)|].
    cbn [no_adj_free]. tauto.
  - destruct IH as (bl & Hinv & Hn). exact (call_naf _ _ _ Hinv Hn Hc).
Qed.

(* ================================================================= *)
(** ** Payload bytes across [myrealloc] *)

(** The bytes between the blocks [pre] and the blocks [post] are not link
    words of their FREE blocks. *)
Lemma outside_links (pre post : list block) (a hi x : Z) :
  Forall block_ok pre -> Forall block_ok post ->
  a + total pre <= x < hi ->
  forall lo' hi',
    In (lo', hi') (link_ranges (free_addrs a pre ++ free_addrs hi post)) ->
    x < lo' \/ hi' <= x.
Proof.
  intros H1 H2 Hx lo' hi' Hin.
  apply link_ranges_In in Hin. destruct Hin as (y & Hy & -> & ->).
  apply in_app_or in Hy. destruct Hy as [Hy | Hy].
  - pose proof (free_addrs_bounds _ _ _ H1 Hy). lia.
  - pose proof (free_addrs_bounds _ _ _ H2 Hy). lia.
Qed.

(** A [myrealloc] that returns keeps the payload: in place, up to the new
    size; moved, the whole payload the block had before the call. *)
Lemma realloc_bytes (s s' : Explicit.state) (pre fs post : list block)
  (sz r q : Z) :
  heap_inv s (pre ++ (sz, false) :: fs ++ post) ->
  all_free fs -> starts_used post -> 0 <= r <= two64 - 8 ->
  let p := Explicit.segment_start (glob s) + total pre + 8 in
  Explicit.myrealloc p r s = Ok q s' ->
  (Explicit.roundup r ALIGNMENT <= sz + total fs /\ q = p
   /\ forall i, 0 <= i < Z.min sz (Explicit.roundup r ALIGNMENT) ->
                mem s' (q + i) = mem s (p + i))
  \/ (sz + total fs < Explicit.roundup r ALIGNMENT /\ q <> p
      /\ forall i, 0 <= i < sz -> mem s' (q + i) = mem s (p + i)).
Proof.
  intros Hinv Hfs Hpost Hr p Hcall.
  pose proof (inv_blocks _ _ Hinv) as Hok.
  pose proof (Forall_app_l _ _ _ Hok) as Hok1.
  pose proof (Forall_app_r _ _ _ Hok) as Hok2.
  pose proof (Forall_inv Hok2) as [Hsz _]. cbn [bsize fst] in Hsz.
  apply Forall_inv_tail in Hok2.
  pose proof (Forall_app_l _ _ _ Hok2) as Hokf.
  pose proof (Forall_app_r _ _ _ Hok2) as Hok3.
  pose proof (total_nonneg _ Hokf) as Htf.
  destruct (myrealloc_absorb _ _ _ _ _ r Hinv Hfs Hpost)
    as (s1 & E1 & Habs & Hseg & Hframe1).
  fold p in E1. rewrite E1 in Hcall. clear E1.
  assert (Hst : Explicit.segment_start (glob s1)
                = Explicit.segment_start (glob s)) by apply Hseg.
  assert (Hkeep : forall i, 0 <= i < sz -> mem s1 (p + i) = mem s (p + i)).
  { intros i Hi. apply Hframe1. intros lo hi [K | Hin].
    - injection K as <- <-. unfold p. lia.
    - apply (outside_links pre post _ _ (p + i) Hok1 Hok3) in Hin;
        [exact Hin | unfold p; lia]. }
  destruct (Z_le_gt_dec (Explicit.roundup r ALIGNMENT) (sz + total fs))
    as [Hfit | Hnofit].
  - left.
    destruct (finish_inplace _ _ _ _ _ r Habs Hr Hfit)
      as (s2 & E2 & _ & _ & Hframe2).
    rewrite Hst in E2, Hframe2. fold p in E2.
    rewrite E2 in Hcall. injection Hcall as <- <-.
    conj_split; [exact Hfit | reflexivity |].
    intros i Hi. rewrite <- Hkeep by lia.
    apply Hframe2. intros lo hi [K | [K | Hin]].
    + injection K as <- <-. unfold p. lia.
    + injection K as <- <-. unfold p. lia.
    + apply (outside_links pre post _ _ (p + i) Hok1 Hok3) in Hin;
        [exact Hin | unfold p; lia].
  - right. split; [lia|].
    destruct (first_fit_dec (Explicit.roundup r ALIGNMENT)
                (pre ++ ((sz, false) :: mark_used fs) ++ post))
      as [Hno | (pre2 & sz2 & post2 & E & Hs & Hle)].
    + apply too_small_app in Hno. destruct Hno as [Hno1 Hno2].
      apply too_small_app in Hno2. destruct Hno2 as [_ Hno2].
      assert (Hno : too_small (Explicit.roundup r ALIGNMENT) (pre ++ post))
        by (apply too_small_app; split; assumption).
      pose proof (finish_no_fit _ _ _ _ _ r Habs ltac:(lia) Hno) as E2.
      rewrite Hst in E2. fold p in E2. rewrite E2 in Hcall.
      discriminate Hcall.
    + destruct (finish_move _ _ _ _ _ _ _ _ r Habs Hr ltac:(lia) E Hs Hle)
        as (s2 & preB & postB & E2 & _ & _ & Hbytes & _).
      rewrite Hst in E2, Hbytes. fold p in E2, Hbytes.
      rewrite E2 in Hcall. injection Hcall as <- <-.
      split.
      * intros Heq.
        pose proof (inv_blocks _ _ (absorbed_inv _ _ _ _ _ Habs)) as HokL.
        assert (B1 : block_at (Explicit.segment_start (glob s))
                       (pre ++ ((sz, false) :: mark_used fs) ++ post)
                       (Explicit.segment_start (glob s) + total pre)
                       (sz, false)).
        { exists pre, (mark_used fs ++ post). split; reflexivity. }
        assert (B2 : block_at (Explicit.segment_start (glob s))
                       (pre ++ ((sz, false) :: mark_used fs) ++ post)
                       (Explicit.segment_start (glob s) + total pre)
                       (sz2, true)).
        { exists pre2, post2. split; [exact E | unfold p in Heq; lia]. }
        pose proof (block_at_fun _ _ _ _ _ HokL B1 B2) as K.
        discriminate K.
      * intros i Hi. rewrite <- Hkeep by lia.
        replace (p + i)
          with (Explicit.segment_start (glob s) + total pre + 8 + i)
          by (unfold p; lia).
        apply Hbytes. exact Hi.
Qed.

(* ================================================================= *)
(** ** The implicit variant *)

Ltac iproj :=
  unfold Implicit.set_segment_start, Implicit.set_segment_end in *;
  cbn [mem glob heap_lo heap_hi Implicit.segment_start Implicit.segment_end]
    in *.

Ltac istep :=
  first
    [ rewrite bind_get
    | rewrite bind_modify
    | rewrite bind_ret
    | rewrite bind_read by acc
    | rewrite bind_write by acc
    | rewrite bind_assoc
    | rewrite write_ok by acc ];
  iproj.

Lemma iroundup_small (r : Z) : r <= 8 -> Implicit.roundup r ALIGNMENT = 8.
Proof.
  intros H. unfold Implicit.roundup, ALIGNMENT.
  now rewrite (proj2 (Z.leb_le r 8)) by exact H.
Qed.

Lemma iroundup_large (r : Z) :
  8 < r < two64 ->
  Implicit.roundup r ALIGNMENT = Z.land ((r + 7) mod two64) (two64 - 8).
Proof.
  intros H. unfold Implicit.roundup, ALIGNMENT.
  rewrite (proj2 (Z.leb_gt r 8)) by lia.
  unfold wsub, wadd, wrap. change (8 - 1) with 7.
  change (wnot (7 mod two64)) with (two64 - 8).
  f_equal. rewrite two64_eq. zlia.
Qed.

Lemma iroundup_ok (r : Z) :
  0 <= r <= two64 - 8 ->
  8 <= Implicit.roundup r ALIGNMENT
  /\ Implicit.roundup r ALIGNMENT mod 8 = 0
  /\ r <= Implicit.roundup r ALIGNMENT
  /\ Implicit.roundup r ALIGNMENT < two64.
Proof.
  intros H. destruct (Z_le_gt_dec r 8) as [Hs | Hl].
  - rewrite iroundup_small by exact Hs. rewrite two64_eq in *.
    repeat split; zlia.
  - rewrite iroundup_large by (rewrite two64_eq in *; lia).
    rewrite Z.mod_small by (rewrite two64_eq in *; lia).
    rewrite land_not7 by (rewrite two64_eq in *; lia).
    rewrite two64_eq in *. zlia.
Qed.

Lemma itotal_nonneg (bl : list block) : Forall iblock_ok bl -> 0 <= total bl.
Proof.
  induction 1 as [|b bl [Hb _] _ IH]; cbn [total]; lia.
Qed.

Lemma imyinit_refused (s : Implicit.state) (start size : Z) :
  start = 0 \/ size <= 8 -> Implicit.myinit start size s = Ok false s.
Proof.
  intros H. unfold Implicit.myinit, Implicit.HEADER_LENGTH.
  destruct H as [-> | H].
  - reflexivity.
  - rewrite (proj2 (Z.leb_le size 8)) by exact H. now rewrite orb_true_r.
Qed.

Lemma imyinit_run (s : Implicit.state) (start size : Z) :
  0 < start -> 8 < size ->
  heap_lo s <= start -> start + size <= heap_hi s ->
  Implicit.myinit start size s
  = Ok true
      (Machine (store64 (mem s) start (Z.lor (wsub size 8) 7))
         (heap_lo s) (heap_hi s) (Implicit.Globals start (start + size))).
Proof.
  intros H0 Hs Hlo Hhi.
  unfold Implicit.myinit, Implicit.HEADER_LENGTH, Implicit.FREE.
  rewrite (proj2 (Z.eqb_neq start 0)) by lia.
  rewrite (proj2 (Z.leb_gt size 8)) by lia. cbn [orb].
  repeat istep. reflexivity.
Qed.

Lemma iheap_block (s : Implicit.state) (done rest : list block) (b : block) :
  iheap s (done ++ b :: rest) ->
  let p := Implicit.segment_start (glob s) + total done in
  load64 (mem s) p = header_word b
  /\ 0 < p /\ heap_lo s <= p /\ p + 8 + bsize b <= heap_hi s
  /\ p + 8 + bsize b + total rest = Implicit.segment_end (glob s)
  /\ 0 <= total done /\ 0 <= total rest
  /\ 8 <= bsize b /\ bsize b mod 8 = 0 /\ bsize b + 7 < two64.
Proof.
  intros [Hh He Hs Hb Hlo Hhi Hok] p. subst p.
  rewrite total_app in He. cbn [total] in He.
  apply heap_at_app in Hh. destruct Hh as [_ [Hw _]].
  apply Forall_app in Hok. destruct Hok as [Hok1 Hok2].
  pose proof (itotal_nonneg _ Hok1).
  pose proof (itotal_nonneg _ (Forall_inv_tail Hok2)).
  destruct (Forall_inv Hok2) as [Hb1 Hb2].
  repeat split; try assumption; lia.
Qed.

(** The first-fit search of the implicit [mymalloc] from the block after
    [done]: it returns null and leaves the state as it is, or returns the
    payload of a FREE block and writes inside that block only. *)
Lemma imalloc_loop_spec (s : Implicit.state) (bl : list block) (needed : Z) :
  iheap s bl -> 0 <= needed < two64 ->
  forall (rest done : list block) (fuel : nat),
    bl = done ++ rest -> (length rest < fuel)%nat ->
    let a := Implicit.segment_start (glob s) in
    Implicit.mymalloc_loop fuel needed (a + total done) s = Ok 0 s
    \/ exists pre2 sz2 post2 s',
         bl = pre2 ++ (sz2, true) :: post2 /\ needed <= sz2
         /\ Implicit.mymalloc_loop fuel needed (a + total done) s
            = Ok (a + total pre2 + 8) s'
         /\ glob s' = glob s /\ heap_lo s' = heap_lo s
         /\ heap_hi s' = heap_hi s
         /\ same_outside (mem s) (mem s')
              [(a + total pre2, a + total pre2 + 8 + sz2)].
Proof.
  intros Hinv Hn rest.
  induction rest as [|[n f] rest IH]; intros done fuel E Hf a;
    (destruct fuel as [|fuel]; [simpl in Hf; lia|]);
    cbn [Implicit.mymalloc_loop]; rewrite bind_get.
  - left. rewrite app_nil_r in E. subst done.
    rewrite (ih_end _ _ Hinv). fold a.
    now rewrite (proj2 (Z.ltb_ge _ _)) by lia.
  - subst bl.
    destruct (iheap_block _ _ _ _ Hinv)
      as (Hw & Hp0 & Hplo & Hphi & Hpe & Htd & Htr & Hb1 & Hb2 & Hb3).
    fold a in Hw, Hp0, Hplo, Hphi, Hpe. cbn [bsize fst] in *.
    rewrite (proj2 (Z.ltb_lt _ _)) by lia.
    rewrite bind_read by lia. rewrite Hw.
    change Implicit.FREE with Explicit.FREE.
    unfold Implicit.HEADER_LENGTH.
    assert (Hnext : a + total done + n + 8 = a + total (done ++ [(n, f)])).
    { rewrite total_app. cbn [total bsize fst]. lia. }
    assert (Hrec :
              Implicit.mymalloc_loop fuel needed (a + total done + n + 8) s
              = Ok 0 s
              \/ exists pre2 sz2 post2 s',
                  done ++ (n, f) :: rest = pre2 ++ (sz2, true) :: post2
                  /\ needed <= sz2
                  /\ Implicit.mymalloc_loop fuel needed
                       (a + total done + n + 8) s
                     = Ok (a + total pre2 + 8) s'
                  /\ glob s' = glob s /\ heap_lo s' = heap_lo s
                  /\ heap_hi s' = heap_hi s
                  /\ same_outside (mem s) (mem s')
                       [(a + total pre2, a + total pre2 + 8 + sz2)]).
    { rewrite Hnext. apply IH; [|simpl in Hf; lia].
      rewrite <- app_assoc. reflexivity. }
    destruct f; unfold header_word; cbn [bfree bsize fst snd].
    + rewrite free_header_size, free_header_status by lia.
      change (7 =? Explicit.FREE) with true. rewrite andb_true_r.
      rewrite Z.geb_leb.
      destruct (Z_le_gt_dec needed n) as [Hfit | Hsmall].
      * rewrite (proj2 (Z.leb_le needed n)) by exact Hfit.
        right. exists done, n, rest.
        rewrite wsub_small by lia.
        destruct (Z_le_gt_dec (n - needed) 8) as [Hpad | Hsplit].
        -- rewrite (proj2 (Z.leb_le _ _)) by exact Hpad.
           eexists. split; [reflexivity|]. split; [exact Hfit|].
           rewrite bind_write by lia. split; [reflexivity|].
           cbn [glob heap_lo heap_hi mem]. repeat split.
           intros x Hx. specialize (Hx _ _ (or_introl eq_refl)).
           apply store64_out. lia.
        -- rewrite (proj2 (Z.leb_gt _ _)) by lia.
           eexists. split; [reflexivity|]. split; [exact Hfit|].
           rewrite bind_assoc, bind_write by lia.
           rewrite bind_write by (cbn [heap_lo heap_hi]; lia).
           split; [reflexivity|].
           cbn [glob heap_lo heap_hi mem]. repeat split.
           intros x Hx. specialize (Hx _ _ (or_introl eq_refl)).
           rewrite !store64_out by lia. reflexivity.
      * rewrite (proj2 (Z.leb_gt needed n)) by lia. exact Hrec.
    + rewrite used_header_size, used_header_status by lia.
      change (0 =? Explicit.FREE) with false. rewrite andb_false_r.
      exact Hrec.
Qed.

Lemma itotal_length (bl : list block) :
  Forall iblock_ok bl -> 16 * Z.of_nat (length bl) <= total bl.
Proof.
  induction 1 as [|b bl [Hb _] _ IH]; cbn [total length]; lia.
Qed.

(** Two blocks of a walk, one USED and one FREE, do not overlap. *)
Lemma iblocks_apart (pre post pre2 post2 : list block) (sz sz2 : Z) :
  Forall iblock_ok (pre ++ (sz, false) :: post) ->
  pre ++ (sz, false) :: post = pre2 ++ (sz2, true) :: post2 ->
  total pre2 + 8 + sz2 <= total pre \/ total pre + 8 + sz <= total pre2.
Proof.
  intros Hok E.
  destruct (app_cons_split pre [(sz, false)] post pre2 post2 (sz2, true) E)
    as [(m & -> & _) | (m & -> & ->)].
  - intros [K | []]. discriminate K.
  - left. apply Forall_app_l in Hok. apply Forall_app_r in Hok.
    pose proof (itotal_nonneg _ (Forall_inv_tail Hok)).
    rewrite total_app. cbn [total bsize fst]. lia.
  - right. apply Forall_app_r in Hok. apply Forall_inv_tail in Hok.
    apply Forall_app_l in Hok. pose proof (itotal_nonneg _ Hok).
    rewrite !total_app. cbn [total bsize fst]. lia.
Qed.

Lemma imalloc_spec (s : Implicit.state) (bl : list block) (r : Z) :
  iheap s bl -> 0 <= r <= two64 - 8 ->
  let a := Implicit.segment_start (glob s) in
  let needed := Implicit.roundup r ALIGNMENT in
  Implicit.mymalloc r s = Ok 0 s
  \/ exists pre2 sz2 post2 s',
       bl = pre2 ++ (sz2, true) :: post2 /\ needed <= sz2
       /\ Implicit.mymalloc r s = Ok (a + total pre2 + 8) s'
       /\ glob s' = glob s /\ heap_lo s' = heap_lo s
       /\ heap_hi s' = heap_hi s
       /\ same_outside (mem s) (mem s')
            [(a + total pre2, a + total pre2 + 8 + sz2)].
Proof.
  intros Hinv Hr a needed.
  destruct (iroundup_ok r Hr) as (R1 & R2 & R3 & R4).
  unfold Implicit.mymalloc. rewrite bind_get. fold a.
  change (bind Implicit.current_fuel ?k s) with (k (Implicit.heap_fuel s) s).
  cbv beta.
  assert (Hfuel : (length bl < Implicit.heap_fuel s)%nat).
  { unfold Implicit.heap_fuel.
    pose proof (itotal_length _ (ih_blocks _ _ Hinv)).
    pose proof (ih_end _ _ Hinv). lia. }
  pose proof (imalloc_loop_spec s bl needed Hinv ltac:(lia) bl []
                (Implicit.heap_fuel s) eq_refl Hfuel) as H.
  cbn [total] in H. rewrite Z.add_0_r in H. exact H.
Qed.

(** The implicit [myrealloc] returns, and when it returns a block, the
    first [min(old_size, new_size)] bytes of the payload are those of the old
    payload. *)
Lemma irealloc_preserves (s : Implicit.state) (pre post : list block)
  (sz r : Z) :
  iheap s (pre ++ (sz, false) :: post) -> 0 <= r <= two64 - 8 ->
  let p := Implicit.segment_start (glob s) + total pre + 8 in
  exists q s',
    Implicit.myrealloc p r s = Ok q s'
    /\ (q <> 0 ->
        forall i, 0 <= i < Z.min sz r -> mem s' (q + i) = mem s (p + i)).
Proof.
  intros Hinv Hr p.
  destruct (iroundup_ok r Hr) as (R1 & R2 & R3 & R4).
  destruct (iheap_block _ _ _ _ Hinv)
    as (Hw & Hp0 & Hplo & Hphi & Hpe & Htd & Htr & Hb1 & Hb2 & Hb3).
  cbn [bsize fst] in *. unfold header_word in Hw. cbn [bfree bsize fst snd] in Hw.
  unfold Implicit.myrealloc, Implicit.HEADER_LENGTH.
  rewrite (proj2 (Z.eqb_neq p 0)) by (unfold p; lia).
  replace (p - 8) with (Implicit.segment_start (glob s) + total pre)
    by (unfold p; lia).
  rewrite bind_read by lia. rewrite Hw.
  rewrite Z.geb_leb.
  destruct (Z_le_gt_dec (Implicit.roundup r ALIGNMENT) sz) as [Hfit | Hmove].
  - rewrite (proj2 (Z.leb_le _ _)) by exact Hfit.
    rewrite wsub_small by lia. rewrite Z.gtb_ltb.
    destruct (Z_lt_ge_dec 8 (sz - Implicit.roundup r ALIGNMENT)) as [Hs | Hs].
    + rewrite (proj2 (Z.ltb_lt _ _)) by exact Hs. cbn [when].
      rewrite bind_write by (unfold p; lia).
      eexists _, _. split; [reflexivity|]. intros _ i Hi. cbn [mem].
      apply store64_out. lia.
    + rewrite (proj2 (Z.ltb_ge _ _)) by lia. cbn [when]. rewrite bind_ret.
      eexists _, _. split; [reflexivity|]. intros _ i Hi. reflexivity.
  - rewrite (proj2 (Z.leb_gt _ _)) by lia.
    destruct (imalloc_spec s _ r Hinv Hr)
      as [E | (pre2 & sz2 & post2 & s1 & E & Hle & Ecall & Hg & Hlo1 & Hhi1
               & Hframe)].
    + rewrite (bind_ok _ _ _ _ _ E). change (0 =? 0) with true. cbv match.
      eexists _, _. split; [reflexivity|]. intros K. now contradiction K.
    + pose proof Hinv as Hinv2. rewrite E in Hinv2.
      destruct (iheap_block _ _ _ _ Hinv2)
        as (_ & Hq0 & Hqlo & Hqhi & _ & Htd2 & _ & Hc1 & Hc2 & Hc3).
      cbn [bsize fst] in *.
      pose proof (iblocks_apart _ _ _ _ _ _ (ih_blocks _ _ Hinv) E) as Hapart.
      rewrite (bind_ok _ _ _ _ _ Ecall).
      rewrite (proj2 (Z.eqb_neq _ 0)) by lia.
      assert (Hcopy :
                memcpy (Implicit.segment_start (glob s) + total pre2 + 8) p sz
                  s1
                = Ok tt
                    (Machine
                       (copy_bytes (mem s1)
                          (Implicit.segment_start (glob s) + total pre2 + 8)
                          p sz)
                       (heap_lo s1) (heap_hi s1) (glob s1))).
      { apply memcpy_ok; rewrite Hlo1, Hhi1; unfold p; lia. }
      rewrite (bind_ok _ _ _ _ _ Hcopy).
      unfold Implicit.myfree, Implicit.HEADER_LENGTH.
      rewrite (proj2 (Z.eqb_neq p 0)) by (unfold p; lia). cbn [negb].
      rewrite bind_assoc.
      rewrite bind_read by (cbn [heap_lo heap_hi]; rewrite Hlo1, Hhi1;
                            unfold p; lia).
      rewrite bind_write by (cbn [heap_lo heap_hi]; rewrite Hlo1, Hhi1;
                             unfold p; lia).
      rewrite ?bind_ret.
      eexists _, _. split; [reflexivity|]. intros _ i Hi. cbn [mem].
      rewrite store64_out by (unfold p; lia).
      rewrite copy_bytes_in by lia.
      apply Hframe. intros lo hi [K | []]. injection K as <- <-.
      unfold p. lia.
Qed.

(* ================================================================= *)
(** ** The sample heaps *)

Lemma returned_after {G A} (c : M G A) (s : machine G) (a : A) :
  returned (c s) = Some a -> c s = Ok a (after c s).
Proof.
  unfold returned, after, final. destruct (c s); intros H;
    [injection H as -> | discriminate H | discriminate H]. reflexivity.
Qed.

Lemma faulted_after {G A} (c : M G A) (s : machine G) :
  faulted (c s) = true -> c s = Fault (after c s).
Proof.
  unfold faulted, after, final. destruct (c s); intros H;
    [discriminate H | reflexivity | discriminate H].
Qed.

Lemma reach_mono (U V : Explicit.state -> Z -> Z -> Prop)
  (s : Explicit.state) :
  (forall s p sz, U s p sz -> V s p sz) -> reach U s -> reach V s.
Proof.
  intros HUV Hr.
  induction Hr as [s0 start size s H0 H8 Hb Hlo Hhi E | s s' _ IH Hc].
  - exact (reach_init V s0 start size s H0 H8 Hb Hlo Hhi E).
  - apply (reach_call V s s' IH).
    destruct Hc as
      [s r p s' Hr E | s p sz s' Hl E | s p sz r q s' Hl Hu Hr E
       | s p sz x v Hl Hx].
    + exact (call_malloc V s r p s' Hr E).
    + exact (call_free V s p sz s' (HUV _ _ _ Hl) E).
    + exact (call_realloc V s p sz r q s' Hl (fun K => HUV _ _ _ (Hu K)) Hr E).
    + exact (call_store V s p sz x v Hl Hx).
Qed.

Lemma live_left_used_live (s : Explicit.state) (p sz : Z) :
  live_left_used s p sz -> live s p sz.
Proof. intros (pre & H & _). now exists pre. Qed.

(** A reachable state represents the blocks of its own walk. *)
Lemma reach_blocks (s : Explicit.state) :
  reach live s -> heap_inv s (blocks s).
Proof.
  intros Hr. destruct (reach_inv live s (fun _ _ _ H => H) Hr) as [bl Hinv].
  now rewrite (blocks_inv _ _ Hinv).
Qed.

Ltac sample_run := apply returned_after; vm_compute; reflexivity.

Ltac sample_live pre :=
  exists pre; eexists; split; vm_compute; reflexivity.

Lemma reach_fresh : reach live_left_used Sample.fresh.
Proof.
  apply (reach_init _ (zeroed 4096 1024) 4096 1024);
    [lia | reflexivity | reflexivity | reflexivity | reflexivity | sample_run].
Qed.

Lemma reach_one24 : reach live_left_used Sample.one24.
Proof.
  apply (reach_call _ _ _ reach_fresh).
  apply (call_malloc _ _ 24 4104); [rewrite two64_eq; lia | sample_run].
Qed.

Lemma reach_took984 : reach live_left_used Sample.took984.
Proof.
  apply (reach_call _ _ _ reach_fresh).
  apply (call_malloc _ _ 984 4104); [rewrite two64_eq; lia | sample_run].
Qed.

Lemma reach_packed : reach live_left_used Sample.packed.
Proof.
  apply (reach_call _ _ _ reach_fresh).
  apply (call_malloc _ _ 1016 4104); [rewrite two64_eq; lia | sample_run].
Qed.

Lemma reach_two16 : reach live_left_used Sample.two16.
Proof.
  apply (reach_call _ (after (Explicit.mymalloc 16) Sample.fresh)).
  - apply (reach_call _ _ _ reach_fresh).
    apply (call_malloc _ _ 16 4104); [rewrite two64_eq; lia | sample_run].
  - apply (call_malloc _ _ 16 4128); [rewrite two64_eq; lia | sample_run].
Qed.

Lemma reach_three16 : reach live_left_used Sample.three16.
Proof.
  apply (reach_call _ _ _ reach_two16).
  apply (call_malloc _ _ 16 4152); [rewrite two64_eq; lia | sample_run].
Qed.

Lemma reach_freed_first : reach live_left_used Sample.freed_first.
Proof.
  apply (reach_call _ _ _ reach_two16).
  apply (call_free _ _ 4104 16); [|sample_run].
  exists []. split; [eexists; split; vm_compute; reflexivity | exact I].
Qed.

Lemma reach_freed_middle : reach live_left_used Sample.freed_middle.
Proof.
  apply (reach_call _ _ _ reach_three16).
  apply (call_free _ _ 4128 16); [|sample_run].
  exists [(16, false)].
  split; [eexists; split; vm_compute; reflexivity | reflexivity].
Qed.

Lemma reach_freed_both : reach live Sample.freed_both.
Proof.
  apply (reach_call _ Sample.freed_first).
  - exact (reach_mono _ _ _ live_left_used_live reach_freed_first).
  - apply (call_free _ _ 4128 16); [|sample_run].
    exists [(16, true)]. eexists; split; vm_compute; reflexivity.
Qed.

Lemma fresh_inv : heap_inv Sample.fresh [(1016, true)].
Proof.
  exact (reach_blocks _ (reach_mono _ _ _ live_left_used_live reach_fresh)).
Qed.

Lemma one24_inv : heap_inv Sample.one24 [(24, false); (984, true)].
Proof.
  exact (reach_blocks _ (reach_mono _ _ _ live_left_used_live reach_one24)).
Qed.

Lemma took984_inv : heap_inv Sample.took984 [(984, false); (24, true)].
Proof.
  exact (reach_blocks _ (reach_mono _ _ _ live_left_used_live reach_took984)).
Qed.

Lemma packed_inv : heap_inv Sample.packed [(1016, false)].
Proof.
  exact (reach_blocks _ (reach_mono _ _ _ live_left_used_live reach_packed)).
Qed.

Lemma freed_middle_inv :
  heap_inv Sample.freed_middle
    [(16, false); (16, true); (16, false); (944, true)].
Proof.
  exact (reach_blocks _
           (reach_mono _ _ _ live_left_used_live reach_freed_middle)).
Qed.

Lemma three16_inv :
  heap_inv Sample.three16 [(16, false); (16, false); (16, false); (944, true)].
Proof.
  exact (reach_blocks _ (reach_mono _ _ _ live_left_used_live reach_three16)).
Qed.

Lemma one200_iheap : iheap ISample.one200 [(200, false); (808, true)].
Proof.
  split; cbn [heap_at]; try (vm_compute; reflexivity).
  - conj_split; [vm_compute; reflexivity | vm_compute; reflexivity | exact I].
  - repeat constructor; vm_compute; try reflexivity; discriminate.
Qed.

Ltac zcomp :=
  vm_compute;
  first [ reflexivity | discriminate
        | split; first [reflexivity | discriminate | (intros K; discriminate K)]
        | (intros K; discriminate K) ].

Lemma two16_inv : heap_inv Sample.two16 [(16, false); (16, false); (968, true)].
Proof.
  exact (reach_blocks _ (reach_mono _ _ _ live_left_used_live reach_two16)).
Qed.

Lemma ifresh_iheap : iheap ISample.fresh [(1016, true)].
Proof.
  split; cbn [heap_at]; try (vm_compute; reflexivity).
  - split; [vm_compute; reflexivity | exact I].
  - repeat constructor; vm_compute; try reflexivity; discriminate.
Qed.

(* ================================================================= *)
(** ** Out of space *)

Ltac no_fit :=
  repeat first
    [ apply Forall_nil
    | apply Forall_cons;
      [ cbn [bfree bsize fst snd]; intros K;
        first [discriminate K | vm_compute; reflexivity] | ] ].

(** C1.  When no FREE block holds the request, [mymalloc] does not return
    null: its loop [while (curr <= list_end)] goes on with [curr = NULL]
    and reads the header at the null address.  On the heap of
    [myinit(4096, 1024)], [mymalloc(2000)] stops at that read; so does
    [mymalloc(100)] after [mymalloc(984)], which left a FREE block of 24
    bytes (the free list is not empty there), and [mymalloc(16)] after
    [mymalloc(1016)], where the free list is empty. *)
Theorem mymalloc_out_of_space :
  Explicit.mymalloc 2000 Sample.fresh = Fault Sample.fresh
  /\ returned (Explicit.mymalloc 984 Sample.fresh) = Some 4104
  /\ blocks Sample.took984 = [(984, false); (24, true)]
  /\ Explicit.mymalloc 100 Sample.took984 = Fault Sample.took984
  /\ returned (Explicit.mymalloc 1016 Sample.fresh) = Some 4104
  /\ Explicit.list_head (glob Sample.packed) = 0
  /\ Explicit.mymalloc 16 Sample.packed = Fault Sample.packed.
Proof.
  conj_split.
  - apply (mymalloc_no_fit _ _ _ fresh_inv). no_fit.
  - vm_compute; reflexivity.
  - vm_compute; reflexivity.
  - apply (mymalloc_no_fit _ _ _ took984_inv). no_fit.
  - vm_compute; reflexivity.
  - vm_compute; reflexivity.
  - apply (mymalloc_no_fit _ _ _ packed_inv). no_fit.
Qed.

(** C2.  [myrealloc(4104, 2000)] on the heap of [myinit(4096, 1024)];
    [mymalloc(24)] does not return null: having absorbed the FREE block to
    the right (it is marked USED and the free list is empty), it stops inside
    its [mymalloc] at the read of the null address.  And were [mymalloc] to
    return null, the code that follows has no test for it: it copies to the
    null address. *)
Theorem myrealloc_out_of_space :
  faulted (Explicit.myrealloc 4104 2000 Sample.one24) = true
  /\ blocks Sample.one24 = [(24, false); (984, true)]
  /\ blocks (after (Explicit.myrealloc 4104 2000) Sample.one24)
     = [(24, false); (984, false)]
  /\ Explicit.free_blocks_num
       (glob (after (Explicit.myrealloc 4104 2000) Sample.one24)) = 0
  /\ forall (old_ptr old_size curr curr_size : Z) (s : Explicit.state),
       Explicit.myrealloc_move 0 old_ptr old_size curr curr_size s = Fault s.
Proof.
  conj_split; [vm_compute; reflexivity ..|].
  intros old_ptr old_size curr curr_size s.
  unfold Explicit.myrealloc_move. apply bind_fault.
  unfold memcpy. now rewrite accessible_null.
Qed.

(* ================================================================= *)
(** ** The validator *)

(** C3, as stated, fails: after [myinit(4096, 1024)], [p = mymalloc(24)]
    and [myrealloc(p, 2^64 - 1)], which returns [p], [validate_heap] returns
    false (the request rounds up to 0 and the block is left with a payload of
    0 bytes); and after [myinit(4096, 1028)] it reads past the end of the
    segment. *)
Lemma validate_heap_counterexample :
  returned (Explicit.myinit 4096 1024 (zeroed 4096 1024)) = Some true
  /\ returned (Explicit.mymalloc 24 Sample.fresh) = Some 4104
  /\ returned (Explicit.myrealloc 4104 (two64 - 1) Sample.one24) = Some 4104
  /\ returned (Explicit.validate_heap
                 (after (Explicit.myrealloc 4104 (two64 - 1)) Sample.one24))
     = Some false
  /\ returned (Explicit.myinit 4096 1028 (zeroed 4096 1028)) = Some true
  /\ faulted (Explicit.validate_heap
                (after (Explicit.myinit 4096 1028) (zeroed 4096 1028)))
     = true.
Proof. conj_split; vm_compute; reflexivity. Qed.

(** C3, amended.  After a successful [myinit] on a segment of a multiple of
    8 bytes and any sequence of calls that return, [mymalloc] and [myrealloc]
    for at most [2^64 - 8] bytes, [myfree] and [myrealloc] on live blocks,
    with any stores of the client into live payloads, [validate_heap]
    returns true (and leaves the state as it is). *)
Theorem validate_heap_reachable (s : Explicit.state) :
  reach live s -> Explicit.validate_heap s = Ok true s.
Proof.
  intros Hr. destruct (reach_inv live s (fun _ _ _ H => H) Hr) as [bl Hinv].
  exact (validate_heap_ok s bl Hinv).
Qed.

Lemma validate_heap_reachable_witness :
  Explicit.validate_heap Sample.freed_both = Ok true Sample.freed_both.
Proof.
  apply (validate_heap_reachable Sample.freed_both).
  apply (reach_call _ Sample.freed_first).
  - apply (reach_call _ Sample.two16).
    + apply (reach_call _ (after (Explicit.mymalloc 16) Sample.fresh)).
      * apply (reach_call _ Sample.fresh).
        -- apply (reach_init _ (zeroed 4096 1024) 4096 1024);
             [lia | reflexivity | reflexivity | reflexivity | reflexivity
             | apply returned_after; vm_compute; reflexivity].
        -- apply (call_malloc _ _ 16 4104);
             [rewrite two64_eq; lia
             | apply returned_after; vm_compute; reflexivity].
      * apply (call_malloc _ _ 16 4128);
          [rewrite two64_eq; lia
          | apply returned_after; vm_compute; reflexivity].
    + apply (call_free _ _ 4104 16);
        [|apply returned_after; vm_compute; reflexivity].
      exists []. eexists; split; vm_compute; reflexivity.
  - apply (call_free _ _ 4128 16);
      [|apply returned_after; vm_compute; reflexivity].
    exists [(16, true)]. eexists; split; vm_compute; reflexivity.
Defined.

(* ================================================================= *)
(** ** Allocation *)



(* ================================================================= *)
(** ** Release *)

Lemma freed_used (sz : Z) (post : list block) :
  starts_used post -> freed sz post = (sz, true) :: post.
Proof.
  destruct post as [|[rs [|]] post']; cbn [starts_used bfree snd freed];
    intros H; [reflexivity | discriminate H | reflexivity].
Qed.

Lemma header_of_free (s : Explicit.state) (pre post : list block) (sz : Z) :
  heap_inv s (pre ++ (sz, true) :: post) ->
  load64 (mem s) (Explicit.segment_start (glob s) + total pre)
  = Z.lor sz Explicit.FREE
  /\ flist s
       (free_addrs (Explicit.segment_start (glob s)) pre
        ++ (Explicit.segment_start (glob s) + total pre)
        :: free_addrs (Explicit.segment_start (glob s) + total pre + 8 + sz)
             post).
Proof.
  intros Hinv.
  destruct (free_block_facts s pre post sz Hinv)
    as (_ & _ & _ & _ & Hsz8 & Hld & _ & _ & Efl & _).
  split.
  - rewrite Hld, lor_free by exact Hsz8. reflexivity.
  - rewrite <- Efl. apply (shape_flist _ _ (inv_shape _ _ Hinv)).
Qed.

(** C5.  [myfree(p)] on a USED block of payload [sz] at [b = p - 8].  When the
    block to its right, at [right = p + sz], is FREE with payload [rs]: the
    two become one FREE block at [b] of payload [sz + 8 + rs], whose link
    words are those the right block had, and which takes the place of the
    right block in the free list (the links of the neighbours, the head and
    the tail name [b] where they named [right]).  When there is no block to
    the right or it is USED: the block becomes FREE and enters the free
    list between the FREE blocks before it and those after it. *)
Theorem myfree_coalesces_right :
  (forall (s : Explicit.state) (pre post : list block) (sz rs : Z),
      heap_inv s (pre ++ (sz, false) :: (rs, true) :: post) ->
      let a := Explicit.segment_start (glob s) in
      let b := a + total pre in
      let right := b + 8 + sz in
      let l1 := free_addrs a pre in
      let l2 := free_addrs (right + 8 + rs) post in
      flist s (l1 ++ right :: l2)
      /\ exists s',
          Explicit.myfree (b + 8) s = Ok tt s'
          /\ heap_inv s' (pre ++ (sz + 8 + rs, true) :: post)
          /\ load64 (mem s') b = Z.lor (sz + 8 + rs) Explicit.FREE
          /\ load64 (mem s') (b + 8) = load64 (mem s) (right + 8)
          /\ load64 (mem s') (b + 16) = load64 (mem s) (right + 16)
          /\ flist s' (l1 ++ b :: l2))
  /\ (forall (s : Explicit.state) (pre post : list block) (sz : Z),
         heap_inv s (pre ++ (sz, false) :: post) ->
         starts_used post ->
         let a := Explicit.segment_start (glob s) in
         let b := a + total pre in
         let l1 := free_addrs a pre in
         let l2 := free_addrs (b + 8 + sz) post in
         flist s (l1 ++ l2)
         /\ exists s',
             Explicit.myfree (b + 8) s = Ok tt s'
             /\ heap_inv s' (pre ++ (sz, true) :: post)
             /\ load64 (mem s') b = Z.lor sz Explicit.FREE
             /\ flist s' (l1 ++ b :: l2)).
Proof.
  split.
  - intros s pre post sz rs Hinv a b right l1 l2.
    split.
    { pose proof (header_of_free s (pre ++ [(sz, false)]) post rs) as H.
      rewrite <- app_assoc in H. cbn [app] in H.
      destruct (H Hinv) as [_ Hfl].
      rewrite free_addrs_app, total_app in Hfl.
      cbn [free_addrs bfree bsize fst snd total] in Hfl. fold a b in Hfl.
      rewrite app_nil_r in Hfl.
      replace (a + (total pre + (8 + sz + 0))) with right in Hfl
        by (unfold right, b; lia).
      exact Hfl. }
    destruct (myfree_coalesce s pre post sz rs Hinv)
      as (s' & E & Hinv' & Hseg & _ & Hp & Hn).
    fold a b right in E, Hp, Hn.
    assert (Ha : Explicit.segment_start (glob s') = a) by apply Hseg.
    destruct (header_of_free _ _ _ _ Hinv') as [Hh Hfl].
    rewrite Ha in Hh, Hfl. fold b l1 in Hh, Hfl.
    replace (b + 8 + (sz + 8 + rs)) with (right + 8 + rs) in Hfl
      by (unfold right; lia).
    exists s'. conj_split; assumption.
  - intros s pre post sz Hinv Hused a b l1 l2.
    split.
    { pose proof (shape_flist _ _ (inv_shape _ _ Hinv)) as Hfl.
      rewrite free_addrs_app in Hfl.
      cbn [free_addrs bfree bsize fst snd] in Hfl. exact Hfl. }
    destruct (myfree_spec s pre post sz Hinv) as (s' & E & Hinv' & Hseg).
    rewrite (freed_used sz post Hused) in Hinv'.
    assert (Ha : Explicit.segment_start (glob s') = a) by apply Hseg.
    destruct (header_of_free _ _ _ _ Hinv') as [Hh Hfl].
    rewrite Ha in Hh, Hfl.
    exists s'. conj_split; assumption.
Qed.

Lemma myfree_coalesces_right_witness :
  (exists s',
      Explicit.myfree 4104 Sample.one24 = Ok tt s'
      /\ heap_inv s' [(1016, true)]
      /\ load64 (mem s') 4096 = 1023)
  /\ (exists s',
         Explicit.myfree 4128 Sample.three16 = Ok tt s'
         /\ heap_inv s' [(16, false); (16, true); (16, false); (944, true)]
         /\ load64 (mem s') 4120 = 23).
Proof.
  split.
  - destruct (proj1 myfree_coalesces_right Sample.one24 [] [] 24 984 one24_inv)
      as (_ & s' & E & Hinv & Hh & _).
    exists s'. conj_split; [exact E | exact Hinv | exact Hh].
  - destruct (proj2 myfree_coalesces_right Sample.three16 [(16, false)]
                [(16, false); (944, true)] 16 three16_inv)
      as (_ & s' & E & Hinv & Hh & _).
    + reflexivity.
    + exists s'. conj_split; [exact E | exact Hinv | exact Hh].
Defined.

(* ================================================================= *)
(** ** Initialisation *)

Lemma walk_one (m : memory) (a sz : Z) (fuel : nat) :
  0 <= sz -> sz mod 8 = 0 -> sz + 7 < two64 ->
  load64 m a = sz + 7 ->
  walk (S (S fuel)) m a (a + 8 + sz) = [(sz, true)].
Proof.
  intros H0 H8 Hb Hw. cbn [walk].
  rewrite (proj2 (Z.ltb_lt a (a + 8 + sz))) by lia.
  rewrite Hw, free_header_size, free_header_status by lia.
  unfold Explicit.HEADER_LENGTH.
  rewrite (proj2 (Z.ltb_ge _ _)) by lia. reflexivity.
Qed.

Lemma after_ok {G A} (c : M G A) (s s' : machine G) (a : A) :
  c s = Ok a s' -> after c s = s'.
Proof. intros E. unfold after. now rewrite E. Qed.

Lemma fuel_two (size : Z) :
  2 <= size -> exists n, S (Z.to_nat size) = S (S n).
Proof.
  intros H. exists (Z.to_nat size - 1)%nat. lia.
Qed.

(** What the two [myinit] do on a segment the caller owns.  The explicit
    one succeeds exactly when [start] is not null and [size >= 8 + 16]; the
    test of the implicit one is [heap_size <= HEADER_LENGTH], so that it
    succeeds exactly when [start] is not null and [size > 8]; a call that is
    refused changes nothing.  On success the header at [start] is
    [(size - 8) | FREE]; when [size] is a multiple of 8 the walk of the
    segment is that one FREE block of [size - 8] bytes, which with its header
    spans the segment.  In the explicit allocator the two link words of
    the block are null, [list_head] and [list_end] are the block, and
    [free_blocks_num] is 1. *)
Theorem myinit_succeeds_iff :
  (forall (s : Explicit.state) (start size : Z),
      0 <= start -> 0 <= size -> start + size < two64 ->
      heap_lo s <= start -> start + size <= heap_hi s ->
      let s' := after (Explicit.myinit start size) s in
      (returned (Explicit.myinit start size s) = Some true
       <-> start <> 0 /\ 8 + 16 <= size)
      /\ (~ (start <> 0 /\ 8 + 16 <= size) ->
          Explicit.myinit start size s = Ok false s)
      /\ (returned (Explicit.myinit start size s) = Some true ->
          load64 (mem s') start = Z.lor (size - 8) Explicit.FREE
          /\ load64 (mem s') (start + 8) = 0
          /\ load64 (mem s') (start + 16) = 0
          /\ glob s' = Explicit.Globals start (start + size) start start 1
          /\ (size mod 8 = 0 -> blocks s' = [(size - 8, true)])))
  /\ (forall (s : Implicit.state) (start size : Z),
         0 <= start -> 0 <= size -> start + size < two64 ->
         heap_lo s <= start -> start + size <= heap_hi s ->
         let s' := after (Implicit.myinit start size) s in
         (returned (Implicit.myinit start size s) = Some true
          <-> start <> 0 /\ 8 < size)
         /\ (~ (start <> 0 /\ 8 < size) ->
             Implicit.myinit start size s = Ok false s)
         /\ (returned (Implicit.myinit start size s) = Some true ->
             load64 (mem s') start = Z.lor (size - 8) Implicit.FREE
             /\ glob s' = Implicit.Globals start (start + size)
             /\ (size mod 8 = 0 -> iblocks s' = [(size - 8, true)]))).
Proof.
  split.
  - intros s start size H0 Hs Hb Hlo Hhi s'.
    assert (Hno : ~ (start <> 0 /\ 8 + 16 <= size) ->
                  Explicit.myinit start size s = Ok false s).
    { intros Hn. apply myinit_refused. lia. }
    assert (Hyes : start <> 0 /\ 8 + 16 <= size ->
                   Explicit.myinit start size s
                   = Ok true
                       (Machine
                          (store64
                             (store64
                                (store64 (mem s) start (Z.lor (size - 8) 7))
                                (start + 8) 0) (start + 16) 0)
                          (heap_lo s) (heap_hi s)
                          (Explicit.Globals start (start + size) start start
                             1))).
    { intros [Hn Hge]. apply myinit_run; lia. }
    assert (Hiff : returned (Explicit.myinit start size s) = Some true
                   <-> start <> 0 /\ 8 + 16 <= size).
    { split.
      - intros Hr.
        destruct (Z.eq_dec start 0) as [-> | Hn];
          [rewrite Hno in Hr by lia; discriminate Hr|].
        destruct (Z_lt_ge_dec size 24) as [Hlt | Hge];
          [rewrite Hno in Hr by lia; discriminate Hr | lia].
      - intros Hc. rewrite (Hyes Hc). reflexivity. }
    split; [exact Hiff|]. split; [exact Hno|].
    intros Hr. apply Hiff in Hr. pose proof (Hyes Hr) as E.
    destruct Hr as [Hn Hge].
    unfold s'. rewrite (after_ok _ _ _ _ E). cbn [mem glob].
    unfold Explicit.FREE.
    assert (Hv : 0 <= Z.lor (size - 8) 7 < two64).
    { rewrite lor_7. rewrite two64_eq in *. zlia. }
    assert (Hh : load64
                   (store64
                      (store64 (store64 (mem s) start (Z.lor (size - 8) 7))
                         (start + 8) 0) (start + 16) 0) start
                 = Z.lor (size - 8) 7).
    { rewrite !load64_store64_other by lia.
      apply load64_store64_same. exact Hv. }
    conj_split.
    + exact Hh.
    + rewrite load64_store64_other by lia.
      apply load64_store64_same. rewrite two64_eq. lia.
    + apply load64_store64_same. rewrite two64_eq. lia.
    + reflexivity.
    + intros H8. unfold blocks, Explicit.heap_fuel.
      cbn [mem glob Explicit.segment_start Explicit.segment_end].
      replace (start + size - start) with size by lia.
      destruct (fuel_two size ltac:(lia)) as [n ->].
      replace (start + size) with (start + 8 + (size - 8)) by lia.
      apply walk_one; [lia | zlia | lia |].
      rewrite Hh, lor_7. zlia.
  - intros s start size H0 Hs Hb Hlo Hhi s'.
    assert (Hno : ~ (start <> 0 /\ 8 < size) ->
                  Implicit.myinit start size s = Ok false s).
    { intros Hn. apply imyinit_refused. lia. }
    assert (Hyes : start <> 0 /\ 8 < size ->
                   Implicit.myinit start size s
                   = Ok true
                       (Machine
                          (store64 (mem s) start (Z.lor (wsub size 8) 7))
                          (heap_lo s) (heap_hi s)
                          (Implicit.Globals start (start + size)))).
    { intros [Hn Hge]. apply imyinit_run; lia. }
    assert (Hiff : returned (Implicit.myinit start size s) = Some true
                   <-> start <> 0 /\ 8 < size).
    { split.
      - intros Hr.
        destruct (Z.eq_dec start 0) as [-> | Hn];
          [rewrite Hno in Hr by lia; discriminate Hr|].
        destruct (Z_le_gt_dec size 8) as [Hlt | Hge];
          [rewrite Hno in Hr by lia; discriminate Hr | lia].
      - intros Hc. rewrite (Hyes Hc). reflexivity. }
    split; [exact Hiff|]. split; [exact Hno|].
    intros Hr. apply Hiff in Hr. pose proof (Hyes Hr) as E.
    destruct Hr as [Hn Hge].
    unfold s'. rewrite (after_ok _ _ _ _ E). cbn [mem glob].
    unfold Implicit.FREE. rewrite wsub_small by lia.
    assert (Hv : 0 <= Z.lor (size - 8) 7 < two64).
    { rewrite lor_7. rewrite two64_eq in *. zlia. }
    assert (Hh : load64 (store64 (mem s) start (Z.lor (size - 8) 7)) start
                 = Z.lor (size - 8) 7).
    { apply load64_store64_same. exact Hv. }
    conj_split.
    + exact Hh.
    + reflexivity.
    + intros H8. unfold iblocks, Implicit.heap_fuel.
      cbn [mem glob Implicit.segment_start Implicit.segment_end].
      replace (start + size - start) with size by lia.
      destruct (fuel_two size ltac:(lia)) as [n ->].
      replace (start + size) with (start + 8 + (size - 8)) by lia.
      apply walk_one; [lia | zlia | lia |].
      rewrite Hh, lor_7. zlia.
Qed.

Lemma myinit_succeeds_iff_witness :
  (returned (Explicit.myinit 4096 1024 (zeroed 4096 1024)) = Some true
   <-> 4096 <> 0 /\ 8 + 16 <= 1024)
  /\ (returned (Implicit.myinit 4096 16 (ISample.zeroed 4096 16)) = Some true
      <-> 4096 <> 0 /\ 8 < 16).
Proof.
  split.
  - apply (proj1 myinit_succeeds_iff (zeroed 4096 1024) 4096 1024);
      [lia | lia | vm_compute; reflexivity | apply Z.le_refl | apply Z.le_refl].
  - apply (proj2 myinit_succeeds_iff (ISample.zeroed 4096 16) 4096 16);
      [lia | lia | vm_compute; reflexivity | apply Z.le_refl | apply Z.le_refl].
Defined.

(** C6.  The implicit [myinit] accepts segments that cannot hold a header
    and a minimum block of 8 bytes: it refuses [heap_size <= HEADER_LENGTH]
    only, where the explicit one refuses
    [heap_size < HEADER_LENGTH + MIN_BLOCK_SIZE].  [myinit(4096, 9)] on a
    segment of 9 bytes returns true and writes the header [1 | FREE], that of
    a FREE block of 0 bytes; the walk of the heap then takes the bytes at
    4104, which begin inside the segment and end past it, for a second
    header, and [validate_heap] stops at that read.  The explicit [myinit]
    refuses the same segment, and the implicit one behaves as the claim says
    from 16 bytes on. *)
Theorem implicit_myinit_small_segment :
  returned (Implicit.myinit 4096 9 (ISample.zeroed 4096 9)) = Some true
  /\ 9 < 8 + 8
  /\ load64 (mem (after (Implicit.myinit 4096 9) (ISample.zeroed 4096 9)))
       4096
     = Z.lor (9 - 8) Implicit.FREE
  /\ Z.land (Z.lor (9 - 8) Implicit.FREE) (wnot Implicit.FREE) = 0
  /\ iblocks (after (Implicit.myinit 4096 9) (ISample.zeroed 4096 9))
     = [(0, true); (0, false)]
  /\ faulted
       (Implicit.validate_heap
          (after (Implicit.myinit 4096 9) (ISample.zeroed 4096 9)))
     = true
  /\ returned (Explicit.myinit 4096 9 (zeroed 4096 9)) = Some false
  /\ returned (Implicit.myinit 4096 15 (ISample.zeroed 4096 15)) = Some true
  /\ returned (Implicit.myinit 4096 16 (ISample.zeroed 4096 16)) = Some true
  /\ iblocks (after (Implicit.myinit 4096 16) (ISample.zeroed 4096 16))
     = [(8, true)].
Proof. conj_split; [vm_compute; reflexivity | lia | vm_compute; reflexivity ..]. Qed.

(* ================================================================= *)
(** ** Coalescing *)

(** C7, as stated, fails: [myfree] merges a block with the FREE block to
    its right, never with the one to its left.  After [myinit(4096, 1024)],
    [a = mymalloc(16)], [b = mymalloc(16)], [myfree(a)], [myfree(b)], the
    heap is a FREE block of 16 bytes followed by a FREE block of 992. *)
Lemma adjacent_free_counterexample :
  reach live Sample.freed_both
  /\ blocks Sample.freed_both = [(16, true); (992, true)]
  /\ ~ no_adj_free (blocks Sample.freed_both).
Proof.
  split; [exact reach_freed_both|].
  assert (E : blocks Sample.freed_both = [(16, true); (992, true)])
    by (vm_compute; reflexivity).
  split; [exact E|]. rewrite E. cbn [no_adj_free bfree snd].
  intros [H _]. apply H. split; reflexivity.
Qed.

(** C7, amended.  After a successful [myinit] and any sequence of calls that
    return, in which [myfree], and [myrealloc] when it moves the block, are
    applied only to blocks that are first in the heap or whose left neighbour
    is not FREE, no two blocks adjacent in the heap walk are both FREE. *)
Theorem no_adjacent_free_reachable (s : Explicit.state) :
  reach live_left_used s -> no_adj_free (blocks s).
Proof.
  intros Hr. destruct (reach_naf s Hr) as (bl & Hinv & Hn).
  now rewrite (blocks_inv _ _ Hinv).
Qed.

Lemma no_adjacent_free_reachable_witness :
  no_adj_free (blocks Sample.freed_middle).
Proof.
  apply (no_adjacent_free_reachable Sample.freed_middle).
  apply (reach_call _ Sample.three16).
  - apply (reach_call _ Sample.two16).
    + apply (reach_call _ (after (Explicit.mymalloc 16) Sample.fresh)).
      * apply (reach_call _ Sample.fresh).
        -- apply (reach_init _ (zeroed 4096 1024) 4096 1024);
             [lia | reflexivity | reflexivity | reflexivity | reflexivity
             | apply returned_after; vm_compute; reflexivity].
        -- apply (call_malloc _ _ 16 4104);
             [rewrite two64_eq; lia
             | apply returned_after; vm_compute; reflexivity].
      * apply (call_malloc _ _ 16 4128);
          [rewrite two64_eq; lia
          | apply returned_after; vm_compute; reflexivity].
    + apply (call_malloc _ _ 16 4152);
        [rewrite two64_eq; lia
        | apply returned_after; vm_compute; reflexivity].
  - apply (call_free _ _ 4128 16);
      [|apply returned_after; vm_compute; reflexivity].
    exists [(16, false)].
    split; [eexists; split; vm_compute; reflexivity | reflexivity].
Defined.

(* ================================================================= *)
(** ** Requests that round up past [2^64] *)







(* ================================================================= *)
(** ** Resizing *)

(** C8.  The implicit [myrealloc], when the block holds the new size with
    more than 8 bytes to spare, writes the header of a FREE block at
    [old_ptr + needed] and nothing else: the header of the block keeps the
    old size, so that the walk of the heap never meets that FREE block.
    After [myinit(4096, 1024)] and [p = mymalloc(200)], [myrealloc(p, 40)]
    returns [p] and leaves 200, not 40, in the header at [p - 8].  The explicit
    [myrealloc] writes 40 there. *)
Theorem implicit_myrealloc_keeps_header :
  returned (Implicit.mymalloc 200 ISample.fresh) = Some 4104
  /\ load64 (mem ISample.one200) 4096 = Z.lor 200 Implicit.USED
  /\ Implicit.roundup 40 ALIGNMENT = 40
  /\ returned (Implicit.myrealloc 4104 40 ISample.one200) = Some 4104
  /\ load64 (mem (after (Implicit.myrealloc 4104 40) ISample.one200)) 4096
     = Z.lor 200 Implicit.USED
  /\ load64 (mem (after (Implicit.myrealloc 4104 40) ISample.one200))
       (4104 + 40)
     = Z.lor (200 - 40 - 8) Implicit.FREE
  /\ iblocks (after (Implicit.myrealloc 4104 40) ISample.one200)
     = [(200, false); (808, true)]
  /\ load64
       (mem (after (Explicit.myrealloc 4104 40)
               (after (Explicit.mymalloc 200) Sample.fresh))) 4096
     = Z.lor 40 Explicit.USED
  /\ blocks (after (Explicit.myrealloc 4104 40)
               (after (Explicit.mymalloc 200) Sample.fresh))
     = [(40, false); (968, true)].
Proof. conj_split; vm_compute; reflexivity. Qed.

(** C9, as stated, fails for a new size that rounds up past [2^64]: after
    [myinit(4096, 1024)] and [p = mymalloc(24)] (resp. [mymalloc(200)] in the
    implicit variant), [myrealloc(p, 2^64 - 1)] needs 0 bytes, returns [p],
    and writes the header of the FREE remainder on the first 8 bytes of the
    payload. *)
Lemma myrealloc_payload_counterexample :
  (returned (Explicit.myrealloc 4104 (two64 - 1) Sample.one24) = Some 4104
   /\ blocks Sample.one24 = [(24, false); (984, true)]
   /\ 0 < Z.min 24 (two64 - 1)
   /\ mem Sample.one24 4104 = 0
   /\ mem (after (Explicit.myrealloc 4104 (two64 - 1)) Sample.one24) 4104
      = 247)
  /\ (returned (Implicit.myrealloc 4104 (two64 - 1) ISample.one200)
      = Some 4104
      /\ iblocks ISample.one200 = [(200, false); (808, true)]
      /\ mem ISample.one200 4104 = 0
      /\ mem (after (Implicit.myrealloc 4104 (two64 - 1)) ISample.one200) 4104
         = 199).
Proof. conj_split; vm_compute; reflexivity. Qed.

(** C9, amended.  For a new size [r] of at most [2^64 - 8] bytes, a
    [myrealloc(p, r)] that returns a block [q] leaves in the first
    [min(sz, r)] bytes at [q] what the payload at [p], of [sz] bytes, held
    before the call: in the explicit allocator, where the FREE blocks [fs] to
    the right are absorbed first, and in the implicit variant (which returns
    in every case, null when nothing fits).  When the explicit [myrealloc]
    moves the block, all [sz] bytes the payload had before the absorption are
    copied, and no more: in the heap of three blocks of 16 bytes whose middle
    one is FREE, [myrealloc(4104, 100)] absorbs the middle block, moves the
    16 bytes to 4176 and releases a block of 40; the byte at [4176 + 16] is
    not the one at [4104 + 16]. *)
Theorem myrealloc_preserves_payload :
  (forall (s s' : Explicit.state) (pre fs post : list block) (sz r q : Z),
      heap_inv s (pre ++ (sz, false) :: fs ++ post) ->
      all_free fs -> starts_used post -> 0 <= r <= two64 - 8 ->
      let p := Explicit.segment_start (glob s) + total pre + 8 in
      Explicit.myrealloc p r s = Ok q s' ->
      (forall i, 0 <= i < Z.min sz r -> mem s' (q + i) = mem s (p + i))
      /\ (q <> p ->
          sz + total fs < Explicit.roundup r ALIGNMENT
          /\ forall i, 0 <= i < sz -> mem s' (q + i) = mem s (p + i)))
  /\ (forall (s : Implicit.state) (pre post : list block) (sz r : Z),
         iheap s (pre ++ (sz, false) :: post) -> 0 <= r <= two64 - 8 ->
         let p := Implicit.segment_start (glob s) + total pre + 8 in
         exists q s',
           Implicit.myrealloc p r s = Ok q s'
           /\ (q <> 0 ->
               forall i, 0 <= i < Z.min sz r ->
                         mem s' (q + i) = mem s (p + i)))
  /\ (blocks Sample.freed_middle
      = [(16, false); (16, true); (16, false); (944, true)]
      /\ returned (Explicit.myrealloc 4104 100 Sample.freed_middle)
         = Some 4176
      /\ blocks (after (Explicit.myrealloc 4104 100) Sample.freed_middle)
         = [(40, true); (16, false); (104, false); (832, true)]
      /\ mem (after (Explicit.myrealloc 4104 100) Sample.freed_middle)
           (4176 + 16) = 0
      /\ mem (after (Explicit.myrealloc 4104 100) Sample.freed_middle)
           (4104 + 16) = 16).
Proof.
  conj_split; [| | vm_compute; reflexivity ..].
  - intros s s' pre fs post sz r q Hinv Hfs Hpost Hr p Hcall.
    destruct (roundup_ok r Hr) as (_ & _ & R3 & _).
    destruct (realloc_bytes s s' pre fs post sz r q Hinv Hfs Hpost Hr Hcall)
      as [(Hfit & Hq & Hb) | (Hno & Hq & Hb)]; fold p in Hq, Hb.
    + split; [intros i Hi; apply Hb; lia|].
      intros K. contradiction.
    + split; [intros i Hi; apply Hb; lia|].
      intros _. split; [exact Hno | exact Hb].
  - intros s pre post sz r Hinv Hr p.
    exact (irealloc_preserves s pre post sz r Hinv Hr).
Qed.

Lemma myrealloc_preserves_payload_witness :
  (forall i, 0 <= i < Z.min 16 100 ->
             mem (after (Explicit.myrealloc 4104 100) Sample.freed_middle)
               (4176 + i)
             = mem Sample.freed_middle (4104 + i))
  /\ (exists q s',
         Implicit.myrealloc 4104 40 ISample.one200 = Ok q s'
         /\ (q <> 0 ->
             forall i, 0 <= i < Z.min 200 40 ->
                       mem s' (q + i) = mem ISample.one200 (4104 + i))).
Proof.
  split.
  - assert (E : Explicit.myrealloc 4104 100 Sample.freed_middle
                = Ok 4176
                    (after (Explicit.myrealloc 4104 100) Sample.freed_middle))
      by (apply returned_after; vm_compute; reflexivity).
    assert (Hfs : all_free [(16, true)]) by (repeat constructor).
    assert (Hr : 0 <= 100 <= two64 - 8) by (rewrite two64_eq; lia).
    exact (proj1 (proj1 myrealloc_preserves_payload Sample.freed_middle
                    (after (Explicit.myrealloc 4104 100) Sample.freed_middle)
                    [] [(16, true)] [(16, false); (944, true)] 16 100 4176
                    freed_middle_inv Hfs eq_refl Hr E)).
  - apply (proj1 (proj2 myrealloc_preserves_payload) ISample.one200
             [] [(808, true)] 200 40).
    + exact one200_iheap.
    + rewrite two64_eq. lia.
Defined.

(* ================================================================= *)
(** ** Further properties of the explicit allocator *)

(** X1.  For a request of at most [2^64 - 8] bytes the explicit [roundup]
    returns the least multiple of 8 that is at least the request and at
    least 16; rounding a second time changes nothing. *)
Theorem roundup_least_multiple (sz : Z) :
  0 <= sz <= two64 - 8 ->
  let n := Explicit.roundup sz ALIGNMENT in
  n mod 8 = 0 /\ 16 <= n /\ sz <= n
  /\ (forall k, k mod 8 = 0 -> 16 <= k -> sz <= k -> n <= k)
  /\ Explicit.roundup n ALIGNMENT = n.
Proof.
  intros H n. destruct (roundup_ok sz H) as (R1 & R2 & R3 & R4).
  fold n in R1, R2, R3, R4.
  assert (Hup : n = 16 \/ n < sz + 8).
  { unfold n. destruct (Z_le_gt_dec sz 16) as [Hs | Hl].
    - left. now apply roundup_small.
    - right. rewrite roundup_large by (rewrite two64_eq in *; lia).
      rewrite Z.mod_small by (rewrite two64_eq in *; lia).
      rewrite land_not7 by (rewrite two64_eq in *; lia). zlia. }
  conj_split; try assumption.
  - intros k K1 K2 K3. destruct Hup as [-> | Hup]; [exact K2 | zlia].
  - destruct (Z_le_gt_dec n 16) as [Hs | Hl].
    + rewrite roundup_small by exact Hs. lia.
    + rewrite roundup_large by lia.
      assert (n <= two64 - 8) by (rewrite two64_eq in *; zlia).
      rewrite Z.mod_small by (rewrite two64_eq in *; lia).
      rewrite land_not7 by (rewrite two64_eq in *; lia). zlia.
Qed.

Lemma roundup_least_multiple_witness :
  Explicit.roundup 25 ALIGNMENT mod 8 = 0
  /\ 16 <= Explicit.roundup 25 ALIGNMENT
  /\ 25 <= Explicit.roundup 25 ALIGNMENT
  /\ (forall k, k mod 8 = 0 -> 16 <= k -> 25 <= k ->
                Explicit.roundup 25 ALIGNMENT <= k)
  /\ Explicit.roundup (Explicit.roundup 25 ALIGNMENT) ALIGNMENT
     = Explicit.roundup 25 ALIGNMENT.
Proof.
  apply (roundup_least_multiple 25). rewrite two64_eq. lia.
Defined.

Lemma flist_of_inv (s : Explicit.state) (bl : list block) (l : list Z) :
  heap_inv s bl ->
  free_addrs (Explicit.segment_start (glob s)) bl = l -> flist s l.
Proof.
  intros Hinv <-. apply (shape_flist _ _ (inv_shape _ _ Hinv)).
Qed.

Lemma flist_glob (s s' : Explicit.state) (l : list Z) :
  flist s l -> flist s' l -> same_segment s s' -> glob s' = glob s.
Proof.
  intros [_ H1 H2 H3] [_ K1 K2 K3] (_ & _ & S1 & S2).
  destruct (glob s), (glob s').
  cbn [Explicit.segment_start Explicit.segment_end Explicit.list_head
       Explicit.list_end Explicit.free_blocks_num] in *.
  congruence.
Qed.

(** X2.  [insert_block_into_freelist(c)] on a free list sorted by address,
    for a node [c] that lies after the nodes [l1] and before the nodes [l2]
    of the list: the list becomes [l1], [c], [l2] (links, [list_head],
    [list_end] and [free_blocks_num] included), and only link words of
    nodes of the new list are written. *)
Theorem insert_block_keeps_order (s : Explicit.state) (l1 l2 : list Z)
  (c lo hi : Z) :
  flist s (l1 ++ l2) ->
  chain lo l1 c -> chain (c + 24) l2 hi -> 0 < lo -> hi <= two64 ->
  heap_lo s <= lo -> hi <= heap_hi s ->
  (length l1 < Explicit.heap_fuel s)%nat ->
  exists s',
    Explicit.insert_block_into_freelist c s = Ok tt s'
    /\ flist s' (l1 ++ c :: l2)
    /\ same_segment s s'
    /\ same_outside (mem s) (mem s') (link_ranges (l1 ++ c :: l2)).
Proof. apply insert_block_spec. Qed.

Lemma insert_block_keeps_order_witness :
  exists s',
    Explicit.insert_block_into_freelist 4144 Sample.freed_middle = Ok tt s'
    /\ flist s' ([4120] ++ 4144 :: [4168]).
Proof.
  destruct (insert_block_keeps_order Sample.freed_middle [4120] [4168]
              4144 4096 5120) as (s' & E & Hfl & _).
  - apply (flist_of_inv _ _ _ freed_middle_inv). vm_compute. reflexivity.
  - cbn [chain]. lia.
  - cbn [chain]. lia.
  - lia.
  - rewrite two64_eq. lia.
  - zcomp.
  - zcomp.
  - vm_compute. lia.
  - exists s'. split; [exact E | exact Hfl].
Defined.

(** X3.  [remove_block_from_freelist(b)] for a node [b] of a free list
    sorted by address: the list becomes the nodes before [b] followed by
    those after it, and only link words of the remaining nodes are
    written. *)
Theorem remove_block_unlinks (s : Explicit.state) (l1 l2 : list Z)
  (b lo hi : Z) :
  flist s (l1 ++ b :: l2) ->
  chain lo (l1 ++ b :: l2) hi -> 0 < lo -> hi <= two64 ->
  heap_lo s <= lo -> hi <= heap_hi s ->
  exists s',
    Explicit.remove_block_from_freelist b s = Ok tt s'
    /\ flist s' (l1 ++ l2)
    /\ same_segment s s'
    /\ same_outside (mem s) (mem s') (link_ranges (l1 ++ l2)).
Proof. apply remove_block_spec. Qed.

Lemma remove_block_unlinks_witness :
  exists s',
    Explicit.remove_block_from_freelist 4120 Sample.freed_middle = Ok tt s'
    /\ flist s' ([] ++ [4168]).
Proof.
  destruct (remove_block_unlinks Sample.freed_middle [] [4168] 4120 4096 5120)
    as (s' & E & Hfl & _).
  - apply (flist_of_inv _ _ _ freed_middle_inv). vm_compute. reflexivity.
  - cbn [chain app]. lia.
  - lia.
  - rewrite two64_eq. lia.
  - zcomp.
  - zcomp.
  - exists s'. split; [exact E | exact Hfl].
Defined.

(** X4.  Inserting a node in the free list and removing it again restores
    the free list and the global variables; the bytes written are link words
    of the node or of nodes of the list. *)
Theorem insert_remove_round_trip (s : Explicit.state) (l1 l2 : list Z)
  (c lo hi : Z) :
  flist s (l1 ++ l2) ->
  chain lo l1 c -> chain (c + 24) l2 hi -> 0 < lo -> hi <= two64 ->
  heap_lo s <= lo -> hi <= heap_hi s ->
  (length l1 < Explicit.heap_fuel s)%nat ->
  exists s' s'',
    Explicit.insert_block_into_freelist c s = Ok tt s'
    /\ Explicit.remove_block_from_freelist c s' = Ok tt s''
    /\ flist s'' (l1 ++ l2)
    /\ glob s'' = glob s
    /\ same_outside (mem s) (mem s'') (link_ranges (l1 ++ c :: l2)).
Proof.
  intros Hfl Hc1 Hc2 H0 Hb Hlo Hhi Hf.
  destruct (insert_block_spec s l1 l2 c lo hi Hfl Hc1 Hc2 H0 Hb Hlo Hhi Hf)
    as (s1 & E1 & Hfl1 & Hseg1 & Hfr1).
  assert (Hc : chain lo (l1 ++ c :: l2) hi) by (apply chain_app_cons; tauto).
  destruct (remove_block_spec s1 l1 l2 c lo hi Hfl1 Hc H0 Hb)
    as (s2 & E2 & Hfl2 & Hseg2 & Hfr2).
  { destruct Hseg1 as (-> & _). exact Hlo. }
  { destruct Hseg1 as (_ & -> & _). exact Hhi. }
  exists s1, s2. conj_split; try assumption.
  - exact (flist_glob s s2 _ Hfl Hfl2 (same_segment_trans _ _ _ Hseg1 Hseg2)).
  - apply (same_outside_weaken _ _ _ _ (same_outside_trans _ _ _ _ _ Hfr1 Hfr2)).
    intros lo' hi' Hin. exists lo', hi'. split; [|lia].
    apply in_app_or in Hin. destruct Hin as [Hin | Hin]; [exact Hin|].
    apply link_ranges_In in Hin. destruct Hin as (y & Hy & -> & ->).
    apply In_link_ranges. apply in_app_or in Hy. apply in_or_app.
    destruct Hy as [Hy | Hy]; [left; exact Hy | right; right; exact Hy].
Qed.

Lemma insert_remove_round_trip_witness :
  exists s' s'',
    Explicit.insert_block_into_freelist 4144 Sample.freed_middle = Ok tt s'
    /\ Explicit.remove_block_from_freelist 4144 s' = Ok tt s''
    /\ glob s'' = glob Sample.freed_middle.
Proof.
  destruct (insert_remove_round_trip Sample.freed_middle [4120] [4168]
              4144 4096 5120) as (s' & s'' & E1 & E2 & _ & Hg & _).
  - apply (flist_of_inv _ _ _ freed_middle_inv). vm_compute. reflexivity.
  - cbn [chain]. lia.
  - cbn [chain]. lia.
  - lia.
  - rewrite two64_eq. lia.
  - zcomp.
  - zcomp.
  - vm_compute. lia.
  - exists s', s''. conj_split; assumption.
Defined.

(* ================================================================= *)
(** ** What the calls leave alone *)

Lemma live_block_at (s : Explicit.state) (bl pre : list block) (q n : Z) :
  heap_inv s bl -> live_after s pre q n ->
  block_at (Explicit.segment_start (glob s)) bl (q - 8) (n, false)
  /\ q = Explicit.segment_start (glob s) + total pre + 8
  /\ exists post, bl = pre ++ (n, false) :: post.
Proof.
  intros Hinv Hl.
  destruct (live_after_inv _ _ _ _ _ Hinv Hl) as (post & E & Hq).
  split; [|split; [exact Hq | now exists post]].
  exists pre, post. split; [exact E | lia].
Qed.

Lemma live_of_blocks (s : Explicit.state) (bl pre post : list block)
  (q n a : Z) :
  heap_inv s bl -> bl = pre ++ (n, false) :: post ->
  Explicit.segment_start (glob s) = a -> q = a + total pre + 8 ->
  live s q n.
Proof.
  intros Hinv E Ha Hq. exists pre, post.
  rewrite (blocks_inv _ _ Hinv), Ha. split; [exact E | exact Hq].
Qed.

(** Writes that fall inside other blocks leave a USED payload as it is. *)
Lemma frame_payload (s : Explicit.state) (bl : list block) (m' : memory)
  (R : list (Z * Z)) (x n : Z) :
  heap_inv s bl ->
  block_at (Explicit.segment_start (glob s)) bl x (n, false) ->
  same_outside (mem s) m' R ->
  (forall lo hi, In (lo, hi) R ->
     exists y blk, block_at (Explicit.segment_start (glob s)) bl y blk
                   /\ y <> x /\ y <= lo /\ hi <= y + 8 + bsize blk) ->
  forall i, 0 <= i < n -> m' (x + 8 + i) = mem s (x + 8 + i).
Proof.
  intros Hinv Hb Hfr HR i Hi.
  apply (payload_untouched _ _ _ _ R x n (inv_blocks _ _ Hinv) Hb Hfr);
    [|lia].
  intros lo hi Hin. right. exact (HR lo hi Hin).
Qed.

(** The link words of FREE blocks lie inside blocks other than a given USED
    one. *)
Lemma links_elsewhere (s : Explicit.state) (bl : list block) (l : list Z)
  (x n : Z) :
  heap_inv s bl ->
  block_at (Explicit.segment_start (glob s)) bl x (n, false) ->
  (forall z, In z l -> In z (free_addrs (Explicit.segment_start (glob s)) bl)) ->
  forall lo hi, In (lo, hi) (link_ranges l) ->
    exists y blk, block_at (Explicit.segment_start (glob s)) bl y blk
                  /\ y <> x /\ y <= lo /\ hi <= y + 8 + bsize blk.
Proof.
  intros Hinv Hb Hl lo hi Hin.
  apply link_ranges_In in Hin. destruct Hin as (z & Hz & -> & ->).
  destruct (free_addrs_block _ _ x z n (inv_blocks _ _ Hinv) Hb (Hl z Hz))
    as (blk & B1 & B2 & B3).
  exists z, blk. conj_split; [exact B1 | exact B2 | lia | lia].
Qed.

Lemma free_addrs_mid (a : Z) (pre post : list block) (sz : Z) (z : Z) :
  In z (free_addrs a pre ++ free_addrs (a + total pre + 8 + sz) post) ->
  In z (free_addrs a (pre ++ (sz, true) :: post)).
Proof.
  intros H. rewrite free_addrs_app. cbn [free_addrs bfree bsize fst snd].
  apply in_app_or in H. apply in_or_app.
  destruct H as [H | H]; [left; exact H | right; right; exact H].
Qed.

(** X5.  A [mymalloc(r)] that returns, for [r <= 2^64 - 8] on a valid heap:
    the result [p] is the payload of a USED block of at least [roundup(r)]
    bytes, lies inside the segment at a multiple of 8 bytes from its start,
    and is not null.  Every block that was live stays live, its payload is
    disjoint from the [r] bytes at [p] and keeps its bytes. *)
Theorem mymalloc_result (s s' : Explicit.state) (bl : list block) (r p : Z) :
  heap_inv s bl -> 0 <= r <= two64 - 8 ->
  Explicit.mymalloc r s = Ok p s' ->
  (exists n, live s' p n /\ Explicit.roundup r ALIGNMENT <= n /\ r <= n)
  /\ Explicit.segment_start (glob s) < p
  /\ p + r <= Explicit.segment_end (glob s)
  /\ (p - Explicit.segment_start (glob s)) mod 8 = 0
  /\ p <> 0
  /\ forall q n, live s q n ->
       live s' q n
       /\ (q + n <= p - 8 \/ p + r <= q - 8)
       /\ forall i, 0 <= i < n -> mem s' (q + i) = mem s (q + i).
Proof.
  intros Hinv Hr Hcall.
  destruct (roundup_ok r Hr) as (_ & _ & R3 & _).
  destruct (first_fit_dec (Explicit.roundup r ALIGNMENT) bl)
    as [Hno | (pre & sz & post & -> & Hs & Hle)].
  { rewrite (mymalloc_no_fit _ _ _ Hinv Hno) in Hcall. discriminate Hcall. }
  destruct (mymalloc_fit _ _ _ _ _ Hinv Hr Hs Hle)
    as (s1 & E & Hinv' & Hseg & Hframe).
  rewrite E in Hcall. injection Hcall as <- <-.
  set (a := Explicit.segment_start (glob s)) in *.
  assert (Ha : Explicit.segment_start (glob s1) = a) by apply Hseg.
  pose proof (inv_blocks _ _ Hinv) as Hok.
  pose proof (total_nonneg _ (Forall_app_l _ _ _ Hok)) as Hp0.
  pose proof (total_nonneg _ (Forall_inv_tail (Forall_app_r _ _ _ Hok)))
    as Hq0.
  pose proof (total_mod8 _ (Forall_app_l _ _ _ Hok)) as Hp8.
  pose proof (shape_end _ _ (inv_shape _ _ Hinv)) as He. fold a in He.
  rewrite total_app in He. cbn [total bsize fst] in He.
  pose proof (inv_start _ _ Hinv) as Hs0. fold a in Hs0.
  destruct (placed_head _ _ Hle) as (n & rest & Epl & Hn).
  conj_split; try lia.
  - exists n. conj_split; [|exact Hn | lia].
    apply (live_of_blocks s1 _ pre (rest ++ post) _ n a Hinv'); try easy.
    rewrite Epl. reflexivity.
  - zlia.
  - intros q n' (pre' & Hl).
    destruct (live_block_at _ _ _ _ _ Hinv Hl) as (Hb & Hq & post' & Eq).
    fold a in Hb, Hq.
    assert (Hbytes : forall i, 0 <= i < n' -> mem s1 (q + i) = mem s (q + i)).
    { intros i Hi. replace (q + i) with (q - 8 + 8 + i) by lia.
      apply (frame_payload s _ _ _ (q - 8) n' Hinv Hb Hframe); [|exact Hi].
      intros lo hi [K | Hin].
      - injection K as <- <-. exists (a + total pre), (sz, true).
        conj_split; [now exists pre, post | | lia | cbn [bsize fst]; lia].
        intros Heq.
        assert (B : block_at a (pre ++ (sz, true) :: post) (q - 8) (sz, true))
          by (exists pre, post; split; [reflexivity | lia]).
        pose proof (block_at_fun _ _ _ _ _ Hok Hb B) as K. discriminate K.
      - apply (links_elsewhere s _ _ (q - 8) n' Hinv Hb) in Hin;
          [exact Hin|].
        intros z. apply free_addrs_mid. }
    apply app_eq_app in Eq. destruct Eq as (l & [[E1 E2] | [E1 E2]]).
    + destruct l as [|x l']; [discriminate E2|].
      injection E2 as <- E2. subst post'.
      pose proof Hok as Hok'. rewrite E1 in Hok'.
      apply Forall_app_l, Forall_app_r, Forall_inv_tail in Hok'.
      pose proof (total_nonneg _ Hok') as Hl0.
      assert (Et : total pre = total pre' + (8 + n' + total l'))
        by (rewrite E1, total_app; reflexivity).
      conj_split; [|lia | exact Hbytes].
      apply (live_of_blocks s1 _ pre' (l' ++ placed
               (Explicit.roundup r ALIGNMENT) sz ++ post) _ n' a Hinv');
        try easy.
      rewrite E1, <- app_assoc. reflexivity.
    + destruct l as [|x l']; [discriminate E2|].
      injection E2 as <- E2.
      pose proof Hok as Hok'. rewrite E2 in Hok'.
      apply Forall_app_r, Forall_inv_tail, Forall_app_l in Hok'.
      pose proof (total_nonneg _ Hok') as Hl0.
      assert (Et : total pre' = total pre + (8 + sz + total l'))
        by (rewrite E1, total_app; reflexivity).
      conj_split; [|lia | exact Hbytes].
      apply (live_of_blocks s1 _
               (pre ++ placed (Explicit.roundup r ALIGNMENT) sz ++ l')
               post' _ n' a Hinv'); try easy.
      * rewrite E2, <- !app_assoc. reflexivity.
      * rewrite !total_app, total_placed. lia.
Qed.

Lemma mymalloc_result_witness :
  4152 <> 0
  /\ forall q n, live Sample.two16 q n ->
       live Sample.three16 q n
       /\ (q + n <= 4152 - 8 \/ 4152 + 16 <= q - 8)
       /\ forall i, 0 <= i < n ->
                    mem Sample.three16 (q + i) = mem Sample.two16 (q + i).
Proof.
  assert (Hr : 0 <= 16 <= two64 - 8) by (rewrite two64_eq; lia).
  assert (E : Explicit.mymalloc 16 Sample.two16 = Ok 4152 Sample.three16)
    by (apply returned_after; vm_compute; reflexivity).
  destruct (mymalloc_result Sample.two16 Sample.three16 _ 16 4152
              two16_inv Hr E) as (_ & _ & _ & _ & Hp & Hlive).
  split; [exact Hp | exact Hlive].
Defined.

Lemma freed_prefix (sz n : Z) (l post' : list block) :
  exists pre2,
    freed sz (l ++ (n, false) :: post') = pre2 ++ (n, false) :: post'
    /\ total pre2 = 8 + sz + total l.
Proof.
  destruct l as [|[rs [|]] l''].
  - exists [(sz, true)]. split; reflexivity.
  - exists ((sz + 8 + rs, true) :: l''). split; [reflexivity|].
    cbn [total bsize fst]. lia.
  - exists ((sz, true) :: (rs, false) :: l''). split; reflexivity.
Qed.

Lemma freed_head (sz : Z) (post : list block) :
  exists n rest, freed sz post = (n, true) :: rest.
Proof.
  destruct post as [|[rs [|]] post']; cbn [freed]; eexists _, _; reflexivity.
Qed.

(** [myfree] writes inside the block it releases, inside the FREE block to
    its right and in link words of FREE blocks. *)
Lemma myfree_frame (s : Explicit.state) (pre post : list block) (sz : Z) :
  heap_inv s (pre ++ (sz, false) :: post) ->
  let a := Explicit.segment_start (glob s) in
  let b := a + total pre in
  exists s',
    Explicit.myfree (b + 8) s = Ok tt s'
    /\ heap_inv s' (pre ++ freed sz post)
    /\ same_segment s s'
    /\ forall x n,
         block_at a (pre ++ (sz, false) :: post) x (n, false) -> x <> b ->
         forall i, 0 <= i < n -> mem s' (x + 8 + i) = mem s (x + 8 + i).
Proof.
  intros Hinv a b.
  pose proof (inv_blocks _ _ Hinv) as Hok.
  pose proof (Forall_app_r _ _ _ Hok) as Ho2.
  pose proof (Forall_inv Ho2) as [Hs1 Hs2]. cbn [bsize fst] in Hs1, Hs2.
  assert (Hself : block_at a (pre ++ (sz, false) :: post) b (sz, false))
    by (exists pre, post; split; reflexivity).
  assert (Hplain : starts_used post ->
            exists s', Explicit.myfree (b + 8) s = Ok tt s'
                       /\ heap_inv s' (pre ++ (sz, true) :: post)
                       /\ same_segment s s'
                       /\ same_outside (mem s) (mem s')
                            ((b, b + 24)
                               :: link_ranges
                                    (free_addrs a pre
                                     ++ free_addrs (b + 8 + sz) post))).
  { intros Hu.
    pose proof (hole_of_inv s pre [(sz, false)] post Hinv eq_refl) as Hh.
    cbn [total bsize fst] in Hh. fold a b in Hh.
    pose proof (inv_shape _ _ Hinv) as [Hheap _ _].
    apply heap_at_app in Hheap. destruct Hheap as [_ [Hcur _]].
    cbn [header_word bfree bsize snd fst] in Hcur. fold a b in Hcur.
    pose proof (inv_bound _ _ Hinv). pose proof (inv_start _ _ Hinv).
    pose proof (hole_end _ _ _ _ Hh).
    pose proof (total_nonneg _ (hole_ok_post _ _ _ _ Hh)).
    pose proof (total_nonneg _ (hole_ok_pre _ _ _ _ Hh)).
    destruct (myfree_hole s pre post sz (b + (8 + sz + 0)) Hh)
      as (s' & Hrun & Hinv' & Hseg & Hfr).
    - fold a b. lia.
    - split; assumption.
    - exact Hu.
    - fold a b. rewrite Hcur. apply used_header_size; [|exact Hs2].
      rewrite ?two64_eq in *. unfold b, a. lia.
    - fold a b in Hrun, Hfr.
      replace (b + (8 + sz + 0)) with (b + 8 + sz) in Hfr by lia.
      exists s'. conj_split; assumption. }
  assert (Hother : forall (s' : Explicit.state) (R : list (Z * Z)),
            same_outside (mem s) (mem s') R ->
            (forall lo hi, In (lo, hi) R ->
               (lo = b /\ hi = b + 24)
               \/ (exists rs, lo = b + 8 + sz /\ hi = lo + 8
                              /\ block_at a (pre ++ (sz, false) :: post) lo
                                   (rs, true))
               \/ (exists z, In z (free_addrs a (pre ++ (sz, false) :: post))
                             /\ lo = z + 8 /\ hi = z + 24)) ->
            forall x n,
              block_at a (pre ++ (sz, false) :: post) x (n, false) ->
              x <> b ->
              forall i, 0 <= i < n -> mem s' (x + 8 + i) = mem s (x + 8 + i)).
  { intros s' R Hfr HR x n Hb Hx i Hi.
    apply (frame_payload s _ _ R x n Hinv Hb Hfr); [|exact Hi].
    intros lo hi Hin.
    destruct (HR lo hi Hin) as [[-> ->] | [(rs & -> & -> & Hrb)
                                          | (z & Hz & -> & ->)]].
    - exists b, (sz, false). conj_split; [exact Hself | | lia |].
      + intros K. apply Hx. now symmetry.
      + cbn [bsize fst]. lia.
    - exists (b + 8 + sz), (rs, true).
      conj_split; [exact Hrb | | lia |].
      + intros K. rewrite K in Hrb.
        pose proof (block_at_fun _ _ _ _ _ Hok Hb Hrb) as K'. discriminate K'.
      + destruct (block_at_bounds _ _ _ _ Hok Hrb) as (_ & _ & Hk & _).
        cbn [bsize fst] in *. lia.
    - destruct (free_addrs_block _ _ x z n Hok Hb Hz) as (blk & B1 & B2 & B3).
      exists z, blk. conj_split; [exact B1 | exact B2 | lia | lia]. }
  destruct post as [|[rs [|]] post'].
  - destruct (Hplain I) as (s' & E & Hinv' & Hseg & Hfr).
    exists s'. conj_split; try assumption.
    apply (Hother s' _ Hfr). intros lo hi [K | Hin].
    + injection K as <- <-. left. split; reflexivity.
    + right. right. apply link_ranges_In in Hin.
      destruct Hin as (z & Hz & -> & ->). exists z. split; [|split; reflexivity].
      rewrite free_addrs_app. cbn [free_addrs bfree bsize fst snd].
      fold a b. exact Hz.
  - destruct (myfree_coalesce s pre post' sz rs Hinv)
      as (s' & E & Hinv' & Hseg & Hfr & _).
    fold a b in E, Hfr.
    exists s'. conj_split; try assumption.
    apply (Hother s' _ Hfr). intros lo hi [K | [K | Hin]].
    + injection K as <- <-. left. split; reflexivity.
    + injection K as <- <-. right. left. exists rs.
      conj_split; [reflexivity | reflexivity |].
      exists (pre ++ [(sz, false)]), post'. rewrite <- app_assoc.
      split; [reflexivity|]. rewrite total_app. cbn [total bsize fst].
      unfold b. lia.
    + right. right. apply link_ranges_In in Hin.
      destruct Hin as (z & Hz & -> & ->). exists z. split; [|split; reflexivity].
      rewrite free_addrs_app. cbn [free_addrs bfree bsize fst snd].
      fold a b. apply in_app_or in Hz. apply in_or_app.
      destruct Hz as [Hz | Hz]; [left; exact Hz | right; right; exact Hz].
  - destruct (Hplain eq_refl) as (s' & E & Hinv' & Hseg & Hfr).
    exists s'. conj_split; try assumption.
    apply (Hother s' _ Hfr). intros lo hi [K | Hin].
    + injection K as <- <-. left. split; reflexivity.
    + right. right. apply link_ranges_In in Hin.
      destruct Hin as (z & Hz & -> & ->). exists z. split; [|split; reflexivity].
      rewrite free_addrs_app. cbn [free_addrs bfree bsize fst snd].
      fold a b. exact Hz.
Qed.

Lemma not_live_free (s : Explicit.state) (pre rest : list block) (m p : Z) :
  heap_inv s (pre ++ (m, true) :: rest) ->
  p = Explicit.segment_start (glob s) + total pre + 8 ->
  forall n, ~ live s p n.
Proof.
  intros Hinv Hp n (pre' & post' & Hb & Hq).
  rewrite (blocks_inv _ _ Hinv) in Hb.
  assert (B1 : block_at (Explicit.segment_start (glob s))
                 (pre ++ (m, true) :: rest) (p - 8) (m, true))
    by (exists pre, rest; split; [reflexivity | lia]).
  assert (B2 : block_at (Explicit.segment_start (glob s))
                 (pre ++ (m, true) :: rest) (p - 8) (n, false))
    by (exists pre', post'; split; [exact Hb | unfold Explicit.HEADER_LENGTH in Hq; lia]).
  pose proof (block_at_fun _ _ _ _ _ (inv_blocks _ _ Hinv) B1 B2) as K.
  discriminate K.
Qed.

(** X6.  [myfree(p)] of a live block on a valid heap returns and leaves a
    valid heap in which the block, merged with a FREE right neighbour if
    there is one, is FREE: [p] is no longer live.  Every other live block
    stays live and keeps the bytes of its payload. *)
Theorem myfree_result (s : Explicit.state) (bl pre : list block) (p sz : Z) :
  heap_inv s bl -> live_after s pre p sz ->
  exists s',
    Explicit.myfree p s = Ok tt s'
    /\ (exists post,
           bl = pre ++ (sz, false) :: post
           /\ heap_inv s' (pre ++ freed sz post))
    /\ (forall n, ~ live s' p n)
    /\ forall q n, live s q n -> q <> p ->
         live s' q n
         /\ forall i, 0 <= i < n -> mem s' (q + i) = mem s (q + i).
Proof.
  intros Hinv Hl.
  destruct (live_after_inv _ _ _ _ _ Hinv Hl) as (post & -> & Hp).
  destruct (myfree_frame s pre post sz Hinv) as (s' & E & Hinv' & Hseg & Hfr).
  set (a := Explicit.segment_start (glob s)) in *.
  assert (Ha : Explicit.segment_start (glob s') = a) by apply Hseg.
  rewrite <- Hp in E.
  exists s'. conj_split.
  - exact E.
  - exists post. split; [reflexivity | exact Hinv'].
  - destruct (freed_head sz post) as (m & rest & Efr).
    rewrite Efr in Hinv'.
    apply (not_live_free s' pre rest m p Hinv'). rewrite Ha. exact Hp.
  - intros q n (pre' & Hl') Hq.
    destruct (live_block_at _ _ _ _ _ Hinv Hl') as (Hb & Hq' & post' & Eq).
    fold a in Hb, Hq'.
    split.
    + apply app_eq_app in Eq. destruct Eq as (l & [[E1 E2] | [E1 E2]]).
      * destruct l as [|x l'];
          [rewrite app_nil_r in E1; subst pre'; lia|].
        injection E2 as <- E2.
        apply (live_of_blocks s' _ pre' (l' ++ freed sz post) _ n a Hinv');
          try easy.
        rewrite E1, <- app_assoc. reflexivity.
      * destruct l as [|x l'];
          [rewrite app_nil_r in E1; subst pre'; lia|].
        injection E2 as <- E2.
        destruct (freed_prefix sz n l' post') as (pre2 & Ef & Et).
        apply (live_of_blocks s' _ (pre ++ pre2) post' _ n a Hinv');
          try easy.
        -- rewrite E2, Ef, <- app_assoc. reflexivity.
        -- rewrite Hq', E1, !total_app, Et. cbn [total bsize fst]. lia.
    + intros i Hi. replace (q + i) with (q - 8 + 8 + i) by lia.
      apply (Hfr (q - 8) n Hb); [lia | exact Hi].
Qed.

Lemma myfree_result_witness :
  exists s',
    Explicit.myfree 4128 Sample.three16 = Ok tt s'
    /\ (forall n, ~ live s' 4128 n)
    /\ forall q n, live Sample.three16 q n -> q <> 4128 ->
         live s' q n
         /\ forall i, 0 <= i < n ->
                      mem s' (q + i) = mem Sample.three16 (q + i).
Proof.
  assert (Hl : live_after Sample.three16 [(16, false)] 4128 16)
    by (eexists; split; vm_compute; reflexivity).
  destruct (myfree_result Sample.three16 _ [(16, false)] 4128 16
              three16_inv Hl) as (s' & E & _ & Hn & Hk).
  exists s'. conj_split; assumption.
Defined.

(** X7.  On a valid heap without adjacent FREE blocks, releasing the block
    that [mymalloc] just returned restores the heap walk and the global
    variables of the allocator (free list head, tail and count). *)
Theorem malloc_free_round_trip (s s1 : Explicit.state) (bl : list block)
  (r p : Z) :
  heap_inv s bl -> no_adj_free bl -> 0 <= r <= two64 - 8 ->
  Explicit.mymalloc r s = Ok p s1 ->
  exists s2,
    Explicit.myfree p s1 = Ok tt s2
    /\ heap_inv s2 bl
    /\ blocks s2 = blocks s
    /\ glob s2 = glob s.
Proof.
  intros Hinv Hn Hr Hcall.
  destruct (call_malloc_inv _ _ _ _ _ Hinv Hr Hcall)
    as (pre & sz & post & -> & _ & Hle & Hp & Hinv1 & Hseg1).
  destruct (naf_free_mid _ _ _ Hn) as (_ & _ & Hpost & _).
  assert (Ha : Explicit.segment_start (glob s1)
               = Explicit.segment_start (glob s)) by apply Hseg1.
  assert (Hfin : exists s2,
             Explicit.myfree p s1 = Ok tt s2
             /\ heap_inv s2 (pre ++ (sz, true) :: post)
             /\ same_segment s1 s2).
  { unfold placed in Hinv1.
    destruct (sz - Explicit.roundup r ALIGNMENT <? 24); cbn [app] in Hinv1.
    - destruct (myfree_spec s1 pre post sz Hinv1) as (s2 & E & Hinv2 & Hseg2).
      rewrite Ha, <- Hp in E. rewrite (freed_used _ _ Hpost) in Hinv2.
      exists s2. conj_split; assumption.
    - destruct (myfree_spec s1 pre _ _ Hinv1) as (s2 & E & Hinv2 & Hseg2).
      rewrite Ha, <- Hp in E. cbn [freed] in Hinv2.
      replace (Explicit.roundup r ALIGNMENT + 8
               + (sz - Explicit.roundup r ALIGNMENT - 8)) with sz in Hinv2
        by lia.
      exists s2. conj_split; assumption. }
  destruct Hfin as (s2 & E & Hinv2 & Hseg2).
  exists s2. conj_split; [exact E | exact Hinv2 | |].
  - now rewrite (blocks_inv _ _ Hinv2), (blocks_inv _ _ Hinv).
  - apply (flist_glob s s2
             (free_addrs (Explicit.segment_start (glob s))
                (pre ++ (sz, true) :: post))).
    + apply (shape_flist _ _ (inv_shape _ _ Hinv)).
    + replace (Explicit.segment_start (glob s))
        with (Explicit.segment_start (glob s2))
        by (destruct Hseg2 as (_ & _ & -> & _); exact Ha).
      apply (shape_flist _ _ (inv_shape _ _ Hinv2)).
    + exact (same_segment_trans _ _ _ Hseg1 Hseg2).
Qed.

Lemma malloc_free_round_trip_witness :
  exists s2,
    Explicit.myfree 4152 Sample.three16 = Ok tt s2
    /\ blocks s2 = blocks Sample.two16
    /\ glob s2 = glob Sample.two16.
Proof.
  assert (Hr : 0 <= 16 <= two64 - 8) by (rewrite two64_eq; lia).
  assert (E : Explicit.mymalloc 16 Sample.two16 = Ok 4152 Sample.three16)
    by (apply returned_after; vm_compute; reflexivity).
  assert (Hn : no_adj_free [(16, false); (16, false); (968, true)]).
  { cbn [no_adj_free bfree snd]. conj_split; try exact I; intros [K _];
      discriminate K. }
  destruct (malloc_free_round_trip Sample.two16 Sample.three16 _ 16 4152
              two16_inv Hn Hr E) as (s2 & E2 & _ & Hb & Hg).
  exists s2. conj_split; assumption.
Defined.

(** X8.  A [myrealloc(p, r)] of a live block that returns, for
    [r <= 2^64 - 8] on a valid heap, leaves a valid heap; its result [q] is
    not null and is the payload of a USED block of at least [roundup(r)]
    bytes; and either [q = p] or the old block has been released. *)
Theorem myrealloc_result (s s' : Explicit.state) (bl pre : list block)
  (p sz r q : Z) :
  heap_inv s bl -> live_after s pre p sz -> 0 <= r <= two64 - 8 ->
  Explicit.myrealloc p r s = Ok q s' ->
  (exists bl', heap_inv s' bl')
  /\ (exists n, live s' q n /\ Explicit.roundup r ALIGNMENT <= n /\ r <= n)
  /\ q <> 0
  /\ (q = p \/ forall n, ~ live s' p n).
Proof.
  intros Hinv Hlive Hr Hcall.
  destruct (roundup_ok r Hr) as (_ & _ & R3 & _).
  destruct (live_after_inv _ _ _ _ _ Hinv Hlive) as (post0 & -> & ->).
  destruct (split_free post0) as (fs & post & -> & Hfs & Hpost).
  destruct (myrealloc_absorb _ _ _ _ _ r Hinv Hfs Hpost)
    as (s1 & E1 & Habs & Hseg & _).
  rewrite E1 in Hcall. clear E1.
  set (a := Explicit.segment_start (glob s)) in *.
  assert (Hst : Explicit.segment_start (glob s1) = a) by apply Hseg.
  pose proof (inv_start _ _ Hinv) as Ha0. fold a in Ha0.
  pose proof (total_nonneg _ (Forall_app_l _ _ _ (inv_blocks _ _ Hinv)))
    as Hp0.
  destruct (Z_le_gt_dec (Explicit.roundup r ALIGNMENT) (sz + total fs))
    as [Hfit | Hnofit].
  - destruct (finish_inplace _ _ _ _ _ r Habs Hr Hfit)
      as (s2 & E2 & Hinv2 & Hseg2 & _).
    rewrite Hst in E2. rewrite E2 in Hcall. injection Hcall as <- <-.
    destruct (placed_head _ _ Hfit) as (n & rest & Epl & Hn).
    conj_split; [eexists; exact Hinv2 | | lia | left; reflexivity].
    exists n. conj_split; [|exact Hn | lia].
    apply (live_of_blocks s2 _ pre (rest ++ post) _ n a Hinv2).
    + rewrite Epl. reflexivity.
    + destruct Hseg2 as (_ & _ & -> & _). exact Hst.
    + reflexivity.
  - destruct (first_fit_dec (Explicit.roundup r ALIGNMENT)
                (pre ++ ((sz, false) :: mark_used fs) ++ post))
      as [Hno | (pre2 & sz2 & post2 & E & Hs & Hle)].
    + apply too_small_app in Hno. destruct Hno as [Hno1 Hno2].
      apply too_small_app in Hno2. destruct Hno2 as [_ Hno2].
      assert (Hno : too_small (Explicit.roundup r ALIGNMENT) (pre ++ post))
        by (apply too_small_app; split; assumption).
      pose proof (finish_no_fit _ _ _ _ _ r Habs ltac:(lia) Hno) as E2.
      rewrite Hst in E2. rewrite E2 in Hcall. discriminate Hcall.
    + destruct (finish_move _ _ _ _ _ _ _ _ r Habs Hr ltac:(lia) E Hs Hle)
        as (s2 & preB & postB & E2 & Hinv2 & Hseg2 & _ & Hstruct).
      rewrite Hst in E2. rewrite E2 in Hcall. injection Hcall as <- <-.
      assert (Ha2 : Explicit.segment_start (glob s2) = a)
        by (destruct Hseg2 as (_ & _ & -> & _); exact Hst).
      pose proof (inv_blocks _ _ (absorbed_inv _ _ _ _ _ Habs)) as HokL.
      pose proof HokL as HokL2. rewrite E in HokL2.
      pose proof (total_nonneg _ (Forall_app_l _ _ _ HokL2)) as Hp20.
      destruct (placed_head _ _ Hle) as (n & rest & Epl & Hn).
      assert (Hgone : a + total pre + 8
                      = Explicit.segment_start (glob s2) + total preB + 8 ->
                      forall n', ~ live s2 (a + total pre + 8) n').
      { intros K. exact (not_live_free s2 preB postB _ _ Hinv2 K). }
      destruct Hstruct as [(mid & K1 & K2 & K3) | (mid & K1 & K2 & K3)].
      * conj_split; [eexists; exact Hinv2 | | lia |].
        -- exists n. conj_split; [|exact Hn | lia].
           apply (live_of_blocks s2 _ pre2
                    (rest ++ mid ++ (sz + total fs, true) :: postB) _ n a
                    Hinv2); try easy.
           rewrite K2, Epl, <- !app_assoc. reflexivity.
        -- right. apply Hgone.
           rewrite Ha2, K1, K2, !total_app, total_placed.
           cbn [total bsize fst]. lia.
      * assert (Epre2 : pre2 = pre ++ ((sz, false) :: mark_used fs) ++ mid).
        { rewrite K1 in E.
          apply (app_inv_tail ((sz2, true) :: post2)).
          rewrite <- E, <- !app_assoc. reflexivity. }
        assert (Et : total pre2 = total pre + 8 + (sz + total fs) + total mid).
        { rewrite Epre2, !total_app. cbn [total bsize fst].
          rewrite total_mark_used. lia. }
        conj_split; [eexists; exact Hinv2 | | lia |].
        -- exists n. conj_split; [|exact Hn | lia].
           apply (live_of_blocks s2 _
                    (preB ++ (sz + total fs, true) :: mid) (rest ++ post2)
                    _ n a Hinv2); try easy.
           ++ rewrite K3, Epl, <- !app_assoc. reflexivity.
           ++ rewrite K2, total_app. cbn [total bsize fst]. lia.
        -- right. apply Hgone. rewrite Ha2, K2. reflexivity.
Qed.

Lemma myrealloc_result_witness :
  (exists n,
      live (after (Explicit.myrealloc 4104 100) Sample.freed_middle) 4176 n
      /\ Explicit.roundup 100 ALIGNMENT <= n /\ 100 <= n)
  /\ 4176 <> 0
  /\ (4176 = 4104
      \/ forall n,
           ~ live (after (Explicit.myrealloc 4104 100) Sample.freed_middle)
               4104 n).
Proof.
  assert (Hl : live_after Sample.freed_middle [] 4104 16)
    by (eexists; split; vm_compute; reflexivity).
  assert (Hr : 0 <= 100 <= two64 - 8) by (rewrite two64_eq; lia).
  assert (E : Explicit.myrealloc 4104 100 Sample.freed_middle
              = Ok 4176
                  (after (Explicit.myrealloc 4104 100) Sample.freed_middle))
    by (apply returned_after; vm_compute; reflexivity).
  exact (proj2 (myrealloc_result Sample.freed_middle _ _ [] 4104 16 100 4176
                  freed_middle_inv Hl Hr E)).
Defined.

(* ================================================================= *)
(** ** What the validator accepts *)

Lemma nfree_cons (b : block) (bl : list block) :
  nfree (b :: bl) = (if bfree b then 1 else 0) + nfree bl.
Proof.
  unfold nfree. cbn [filter]. destruct (bfree b); cbn [length]; lia.
Qed.

Lemma nfree_nonneg (bl : list block) : 0 <= nfree bl.
Proof. unfold nfree. lia. Qed.

(** A header word whose status bits are FREE or USED is the header of the
    block the walk reads from it. *)
Lemma header_decode (h : Z) :
  0 <= h < two64 ->
  Z.land h Explicit.FREE = Explicit.FREE \/ Z.land h Explicit.FREE = Explicit.USED ->
  h = header_word (Z.land h (wnot Explicit.FREE),
                   Z.land h Explicit.FREE =? Explicit.FREE)
  /\ Z.land h (wnot Explicit.FREE) mod 8 = 0.
Proof.
  intros Hh Hst. unfold Explicit.FREE, Explicit.USED in *.
  rewrite wnot_7, land_not7 by exact Hh. rewrite land_7 in *.
  unfold header_word. cbn [bfree bsize fst snd].
  destruct Hst as [K | K]; rewrite K;
    [change (7 =? 7) with true | change (0 =? 7) with false];
    cbv match; split; zlia.
Qed.

Lemma traverse_heap_loop_sound (fuel : nat) :
  forall (ptr count ptr' count' : Z) (s s' : Explicit.state),
    0 <= count < two64 ->
    Explicit.traverse_heap_loop fuel ptr count s
    = Ok (Some (ptr', count')) s' ->
    s' = s
    /\ heap_at (mem s) ptr
         (walk fuel (mem s) ptr (Explicit.segment_end (glob s)))
    /\ Forall block_ok
         (walk fuel (mem s) ptr (Explicit.segment_end (glob s)))
    /\ ptr' = ptr + total (walk fuel (mem s) ptr
                             (Explicit.segment_end (glob s)))
    /\ Explicit.segment_end (glob s) <= ptr'
    /\ count' = wrap (count + nfree (walk fuel (mem s) ptr
                                       (Explicit.segment_end (glob s)))).
Proof.
  induction fuel as [|fuel IH]; intros ptr count ptr' count' s s' Hc E;
    [discriminate E|].
  cbn [Explicit.traverse_heap_loop walk] in *. rewrite bind_get in E.
  destruct (ptr <? Explicit.segment_end (glob s)) eqn:Hlt.
  - unfold bind at 1 in E. unfold read in E.
    destruct (accessible s ptr 8); [|discriminate E].
    pose proof (load64_range (mem s) ptr) as Hh.
    set (h := load64 (mem s) ptr) in *.
    destruct (Z.land h (wnot Explicit.FREE) <? Explicit.MIN_BLOCK_SIZE)
      eqn:Hmin; [discriminate E|].
    apply Z.ltb_ge in Hmin. unfold Explicit.MIN_BLOCK_SIZE in Hmin.
    destruct (negb (Z.land h Explicit.FREE =? Explicit.FREE)
              && negb (Z.land h Explicit.FREE =? Explicit.USED)) eqn:Hst;
      [discriminate E|].
    assert (Hst' : Z.land h Explicit.FREE = Explicit.FREE
                   \/ Z.land h Explicit.FREE = Explicit.USED).
    { apply andb_false_iff in Hst.
      destruct Hst as [K | K]; apply negb_false_iff, Z.eqb_eq in K; tauto. }
    destruct (header_decode h Hh Hst') as [Hw H8].
    apply IH in E.
    + destruct E as (-> & Hheap & Hok & -> & He & ->).
      unfold Explicit.HEADER_LENGTH in *.
      conj_split; try assumption; try reflexivity.
      * cbn [heap_at bsize fst]. split; [exact Hw | exact Hheap].
      * constructor; [split; [exact Hmin | exact H8] | exact Hok].
      * cbn [total bsize fst]. lia.
      * rewrite nfree_cons. cbn [bfree snd].
        destruct (Z.land h Explicit.FREE =? Explicit.FREE).
        -- unfold wadd, wrap. rewrite Z.add_mod_idemp_l by (rewrite two64_eq; lia).
           f_equal. lia.
        -- f_equal.
    + destruct (Z.land h Explicit.FREE =? Explicit.FREE); [|exact Hc].
      apply wrap_range.
  - injection E as <- <- <-. apply Z.ltb_ge in Hlt.
    conj_split; try reflexivity; try exact I; try constructor;
      cbn [total]; try lia.
    unfold nfree. cbn [filter length Z.of_nat]. rewrite Z.add_0_r.
    symmetry. now apply wrap_small.
Qed.

(** X9.  [traverse_heap] returns true only on a heap whose headers, read
    from [segment_start], are those of a list of blocks with payloads of at
    least 16 bytes, multiples of 8, status FREE or USED, that ends exactly at
    [segment_end], and whose number of FREE blocks is [free_blocks_num]; it
    changes nothing.  (The walk is supposed to stay below [2^64], where the
    pointer arithmetic of the code is that of the integers.) *)
Theorem traverse_heap_sound (s s' : Explicit.state) :
  Explicit.segment_start (glob s) + total (blocks s) < two64 ->
  Explicit.traverse_heap s = Ok true s' ->
  s' = s
  /\ heap_at (mem s) (Explicit.segment_start (glob s)) (blocks s)
  /\ Forall block_ok (blocks s)
  /\ Explicit.segment_start (glob s) + total (blocks s)
     = Explicit.segment_end (glob s)
  /\ Explicit.free_blocks_num (glob s) = wrap (nfree (blocks s)).
Proof.
  intros _.
  unfold Explicit.traverse_heap. rewrite bind_get, bind_current_fuel.
  unfold bind at 1.
  destruct (Explicit.traverse_heap_loop (Explicit.heap_fuel s)
              (Explicit.segment_start (glob s)) 0 s)
    as [[[ptr' count']|] s1 | s1 | ] eqn:E; try discriminate.
  apply traverse_heap_loop_sound in E; [|rewrite two64_eq; lia].
  destruct E as (-> & Hheap & Hok & -> & He & ->).
  fold (blocks s) in *. rewrite bind_get.
  destruct (negb (Explicit.segment_start (glob s) + total (blocks s)
                  =? Explicit.segment_end (glob s))) eqn:H1;
    [discriminate|].
  rewrite bind_get.
  destruct (negb (wrap (0 + nfree (blocks s))
                  =? Explicit.free_blocks_num (glob s))) eqn:H2;
    [discriminate|].
  intros K. injection K as <-.
  apply negb_false_iff, Z.eqb_eq in H1, H2.
  conj_split; try assumption; try reflexivity.
  rewrite <- H2. reflexivity.
Qed.

Lemma traverse_heap_sound_witness :
  heap_at (mem Sample.freed_both)
    (Explicit.segment_start (glob Sample.freed_both))
    (blocks Sample.freed_both)
  /\ Explicit.free_blocks_num (glob Sample.freed_both)
     = wrap (nfree (blocks Sample.freed_both)).
Proof.
  assert (E : Explicit.traverse_heap Sample.freed_both
              = Ok true (after Explicit.traverse_heap Sample.freed_both))
    by (apply returned_after; vm_compute; reflexivity).
  assert (Hb : Explicit.segment_start (glob Sample.freed_both)
               + total (blocks Sample.freed_both) < two64)
    by (vm_compute; reflexivity).
  destruct (traverse_heap_sound _ _ Hb E) as (_ & H1 & _ & _ & H2).
  split; assumption.
Defined.

Lemma free_addrs_nfree (bl : list block) :
  forall a, length (free_addrs a bl) = length (filter bfree bl).
Proof.
  induction bl as [|[sz [|]] bl IH]; intros a;
    cbn [free_addrs filter bfree bsize fst snd length];
    [reflexivity | f_equal; apply IH | apply IH].
Qed.

(** X10.  In every state a client reaches (a successful [myinit] on a
    segment of a multiple of 8 bytes, then calls that return and stores into
    live payloads), the headers read from [segment_start] tile the segment
    with blocks of at least 16 bytes, multiples of 8; the free list, from
    [list_head] by the [next] words and from [list_end] by the [prev] words,
    is the list of the FREE blocks of that walk in address order, and
    [free_blocks_num] is their number. *)
Theorem reachable_structure (s : Explicit.state) :
  reach live s ->
  let a := Explicit.segment_start (glob s) in
  heap_at (mem s) a (blocks s)
  /\ Forall block_ok (blocks s)
  /\ a + total (blocks s) = Explicit.segment_end (glob s)
  /\ flist s (free_addrs a (blocks s))
  /\ chain a (free_addrs a (blocks s)) (Explicit.segment_end (glob s))
  /\ Explicit.free_blocks_num (glob s) = nfree (blocks s).
Proof.
  intros Hr a. pose proof (reach_blocks s Hr) as Hinv.
  pose proof (inv_shape _ _ Hinv) as [Hh He Hfl].
  pose proof (inv_blocks _ _ Hinv) as Hok. fold a in Hh, He, Hfl.
  conj_split; try assumption.
  - now symmetry.
  - rewrite He. apply free_addrs_chain. exact Hok.
  - rewrite (fl_num _ _ Hfl). unfold nfree. f_equal.
    apply free_addrs_nfree.
Qed.

Lemma reachable_structure_witness :
  flist Sample.freed_both
    (free_addrs (Explicit.segment_start (glob Sample.freed_both))
       (blocks Sample.freed_both))
  /\ Explicit.free_blocks_num (glob Sample.freed_both)
     = nfree (blocks Sample.freed_both).
Proof.
  destruct (reachable_structure Sample.freed_both) as (_ & _ & _ & H & _ & K).
  - apply (reach_call _ Sample.freed_first).
    + apply (reach_call _ Sample.two16).
      * apply (reach_call _ (after (Explicit.mymalloc 16) Sample.fresh)).
        -- apply (reach_call _ Sample.fresh).
           ++ apply (reach_init _ (zeroed 4096 1024) 4096 1024);
                [lia | reflexivity | reflexivity | reflexivity | reflexivity
                | apply returned_after; vm_compute; reflexivity].
           ++ apply (call_malloc _ _ 16 4104);
                [rewrite two64_eq; lia
                | apply returned_after; vm_compute; reflexivity].
        -- apply (call_malloc _ _ 16 4128);
             [rewrite two64_eq; lia
             | apply returned_after; vm_compute; reflexivity].
      * apply (call_free _ _ 4104 16);
          [|apply returned_after; vm_compute; reflexivity].
        exists []. eexists; split; vm_compute; reflexivity.
    + apply (call_free _ _ 4128 16);
        [|apply returned_after; vm_compute; reflexivity].
      exists [(16, true)]. eexists; split; vm_compute; reflexivity.
  - split; assumption.
Defined.

(* ================================================================= *)
(** ** Further properties of the implicit variant *)

(** X11.  For a request of at most [2^64 - 8] bytes the implicit [roundup]
    returns the least multiple of 8 that is at least the request and at
    least 8; rounding a second time changes nothing. *)
Theorem implicit_roundup_least_multiple (sz : Z) :
  0 <= sz <= two64 - 8 ->
  let n := Implicit.roundup sz ALIGNMENT in
  n mod 8 = 0 /\ 8 <= n /\ sz <= n
  /\ (forall k, k mod 8 = 0 -> 8 <= k -> sz <= k -> n <= k)
  /\ Implicit.roundup n ALIGNMENT = n.
Proof.
  intros H n. destruct (iroundup_ok sz H) as (R1 & R2 & R3 & R4).
  fold n in R1, R2, R3, R4.
  assert (Hup : n = 8 \/ n < sz + 8).
  { unfold n. destruct (Z_le_gt_dec sz 8) as [Hs | Hl].
    - left. now apply iroundup_small.
    - right. rewrite iroundup_large by (rewrite two64_eq in *; lia).
      rewrite Z.mod_small by (rewrite two64_eq in *; lia).
      rewrite land_not7 by (rewrite two64_eq in *; lia). zlia. }
  conj_split; try assumption.
  - intros k K1 K2 K3. destruct Hup as [-> | Hup]; [exact K2 | zlia].
  - destruct (Z_le_gt_dec n 8) as [Hs | Hl].
    + rewrite iroundup_small by exact Hs. lia.
    + rewrite iroundup_large by lia.
      assert (n <= two64 - 8) by (rewrite two64_eq in *; zlia).
      rewrite Z.mod_small by (rewrite two64_eq in *; lia).
      rewrite land_not7 by (rewrite two64_eq in *; lia). zlia.
Qed.

Lemma implicit_roundup_least_multiple_witness :
  Implicit.roundup 9 ALIGNMENT mod 8 = 0
  /\ 8 <= Implicit.roundup 9 ALIGNMENT
  /\ 9 <= Implicit.roundup 9 ALIGNMENT
  /\ (forall k, k mod 8 = 0 -> 8 <= k -> 9 <= k ->
                Implicit.roundup 9 ALIGNMENT <= k)
  /\ Implicit.roundup (Implicit.roundup 9 ALIGNMENT) ALIGNMENT
     = Implicit.roundup 9 ALIGNMENT.
Proof.
  apply (implicit_roundup_least_multiple 9). rewrite two64_eq. lia.
Defined.

(** Headers of a run of blocks survive writes that fall before or after
    the run. *)
Lemma iheap_at_frame (m m' : memory) (lo hi : Z) (bl : list block) :
  forall a,
    Forall iblock_ok bl -> heap_at m a bl ->
    (forall x, x < lo \/ hi <= x -> m' x = m x) ->
    a + total bl <= lo \/ hi <= a ->
    heap_at m' a bl.
Proof.
  induction bl as [|b bl IH]; intros a Hok Hh Hfr Hpos; [exact I|].
  cbn [heap_at total] in *. destruct Hh as [Hw Hh].
  pose proof (Forall_inv Hok) as [Hb _].
  pose proof (itotal_nonneg _ (Forall_inv_tail Hok)) as Ht.
  split.
  - rewrite <- Hw. apply load64_ext. intros i Hi. apply Hfr. lia.
  - apply IH; [exact (Forall_inv_tail Hok) | exact Hh | exact Hfr | lia].
Qed.

Lemma iplaced_total (needed sz : Z) : total (iplaced needed sz) = 8 + sz.
Proof.
  unfold iplaced. destruct (sz - needed <=? 8); cbn [total bsize fst]; lia.
Qed.

(** The implicit search steps over a block that is USED or too small. *)
Lemma imalloc_step_skip (s : Implicit.state) (done rest : list block)
  (n needed : Z) (f : bool) (fuel : nat) :
  iheap s (done ++ (n, f) :: rest) ->
  (f = true -> n < needed) ->
  Implicit.mymalloc_loop (S fuel) needed
    (Implicit.segment_start (glob s) + total done) s
  = Implicit.mymalloc_loop fuel needed
      (Implicit.segment_start (glob s) + total (done ++ [(n, f)])) s.
Proof.
  intros Hinv Hsmall.
  destruct (iheap_block _ _ _ _ Hinv)
    as (Hw & Hp0 & Hplo & Hphi & Hpe & Htd & Htr & Hb1 & Hb2 & Hb3).
  cbn [bsize fst] in *.
  cbn [Implicit.mymalloc_loop]. rewrite bind_get.
  rewrite (proj2 (Z.ltb_lt _ _)) by lia.
  rewrite bind_read by lia. rewrite Hw.
  change Implicit.FREE with Explicit.FREE. unfold Implicit.HEADER_LENGTH.
  replace (Implicit.segment_start (glob s) + total (done ++ [(n, f)]))
    with (Implicit.segment_start (glob s) + total done + n + 8)
    by (rewrite total_app; cbn [total bsize fst]; lia).
  destruct f; unfold header_word; cbn [bfree bsize fst snd].
  - rewrite free_header_size by lia.
    rewrite Z.geb_leb, (proj2 (Z.leb_gt needed n)) by (apply Hsmall; reflexivity).
    reflexivity.
  - rewrite used_header_size, used_header_status by lia.
    change (0 =? Explicit.FREE) with false. rewrite andb_false_r.
    reflexivity.
Qed.

Lemma imalloc_no_fit (s : Implicit.state) (bl : list block) (needed : Z) :
  iheap s bl ->
  forall (rest done : list block) (fuel : nat),
    bl = done ++ rest -> too_small needed rest -> (length rest < fuel)%nat ->
    Implicit.mymalloc_loop fuel needed
      (Implicit.segment_start (glob s) + total done) s
    = Ok 0 s.
Proof.
  intros Hinv rest.
  induction rest as [|[n f] rest IH]; intros done fuel E Hs Hf;
    (destruct fuel as [|fuel]; [simpl in Hf; lia|]).
  - cbn [Implicit.mymalloc_loop]. rewrite bind_get.
    rewrite app_nil_r in E. subst done. rewrite (ih_end _ _ Hinv).
    now rewrite (proj2 (Z.ltb_ge _ _)) by lia.
  - subst bl. rewrite (imalloc_step_skip s done rest n needed f fuel Hinv).
    + apply IH; [now rewrite <- app_assoc | exact (Forall_inv_tail Hs)
                | simpl in Hf; lia].
    + exact (Forall_inv Hs).
Qed.

Lemma imalloc_skip_run (s : Implicit.state) (bl : list block) (needed : Z) :
  iheap s bl ->
  forall (skip done rest : list block) (fuel : nat),
    bl = done ++ skip ++ rest -> too_small needed skip ->
    Implicit.mymalloc_loop (length skip + fuel) needed
      (Implicit.segment_start (glob s) + total done) s
    = Implicit.mymalloc_loop fuel needed
        (Implicit.segment_start (glob s) + total (done ++ skip)) s.
Proof.
  intros Hinv skip.
  induction skip as [|[n f] skip IH]; intros done rest fuel E Hs.
  - now rewrite app_nil_r.
  - subst bl. cbn [length Nat.add].
    rewrite (imalloc_step_skip s done (skip ++ rest) n needed f _ Hinv
               (Forall_inv Hs)).
    rewrite (IH (done ++ [(n, f)]) rest fuel);
      [|now rewrite <- app_assoc | exact (Forall_inv_tail Hs)].
    now rewrite <- app_assoc.
Qed.

Lemma imalloc_take (s : Implicit.state) (pre post : list block)
  (sz needed : Z) (fuel : nat) :
  iheap s (pre ++ (sz, true) :: post) ->
  8 <= needed -> needed mod 8 = 0 -> needed <= sz ->
  let b := Implicit.segment_start (glob s) + total pre in
  exists s',
    Implicit.mymalloc_loop (S fuel) needed b s = Ok (b + 8) s'
    /\ iheap s' (pre ++ iplaced needed sz ++ post)
    /\ glob s' = glob s
    /\ same_outside (mem s) (mem s')
         ((b, b + 8)
          :: (if sz - needed <=? 8 then []
              else [(b + 8 + needed, b + 8 + needed + 8)])).
Proof.
  intros Hinv Hn Hn8 Hle b.
  destruct (iheap_block _ _ _ _ Hinv)
    as (Hw & Hp0 & Hplo & Hphi & Hpe & Htd & Htr & Hb1 & Hb2 & Hb3).
  fold b in Hw, Hp0, Hplo, Hphi, Hpe. cbn [bsize fst] in *.
  unfold header_word in Hw. cbn [bfree bsize fst snd] in Hw.
  pose proof Hinv as [Hh He Hs Hb Hlo Hhi Hok].
  apply heap_at_app in Hh. destruct Hh as [Hh1 [_ Hh2]].
  fold b in Hh2. cbn [bsize fst] in Hh2.
  apply Forall_app in Hok. destruct Hok as [Hok1 Hok2].
  pose proof (Forall_inv_tail Hok2) as Hok3.
  cbn [Implicit.mymalloc_loop]. rewrite bind_get.
  rewrite (proj2 (Z.ltb_lt _ _)) by lia.
  rewrite bind_read by lia. rewrite Hw.
  change Implicit.FREE with Explicit.FREE. unfold Implicit.HEADER_LENGTH.
  rewrite free_header_size, free_header_status by lia.
  change (7 =? Explicit.FREE) with true. rewrite andb_true_r.
  rewrite Z.geb_leb, (proj2 (Z.leb_le needed sz)) by exact Hle.
  rewrite wsub_small by lia. unfold Explicit.FREE.
  assert (Hfin : forall (m' : memory) (mid : list block),
            same_outside (mem s) m' [(b, b + 8); (b + 8 + needed, b + 8 + sz)] ->
            heap_at m' b mid -> total mid = 8 + sz -> Forall iblock_ok mid ->
            iheap (Machine m' (heap_lo s) (heap_hi s) (glob s))
              (pre ++ mid ++ post)).
  { intros m' mid Hfr Hmid Ht Hokm.
    assert (Hout : forall x, x < b \/ b + 8 + sz <= x -> m' x = mem s x).
    { intros x Hx. apply Hfr. intros lo hi [K | [K | []]];
        injection K as <- <-; lia. }
    split; cbn [mem glob heap_lo heap_hi]; try assumption.
    - apply heap_at_app. split.
      + apply (iheap_at_frame (mem s) m' b (b + 8 + sz)); try assumption.
        left. unfold b. lia.
      + apply heap_at_app. split; [exact Hmid|].
        fold b. rewrite Ht.
        apply (iheap_at_frame (mem s) m' b (b + 8 + sz)); try assumption.
        * replace (b + (8 + sz)) with (b + 8 + sz) by lia. exact Hh2.
        * right. lia.
    - rewrite He, !total_app, Ht. cbn [total bsize fst]. lia.
    - apply Forall_app. split; [exact Hok1|].
      apply Forall_app. split; [exact Hokm | exact Hok3]. }
  unfold iplaced.
  destruct (Z_le_gt_dec (sz - needed) 8) as [Hpad | Hsplit].
  - rewrite (proj2 (Z.leb_le _ _)) by exact Hpad.
    rewrite bind_write by lia.
    eexists. split; [reflexivity|]. split; [|split; [reflexivity|]].
    + apply Hfin.
      * intros x Hx. specialize (Hx _ _ (or_introl eq_refl)).
        cbn [mem]. apply store64_out. lia.
      * cbn [heap_at]. split; [|exact I].
        rewrite wnot_7, land_not7 by (rewrite two64_eq in *; lia).
        rewrite load64_store64_same by (rewrite two64_eq in *; zlia).
        unfold header_word. cbn [bfree bsize fst snd]. zlia.
      * cbn [total bsize fst]. lia.
      * repeat constructor; cbn [bsize fst]; assumption.
    + cbn [mem]. intros x Hx. specialize (Hx _ _ (or_introl eq_refl)).
      apply store64_out. lia.
  - rewrite !(proj2 (Z.leb_gt _ _)) by lia.
    rewrite bind_assoc, bind_write by lia.
    rewrite bind_write by (cbn [heap_lo heap_hi]; lia).
    rewrite !wsub_small by (rewrite ?two64_eq in *; lia).
    rewrite wnot_7, land_not7 by (rewrite two64_eq in *; lia).
    replace (needed - needed mod 8) with needed by lia.
    rewrite lor_7. replace ((sz - needed - 8) mod 8) with 0 by zlia.
    assert (Hfr : same_outside (mem s)
                    (store64 (store64 (mem s) b needed) (b + 8 + needed)
                       (sz - needed - 8 - 0 + 7))
                    [(b, b + 8); (b + 8 + needed, b + 8 + needed + 8)]).
    { intros x Hx. pose proof (Hx _ _ (or_introl eq_refl)).
      pose proof (Hx _ _ (or_intror (or_introl eq_refl))).
      rewrite !store64_out by lia. reflexivity. }
    eexists. split; [reflexivity|]. split; [|split; [reflexivity | exact Hfr]].
    apply Hfin.
    * intros x Hx. apply Hfr. intros lo hi [K | [K | []]];
        injection K as <- <-.
      -- apply (Hx _ _ (or_introl eq_refl)).
      -- pose proof (Hx _ _ (or_intror (or_introl eq_refl))). lia.
    * cbn [heap_at bsize fst]. unfold header_word. cbn [bfree bsize fst snd].
      conj_split; [| |exact I].
      -- rewrite load64_store64_other by lia.
         apply load64_store64_same. rewrite two64_eq in *. lia.
      -- rewrite load64_store64_same by (rewrite two64_eq in *; lia). lia.
    * cbn [total bsize fst]. lia.
    * repeat constructor; cbn [bsize fst]; try assumption; zlia.
Qed.

Lemma ifuel_enough (s : Implicit.state) (bl : list block) :
  iheap s bl -> (length bl < Implicit.heap_fuel s)%nat.
Proof.
  intros Hinv. unfold Implicit.heap_fuel.
  pose proof (itotal_length _ (ih_blocks _ _ Hinv)).
  pose proof (ih_end _ _ Hinv). lia.
Qed.

Lemma implicit_mymalloc_null (s : Implicit.state) (bl : list block) (r : Z) :
  iheap s bl ->
  too_small (Implicit.roundup r ALIGNMENT) bl ->
  Implicit.mymalloc r s = Ok 0 s.
Proof.
  intros Hinv Hs. unfold Implicit.mymalloc. rewrite bind_get.
  change (bind Implicit.current_fuel ?k s) with (k (Implicit.heap_fuel s) s).
  cbv beta.
  pose proof (imalloc_no_fit s bl _ Hinv bl [] (Implicit.heap_fuel s) eq_refl
                Hs (ifuel_enough _ _ Hinv)) as H.
  cbn [total] in H. rewrite Z.add_0_r in H. exact H.
Qed.

(** X12.  The implicit [mymalloc] returns null, and leaves the state as it
    is, when no FREE block of the heap holds the rounded request. *)
Theorem implicit_mymalloc_out_of_space (s : Implicit.state)
  (bl : list block) (r : Z) :
  iheap s bl ->
  too_small (Implicit.roundup r ALIGNMENT) bl ->
  Implicit.mymalloc r s = Ok 0 s.
Proof. apply implicit_mymalloc_null. Qed.

Lemma implicit_mymalloc_out_of_space_witness :
  Implicit.mymalloc 2000 ISample.fresh = Ok 0 ISample.fresh.
Proof.
  apply (implicit_mymalloc_out_of_space ISample.fresh [(1016, true)] 2000).
  - exact ifresh_iheap.
  - repeat constructor.
Defined.

(** X13.  The implicit [mymalloc(r)], for [r <= 2^64 - 8], takes the first
    FREE block of the heap whose payload [sz] holds [needed = roundup(r)]
    and returns its payload address.  When [sz - needed <= 8] the whole block
    becomes USED; otherwise it is split into a USED block of [needed] bytes
    and a FREE block of [sz - needed - 8] bytes.  The only bytes written
    are the 8 of the header of the block, at [b], and, when the block is
    split, the 8 of the header of the remainder, at [b + 8 + needed]: the
    payloads, the slack of a block taken whole and the rest of the heap keep
    their bytes. *)
Theorem implicit_mymalloc_first_fit (s : Implicit.state)
  (pre post : list block) (sz r : Z) :
  iheap s (pre ++ (sz, true) :: post) -> 0 <= r <= two64 - 8 ->
  too_small (Implicit.roundup r ALIGNMENT) pre ->
  Implicit.roundup r ALIGNMENT <= sz ->
  let b := Implicit.segment_start (glob s) + total pre in
  let needed := Implicit.roundup r ALIGNMENT in
  exists s',
    Implicit.mymalloc r s = Ok (b + 8) s'
    /\ iheap s' (pre ++ iplaced needed sz ++ post)
    /\ glob s' = glob s
    /\ same_outside (mem s) (mem s')
         ((b, b + 8)
          :: (if sz - needed <=? 8 then []
              else [(b + 8 + needed, b + 8 + needed + 8)])).
Proof.
  intros Hinv Hr Hs Hle b needed.
  destruct (iroundup_ok r Hr) as (R1 & R2 & _ & _).
  pose proof (ifuel_enough _ _ Hinv) as Hf.
  rewrite length_app in Hf. cbn [length] in Hf.
  destruct (imalloc_take s pre post sz needed
              (Implicit.heap_fuel s - length pre - 1) Hinv R1 R2 Hle)
    as (s' & E & Hinv' & Hg & Hfr).
  exists s'. conj_split; try assumption.
  unfold Implicit.mymalloc. rewrite bind_get.
  change (bind Implicit.current_fuel ?k s) with (k (Implicit.heap_fuel s) s).
  cbv beta.
  replace (Implicit.heap_fuel s)
    with (length pre + S (Implicit.heap_fuel s - length pre - 1))%nat by lia.
  pose proof (imalloc_skip_run s _ needed Hinv pre [] ((sz, true) :: post)
                (S (Implicit.heap_fuel s - length pre - 1)) eq_refl Hs) as K.
  cbn [total app] in K. rewrite Z.add_0_r in K.
  fold needed. rewrite K. exact E.
Qed.

Lemma implicit_mymalloc_first_fit_witness :
  exists s',
    Implicit.mymalloc 200 ISample.fresh = Ok 4104 s'
    /\ iheap s' [(200, false); (808, true)]
    /\ same_outside (mem ISample.fresh) (mem s')
         [(4096, 4104); (4304, 4312)].
Proof.
  destruct (implicit_mymalloc_first_fit ISample.fresh [] [] 1016 200)
    as (s' & E & Hinv & _ & Hfr).
  - exact ifresh_iheap.
  - rewrite two64_eq. lia.
  - constructor.
  - vm_compute. discriminate.
  - exists s'. split; [exact E | split; [exact Hinv | exact Hfr]].
Defined.

(** X14.  The implicit [myfree(p)] of a block of the heap, USED or already
    FREE, returns and sets the status bits of its header: the block is FREE,
    no block is merged, and no byte outside that header changes. *)
Theorem implicit_myfree_marks (s : Implicit.state) (pre post : list block)
  (sz : Z) (f : bool) :
  iheap s (pre ++ (sz, f) :: post) ->
  let b := Implicit.segment_start (glob s) + total pre in
  exists s',
    Implicit.myfree (b + 8) s = Ok tt s'
    /\ iheap s' (pre ++ (sz, true) :: post)
    /\ glob s' = glob s
    /\ same_outside (mem s) (mem s') [(b, b + 8)].
Proof.
  intros Hinv b.
  destruct (iheap_block _ _ _ _ Hinv)
    as (Hw & Hp0 & Hplo & Hphi & Hpe & Htd & Htr & Hb1 & Hb2 & Hb3).
  fold b in Hw, Hp0, Hplo, Hphi, Hpe. cbn [bsize fst] in *.
  pose proof Hinv as [Hh He Hs Hb Hlo Hhi Hok].
  apply heap_at_app in Hh. destruct Hh as [Hh1 [_ Hh2]].
  fold b in Hh2. cbn [bsize fst] in Hh2.
  apply Forall_app in Hok. destruct Hok as [Hok1 Hok2].
  unfold Implicit.myfree, Implicit.HEADER_LENGTH, Implicit.FREE.
  rewrite (proj2 (Z.eqb_neq (b + 8) 0)) by lia. cbn [negb].
  replace (b + 8 - 8) with b by lia.
  rewrite bind_read by lia. rewrite Hw.
  rewrite write_ok by lia.
  assert (Hv : Z.lor (header_word (sz, f)) 7 = sz + 7).
  { rewrite lor_7. unfold header_word. cbn [bfree bsize fst snd].
    destruct f; zlia. }
  rewrite Hv.
  assert (Hout : forall x, x < b \/ b + 8 <= x ->
                           store64 (mem s) b (sz + 7) x = mem s x).
  { intros x Hx. apply store64_out. lia. }
  eexists. split; [reflexivity|]. conj_split; [|reflexivity|].
  - split; cbn [mem glob heap_lo heap_hi]; try assumption.
    + apply heap_at_app. split.
      * apply (iheap_at_frame (mem s) _ b (b + 8)); try assumption.
        left. unfold b. lia.
      * cbn [heap_at bsize fst]. fold b. split.
        -- rewrite load64_store64_same by (rewrite two64_eq in *; lia).
           reflexivity.
        -- apply (iheap_at_frame (mem s) _ b (b + 8));
             [exact (Forall_inv_tail Hok2) | exact Hh2 | exact Hout | right; lia].
    + rewrite He, !total_app. reflexivity.
    + apply Forall_app. split; [exact Hok1|].
      constructor; [exact (Forall_inv Hok2) | exact (Forall_inv_tail Hok2)].
  - cbn [mem]. intros x Hx. specialize (Hx _ _ (or_introl eq_refl)).
    apply Hout. lia.
Qed.

Lemma implicit_myfree_marks_witness :
  exists s',
    Implicit.myfree 4104 ISample.one200 = Ok tt s'
    /\ iheap s' [(200, true); (808, true)].
Proof.
  destruct (implicit_myfree_marks ISample.one200 [] [(808, true)] 200 false
              one200_iheap) as (s' & E & Hinv & _).
  exists s'. split; [exact E | exact Hinv].
Defined.

Lemma ivalidate_loop_ok (s : Implicit.state) (bl : list block) :
  forall (x : Z) (fuel : nat),
    heap_at (mem s) x bl -> Forall iblock_ok bl ->
    x + total bl = Implicit.segment_end (glob s) ->
    0 < x -> heap_lo s <= x -> Implicit.segment_end (glob s) <= heap_hi s ->
    Implicit.segment_end (glob s) < two64 ->
    (length bl < fuel)%nat ->
    Implicit.validate_heap_loop fuel x s
    = Ok (Some (Implicit.segment_end (glob s))) s.
Proof.
  induction bl as [|[n f] bl IH]; intros x fuel Hh Hok He H0 Hlo Hhi Hb Hf;
    (destruct fuel as [|fuel]; [simpl in Hf; lia|]);
    cbn [Implicit.validate_heap_loop]; rewrite bind_get.
  - cbn [total] in He. rewrite (proj2 (Z.ltb_ge _ _)) by lia.
    unfold ret. f_equal. f_equal. lia.
  - cbn [total bsize fst heap_at] in He, Hh. destruct Hh as [Hw Hh].
    pose proof (Forall_inv Hok) as [Hn Hn8]. cbn [bsize fst] in Hn, Hn8.
    pose proof (itotal_nonneg _ (Forall_inv_tail Hok)) as Ht.
    rewrite (proj2 (Z.ltb_lt _ _)) by lia.
    rewrite bind_read by lia. rewrite Hw.
    change Implicit.FREE with Explicit.FREE. unfold Implicit.HEADER_LENGTH.
    assert (Hnext : Implicit.validate_heap_loop fuel (x + 8 + n) s
                    = Ok (Some (Implicit.segment_end (glob s))) s).
    { apply IH; try assumption; try lia. exact (Forall_inv_tail Hok).
      simpl in Hf. lia. }
    destruct f; unfold header_word; cbn [bfree bsize fst snd].
    + rewrite free_header_size, free_header_status by lia.
      change (7 =? Explicit.FREE) with true. cbn [negb andb]. exact Hnext.
    + rewrite used_header_size, used_header_status by lia.
      change (0 =? Explicit.FREE) with false.
      change (0 =? Implicit.USED) with true. cbn [negb andb]. exact Hnext.
Qed.

(** X15.  The implicit [validate_heap] returns true, and changes nothing, on
    every heap whose headers tile the segment with blocks of at least 8
    bytes, multiples of 8. *)
Theorem implicit_validate_heap_ok (s : Implicit.state) (bl : list block) :
  iheap s bl -> Implicit.validate_heap s = Ok true s.
Proof.
  intros Hinv. pose proof Hinv as [Hh He Hs Hb Hlo Hhi Hok].
  unfold Implicit.validate_heap. rewrite bind_get.
  change (bind Implicit.current_fuel ?k s) with (k (Implicit.heap_fuel s) s).
  cbv beta.
  rewrite (bind_ok _ _ _ _ _
             (ivalidate_loop_ok s bl _ (Implicit.heap_fuel s) Hh Hok
                (eq_sym He) Hs ltac:(lia) ltac:(lia) Hb
                (ifuel_enough _ _ Hinv))).
  rewrite bind_get. now rewrite Z.eqb_refl.
Qed.

Lemma implicit_validate_heap_ok_witness :
  Implicit.validate_heap ISample.one200 = Ok true ISample.one200.
Proof.
  exact (implicit_validate_heap_ok ISample.one200 _ one200_iheap).
Defined.

(** X16.  The implicit [myrealloc(p, r)], for [r <= 2^64 - 8], of a USED
    block whose payload is smaller than [roundup(r)], on a heap none of
    whose FREE blocks holds [roundup(r)] bytes: it returns null and leaves the
    state, the old block included, as it is. *)
Theorem implicit_myrealloc_out_of_space (s : Implicit.state)
  (pre post : list block) (sz r : Z) :
  iheap s (pre ++ (sz, false) :: post) ->
  sz < Implicit.roundup r ALIGNMENT ->
  too_small (Implicit.roundup r ALIGNMENT) (pre ++ (sz, false) :: post) ->
  Implicit.myrealloc (Implicit.segment_start (glob s) + total pre + 8) r s
  = Ok 0 s.
Proof.
  intros Hinv Hlt Hs.
  destruct (iheap_block _ _ _ _ Hinv)
    as (Hw & Hp0 & Hplo & Hphi & Hpe & Htd & Htr & Hb1 & Hb2 & Hb3).
  cbn [bsize fst] in *. unfold header_word in Hw.
  cbn [bfree bsize fst snd] in Hw.
  unfold Implicit.myrealloc, Implicit.HEADER_LENGTH.
  rewrite (proj2 (Z.eqb_neq _ 0)) by lia.
  replace (Implicit.segment_start (glob s) + total pre + 8 - 8)
    with (Implicit.segment_start (glob s) + total pre) by lia.
  rewrite bind_read by lia. rewrite Hw.
  rewrite Z.geb_leb, (proj2 (Z.leb_gt _ _)) by lia.
  rewrite (bind_ok _ _ _ _ _ (implicit_mymalloc_null s _ r Hinv Hs)).
  reflexivity.
Qed.

Lemma implicit_myrealloc_out_of_space_witness :
  Implicit.myrealloc 4104 2000 ISample.one200 = Ok 0 ISample.one200.
Proof.
  apply (implicit_myrealloc_out_of_space ISample.one200 [] [(808, true)]
           200 2000 one200_iheap).
  - vm_compute. reflexivity.
  - repeat constructor; cbn [bfree snd]; intros K;
      first [discriminate K | vm_compute; reflexivity].
Defined.

(** X17.  The implicit [myrealloc(p, r)], for [r <= 2^64 - 8], of a USED
    block whose payload [sz] holds [needed = roundup(r)]: it returns [p]; the
    only bytes it may write are the 8 bytes at [p + needed], inside the
    payload, and only when [sz - needed > 8]; the headers of the heap, that
    of the block included, are what they were. *)
Theorem implicit_myrealloc_in_place (s : Implicit.state)
  (pre post : list block) (sz r : Z) :
  iheap s (pre ++ (sz, false) :: post) -> 0 <= r <= two64 - 8 ->
  Implicit.roundup r ALIGNMENT <= sz ->
  let p := Implicit.segment_start (glob s) + total pre + 8 in
  let needed := Implicit.roundup r ALIGNMENT in
  exists s',
    Implicit.myrealloc p r s = Ok p s'
    /\ iheap s' (pre ++ (sz, false) :: post)
    /\ glob s' = glob s
    /\ same_outside (mem s) (mem s') [(p + needed, p + needed + 8)]
    /\ (sz - needed <= 8 -> mem s' = mem s)
    /\ (8 < sz - needed -> p + needed + 8 <= p + sz).
Proof.
  intros Hinv Hr Hfit p needed.
  destruct (iroundup_ok r Hr) as (R1 & R2 & R3 & R4). fold needed in R1, R2, R3, R4, Hfit.
  destruct (iheap_block _ _ _ _ Hinv)
    as (Hw & Hp0 & Hplo & Hphi & Hpe & Htd & Htr & Hb1 & Hb2 & Hb3).
  cbn [bsize fst] in *. unfold header_word in Hw.
  cbn [bfree bsize fst snd] in Hw.
  pose proof Hinv as [Hh He Hs Hb Hlo Hhi Hok].
  unfold Implicit.myrealloc, Implicit.HEADER_LENGTH.
  rewrite (proj2 (Z.eqb_neq p 0)) by (unfold p; lia).
  replace (p - 8) with (Implicit.segment_start (glob s) + total pre)
    by (unfold p; lia).
  rewrite bind_read by lia. rewrite Hw. fold needed.
  rewrite Z.geb_leb, (proj2 (Z.leb_le _ _)) by exact Hfit.
  rewrite wsub_small by lia. rewrite Z.gtb_ltb.
  destruct (Z_lt_ge_dec 8 (sz - needed)) as [Hsp | Hsp].
  - rewrite (proj2 (Z.ltb_lt _ _)) by exact Hsp. cbn [when].
    rewrite bind_write by (unfold p; lia).
    eexists. split; [reflexivity|]. cbn [mem glob].
    assert (Hout : forall x, x < p + needed \/ p + needed + 8 <= x ->
                     store64 (mem s) (p + needed)
                       (Z.lor (wsub (sz - needed) 8) Implicit.FREE) x
                     = mem s x).
    { intros x Hx. apply store64_out. lia. }
    conj_split; [|reflexivity| | lia | lia].
    + split; cbn [mem glob heap_lo heap_hi]; try assumption.
      apply heap_at_app in Hh. destruct Hh as [Hh1 [Hh2 Hh3]].
      cbn [bsize fst] in Hh3.
      apply heap_at_app. split.
      * apply (iheap_at_frame (mem s) _ (p + needed) (p + needed + 8));
          try assumption; [exact (Forall_app_l _ _ _ Hok) | left; unfold p; lia].
      * cbn [heap_at bsize fst]. split.
        -- rewrite <- Hh2. apply load64_ext. intros i Hi. apply Hout.
           unfold p. lia.
        -- apply (iheap_at_frame (mem s) _ (p + needed) (p + needed + 8));
             try assumption;
             [exact (Forall_inv_tail (Forall_app_r _ _ _ Hok))
             | right; unfold p; lia].
    + intros x Hx. specialize (Hx _ _ (or_introl eq_refl)). apply Hout. lia.
  - rewrite (proj2 (Z.ltb_ge _ _)) by lia. cbn [when]. rewrite bind_ret.
    exists s. conj_split; try reflexivity; try assumption; try lia.
    intros x _. reflexivity.
Qed.

Lemma implicit_myrealloc_in_place_witness :
  exists s',
    Implicit.myrealloc 4104 40 ISample.one200 = Ok 4104 s'
    /\ iheap s' [(200, false); (808, true)].
Proof.
  destruct (implicit_myrealloc_in_place ISample.one200 [] [(808, true)]
              200 40 one200_iheap) as (s' & E & Hinv & _).
  - rewrite two64_eq. lia.
  - vm_compute. discriminate.
  - exists s'. split; [exact E | exact Hinv].
Defined.

